(** * ByteBuf: a shallow embedding of [src/bytebuf.ts]

    [ByteBuf] extends the platform's [DataView] with a cursor
    ([#byteOffset]) and with codecs for variable-length integers, strings
    and typed-array views.  The embedding follows the class method by
    method:

    - the object is a record holding the bytes of [this.buffer], the
      [DataView] slots [super.byteOffset] and [this.byteLength], and the
      private cursor [#byteOffset];
    - a method is a computation in a state-and-exception monad over that
      record: a [throw] keeps the state reached so far, as a JavaScript
      exception keeps the mutations already made;
    - JavaScript numbers that carry offsets, lengths and integers are [Z];
      the 32-bit operators [&], [|], [^], [<<], [>>], [>>>] wrap as
      ECMAScript prescribes;
    - the platform classes the source calls ([DataView], [Uint8Array],
      [Uint16Array], [TextEncoder], [BigInt], [Number]) are modelled from
      ECMAScript and the Encoding Standard; the table of labels known to
      [TextDecoder] is a parameter. *)

From Stdlib Require Import ZArith Lia ZifyBool Bool String Ascii.
From stdpp Require Import base list.

Local Open Scope Z_scope.

(** ** Results and errors *)

(** The exceptions the class can raise, tagged by the place that throws. *)
Inductive error : Type :=
| RangeError_bounds
    (* DataView accessor or typed-array constructor: outside the bounds *)
| RangeError_VarInt (maxByteLength : Z)
    (* "VarInt must be between 1 and N bytes." *)
| RangeError_VarString (maxByteLength : Z)
    (* "VarString must be less than or equal to N bytes." *)
| RangeError_BigInt
    (* BigInt(value): the number is not an integer *)
| RangeError_label (label : string)
    (* new TextDecoder(label): the label names no encoding *)
| TypeError_encoding (byteEncoding : string).
    (* "String encoding 'x' is not supported" *)

Inductive result (A : Type) : Type :=
| Ok (a : A)
| Throw (e : error).

Arguments Ok {A} a.
Arguments Throw {A} e.

(** ** 32-bit integer operators of JavaScript *)

Module JS.

Definition ToInt32 (z : Z) : Z := (z + 2 ^ 31) mod 2 ^ 32 - 2 ^ 31.
Definition ToUint32 (z : Z) : Z := z mod 2 ^ 32.

(** [a & b], [a | b], [a ^ b] *)
Definition and (a b : Z) : Z := Z.land (ToInt32 a) (ToInt32 b).
Definition or (a b : Z) : Z := Z.lor (ToInt32 a) (ToInt32 b).
Definition xor (a b : Z) : Z := Z.lxor (ToInt32 a) (ToInt32 b).

(** [a << n], [a >> n], [a >>> n]: the shift count is taken modulo 32 *)
Definition shl (a n : Z) : Z :=
  ToInt32 (Z.shiftl (ToInt32 a) (ToUint32 n mod 32)).
Definition sar (a n : Z) : Z := Z.shiftr (ToInt32 a) (ToUint32 n mod 32).
Definition shr (a n : Z) : Z := Z.shiftr (ToUint32 a) (ToUint32 n mod 32).

(** [a || b] on an optional number and on an optional string: [undefined],
    [0] and the empty string are falsy. *)
Definition number_or (a : option Z) (b : Z) : Z :=
  match a with
  | Some x => if x =? 0 then b else x
  | None => b
  end.

Definition string_or (a : option string) (b : string) : string :=
  match a with
  | Some EmptyString => b
  | Some s => s
  | None => b
  end.

End JS.

(** ** Byte sequences *)

(** [slice pos len buf]: the bytes [pos, pos+len) of [buf]. *)
Definition slice (pos len : nat) (buf : list Z) : list Z :=
  take len (drop pos buf).

(** [store pos bs buf]: [buf] with [bs] written from index [pos] on. *)
Definition store (pos : nat) (bs : list Z) (buf : list Z) : list Z :=
  take pos buf ++ bs ++ drop (pos + length bs)%nat buf.

(** Numeric value of a big-endian byte sequence. *)
Fixpoint be_value (acc : Z) (bs : list Z) : Z :=
  match bs with
  | [] => acc
  | b :: bs' => be_value (acc * 256 + b) bs'
  end.

(** The [n] low-order bytes of [z], least significant first. *)
Fixpoint le_bytes (n : nat) (z : Z) : list Z :=
  match n with
  | O => []
  | S n' => z mod 256 :: le_bytes n' (z / 256)
  end.

(** ECMAScript's RawBytesToNumeric and NumericToRawBytes for integers. *)
Definition RawBytesToNumeric (bs : list Z) (littleEndian : bool) : Z :=
  be_value 0 (if littleEndian then rev bs else bs).

Definition NumericToRawBytes (size : nat) (z : Z) (littleEndian : bool)
  : list Z :=
  if littleEndian then le_bytes size z else rev (le_bytes size z).

(** Two's-complement reading of an unsigned [bits]-bit value. *)
Definition signed (bits : Z) (u : Z) : Z :=
  if u <? 2 ^ (bits - 1) then u else u - 2 ^ bits.

(** ** The object *)

Record ByteBuf : Type := {
  buffer : list Z;          (* this.buffer: the bytes of the ArrayBuffer *)
  super_byteOffset : Z;     (* super.byteOffset: where the view starts *)
  byteLength : Z;           (* this.byteLength: the extent of the view *)
  priv_byteOffset : Z       (* this.#byteOffset: the cursor *)
}.

Definition with_buffer (v : ByteBuf) (buf : list Z) : ByteBuf :=
  {| buffer := buf;
     super_byteOffset := super_byteOffset v;
     byteLength := byteLength v;
     priv_byteOffset := priv_byteOffset v |}.

Definition with_cursor (v : ByteBuf) (c : Z) : ByteBuf :=
  {| buffer := buffer v;
     super_byteOffset := super_byteOffset v;
     byteLength := byteLength v;
     priv_byteOffset := c |}.

(** What the [DataView] constructor guarantees of every view, and what an
    [ArrayBuffer] guarantees of its content. *)
Definition wf (v : ByteBuf) : Prop :=
  0 <= super_byteOffset v /\
  0 <= byteLength v /\
  super_byteOffset v + byteLength v <= Z.of_nat (length (buffer v)) /\
  Forall (fun b => 0 <= b < 256) (buffer v).

(** The bytes [off, off+len) of the view, in view coordinates. *)
Definition bytes_at (v : ByteBuf) (off len : Z) : list Z :=
  slice (Z.to_nat (super_byteOffset v + off)) (Z.to_nat len) (buffer v).

(** ** The monad of methods *)

Definition M (A : Type) : Type := ByteBuf -> result A * ByteBuf.

Definition ret {A} (a : A) : M A := fun v => (Ok a, v).
Definition throw {A} (e : error) : M A := fun v => (Throw e, v).

Definition bind {A B} (m : M A) (k : A -> M B) : M B :=
  fun v =>
    match m v with
    | (Ok a, v') => k a v'
    | (Throw e, v') => (Throw e, v')
    end.

Declare Scope js_scope.
Delimit Scope js_scope with js.
Notation "x <- m ;; k" := (bind m (fun x => k))
  (at level 100, m at next level, right associativity) : js_scope.
Notation "m ;;; k" := (bind m (fun _ => k))
  (at level 100, right associativity) : js_scope.
Local Open Scope js_scope.

(** [this.#byteOffset], [this.#byteOffset++], [this.#byteOffset += n],
    [this.#byteOffset = n] *)
Definition cursor : M Z := fun v => (Ok (priv_byteOffset v), v).
Definition cursor_post_incr : M Z :=
  fun v => (Ok (priv_byteOffset v), with_cursor v (priv_byteOffset v + 1)).
Definition cursor_add (n : Z) : M unit :=
  fun v => (Ok tt, with_cursor v (priv_byteOffset v + n)).
Definition cursor_set (n : Z) : M unit :=
  fun v => (Ok tt, with_cursor v n).

(** ** DataView *)

(** ECMAScript's GetViewValue and SetViewValue: the index is checked
    against the view, then [size] bytes are read or written. *)
Definition GetViewValue (requestIndex : Z) (size : nat) : M (list Z) :=
  fun v =>
    if (requestIndex <? 0) || (byteLength v <? requestIndex + Z.of_nat size)
    then (Throw RangeError_bounds, v)
    else (Ok (slice (Z.to_nat (super_byteOffset v + requestIndex)) size
                (buffer v)), v).

Definition SetViewValue (requestIndex : Z) (bs : list Z) : M unit :=
  fun v =>
    if (requestIndex <? 0)
       || (byteLength v <? requestIndex + Z.of_nat (length bs))
    then (Throw RangeError_bounds, v)
    else (Ok tt,
          with_buffer v
            (store (Z.to_nat (super_byteOffset v + requestIndex)) bs
               (buffer v))).

Module DataView.

Definition getUint (size : nat) (byteOffset : Z) (littleEndian : bool)
  : M Z :=
  bs <- GetViewValue byteOffset size ;;
  ret (RawBytesToNumeric bs littleEndian).

Definition getInt (size : nat) (byteOffset : Z) (littleEndian : bool)
  : M Z :=
  u <- getUint size byteOffset littleEndian ;;
  ret (signed (8 * Z.of_nat size) u).

(** Integer setters wrap the value modulo [2^(8*size)]. *)
Definition setInt (size : nat) (byteOffset value : Z) (littleEndian : bool)
  : M unit :=
  SetViewValue byteOffset (NumericToRawBytes size value littleEndian).

End DataView.

(** ** Fixed-width methods *)

(** *** Bool *)

Definition getInt8 (byteOffset : Z) : M Z :=
  DataView.getInt 1 byteOffset false.

Definition setInt8 (byteOffset value : Z) : M unit :=
  DataView.setInt 1 byteOffset value false.

Definition getBool (byteOffset : Z) : M bool :=
  x <- getInt8 byteOffset ;; ret (negb (x =? 0)).

Definition readBool : M bool :=
  off <- cursor_post_incr ;;
  x <- getInt8 off ;;
  ret (negb (x =? 0)).

Definition setBool (byteOffset : Z) (value : bool) : M unit :=
  DataView.setInt 1 byteOffset (if value then 1 else 0) false.

Definition writeBool (value : bool) : M unit :=
  off <- cursor_post_incr ;;
  setInt8 off (if value then 1 else 0).

(** *** Int8, Uint8 *)

Definition readInt8 : M Z :=
  off <- cursor_post_incr ;; getInt8 off.

Definition writeInt8 (value : Z) : M unit :=
  off <- cursor_post_incr ;; setInt8 off value.

Definition getUint8 (byteOffset : Z) : M Z :=
  DataView.getUint 1 byteOffset false.

Definition readUint8 : M Z :=
  off <- cursor_post_incr ;; getUint8 off.

Definition setUint8 (byteOffset value : Z) : M unit :=
  DataView.setInt 1 byteOffset value false.

Definition writeUint8 (value : Z) : M unit :=
  off <- cursor_post_incr ;; setUint8 off value.

(** *** The multi-byte shape

    Every multi-byte [read] is [const value = this.get(this.#byteOffset, ..);
    this.#byteOffset += W; return value], and every [write] is
    [this.set(this.#byteOffset, ..); this.#byteOffset += W]. *)

Definition read_then_advance {A} (get : Z -> M A) (W : Z) : M A :=
  off <- cursor ;;
  value <- get off ;;
  cursor_add W ;;;
  ret value.

Definition write_then_advance (set : Z -> M unit) (W : Z) : M unit :=
  off <- cursor ;;
  set off ;;;
  cursor_add W.

(** *** Int16, Uint16 *)

Definition getInt16 (byteOffset : Z) (littleEndian : bool) : M Z :=
  DataView.getInt 2 byteOffset littleEndian.
Definition readInt16 (littleEndian : bool) : M Z :=
  read_then_advance (fun off => getInt16 off littleEndian) 2.
Definition setInt16 (byteOffset value : Z) (littleEndian : bool) : M unit :=
  DataView.setInt 2 byteOffset value littleEndian.
Definition writeInt16 (value : Z) (littleEndian : bool) : M unit :=
  write_then_advance (fun off => setInt16 off value littleEndian) 2.

Definition getUint16 (byteOffset : Z) (littleEndian : bool) : M Z :=
  DataView.getUint 2 byteOffset littleEndian.
Definition readUint16 (littleEndian : bool) : M Z :=
  read_then_advance (fun off => getUint16 off littleEndian) 2.
Definition setUint16 (byteOffset value : Z) (littleEndian : bool) : M unit :=
  DataView.setInt 2 byteOffset value littleEndian.
Definition writeUint16 (value : Z) (littleEndian : bool) : M unit :=
  write_then_advance (fun off => setUint16 off value littleEndian) 2.

(** *** Int32, Uint32 *)

Definition getInt32 (byteOffset : Z) (littleEndian : bool) : M Z :=
  DataView.getInt 4 byteOffset littleEndian.
Definition readInt32 (littleEndian : bool) : M Z :=
  read_then_advance (fun off => getInt32 off littleEndian) 4.
Definition setInt32 (byteOffset value : Z) (littleEndian : bool) : M unit :=
  DataView.setInt 4 byteOffset value littleEndian.
Definition writeInt32 (value : Z) (littleEndian : bool) : M unit :=
  write_then_advance (fun off => setInt32 off value littleEndian) 4.

Definition getUint32 (byteOffset : Z) (littleEndian : bool) : M Z :=
  DataView.getUint 4 byteOffset littleEndian.
Definition readUint32 (littleEndian : bool) : M Z :=
  read_then_advance (fun off => getUint32 off littleEndian) 4.
Definition setUint32 (byteOffset value : Z) (littleEndian : bool) : M unit :=
  DataView.setInt 4 byteOffset value littleEndian.
Definition writeUint32 (value : Z) (littleEndian : bool) : M unit :=
  write_then_advance (fun off => setUint32 off value littleEndian) 4.

(** *** Float32, Float64

    A float travels as its IEEE-754 bit pattern: the conversion between a
    number and its pattern is the platform's, and the statements below are
    about which bytes are touched and where the cursor goes. *)

Definition getFloat32 (byteOffset : Z) (littleEndian : bool) : M Z :=
  DataView.getUint 4 byteOffset littleEndian.
Definition readFloat32 (littleEndian : bool) : M Z :=
  read_then_advance (fun off => getFloat32 off littleEndian) 4.
Definition setFloat32 (byteOffset bits : Z) (littleEndian : bool) : M unit :=
  DataView.setInt 4 byteOffset bits littleEndian.
Definition writeFloat32 (bits : Z) (littleEndian : bool) : M unit :=
  write_then_advance (fun off => setFloat32 off bits littleEndian) 4.

Definition getFloat64 (byteOffset : Z) (littleEndian : bool) : M Z :=
  DataView.getUint 8 byteOffset littleEndian.
Definition readFloat64 (littleEndian : bool) : M Z :=
  read_then_advance (fun off => getFloat64 off littleEndian) 8.
Definition setFloat64 (byteOffset bits : Z) (littleEndian : bool) : M unit :=
  DataView.setInt 8 byteOffset bits littleEndian.
Definition writeFloat64 (bits : Z) (littleEndian : bool) : M unit :=
  write_then_advance (fun off => setFloat64 off bits littleEndian) 8.

(** *** BigInt64, BigUint64: the value is a [bigint], here a [Z] *)

Definition getBigInt64 (byteOffset : Z) (littleEndian : bool) : M Z :=
  DataView.getInt 8 byteOffset littleEndian.
Definition readBigInt64 (littleEndian : bool) : M Z :=
  read_then_advance (fun off => getBigInt64 off littleEndian) 8.
Definition setBigInt64 (byteOffset value : Z) (littleEndian : bool)
  : M unit :=
  DataView.setInt 8 byteOffset value littleEndian.
Definition writeBigInt64 (value : Z) (littleEndian : bool) : M unit :=
  write_then_advance (fun off => setBigInt64 off value littleEndian) 8.

Definition getBigUint64 (byteOffset : Z) (littleEndian : bool) : M Z :=
  DataView.getUint 8 byteOffset littleEndian.
Definition readBigUint64 (littleEndian : bool) : M Z :=
  read_then_advance (fun off => getBigUint64 off littleEndian) 8.
Definition setBigUint64 (byteOffset value : Z) (littleEndian : bool)
  : M unit :=
  DataView.setInt 8 byteOffset value littleEndian.
Definition writeBigUint64 (value : Z) (littleEndian : bool) : M unit :=
  write_then_advance (fun off => setBigUint64 off value littleEndian) 8.

(** *** Int64, Uint64: the value is a [number], a double

    A [number] that enters [BigInt(..)] is either an integer, converted
    exactly, or not an integer, and then [BigInt] throws.  [Number(..)] of a
    [bigint] is the nearest double, ties to even: an integer again. *)

Inductive number : Type :=
| Integer (z : Z)      (* a double whose value is the integer z *)
| NotInteger.          (* a fraction, NaN or an infinity *)

Definition BigInt (value : number) : M Z :=
  match value with
  | Integer z => ret z
  | NotInteger => throw RangeError_BigInt
  end.

(** Rounding of an integer to 53 significant bits, ties to even. *)
Definition Number (z : Z) : Z :=
  let a := Z.abs z in
  let n := Z.log2 a in
  if n <? 53 then z
  else
    let sh := n - 52 in
    let q := Z.shiftr a sh in
    let r := a mod 2 ^ sh in
    let half := 2 ^ (sh - 1) in
    let q' := if (half <? r) || ((r =? half) && Z.odd q) then q + 1 else q in
    Z.sgn z * (q' * 2 ^ sh).


Definition getInt64 (byteOffset : Z) (littleEndian : bool) : M Z :=
  x <- getBigInt64 byteOffset littleEndian ;; ret (Number x).
Definition readInt64 (littleEndian : bool) : M Z :=
  read_then_advance (fun off => getInt64 off littleEndian) 8.
Definition setInt64 (byteOffset : Z) (value : number) (littleEndian : bool)
  : M unit :=
  x <- BigInt value ;; setBigInt64 byteOffset x littleEndian.
Definition writeInt64 (value : number) (littleEndian : bool) : M unit :=
  write_then_advance (fun off => setInt64 off value littleEndian) 8.

Definition getUint64 (byteOffset : Z) (littleEndian : bool) : M Z :=
  x <- getBigUint64 byteOffset littleEndian ;; ret (Number x).
Definition readUint64 (littleEndian : bool) : M Z :=
  read_then_advance (fun off => getUint64 off littleEndian) 8.
Definition setUint64 (byteOffset : Z) (value : number) (littleEndian : bool)
  : M unit :=
  x <- BigInt value ;; setBigUint64 byteOffset x littleEndian.
Definition writeUint64 (value : number) (littleEndian : bool) : M unit :=
  write_then_advance (fun off => setUint64 off value littleEndian) 8.

(** ** Construction and the cursor *)

(** A [BufferSource]: an [ArrayBuffer], or a view on one (a typed array or a
    [DataView]) with its own offset and length. *)
Inductive BufferSource : Type :=
| ArrayBuffer (bytes : list Z)
| ArrayBufferView (bytes : list Z) (byteOffset byteLength : Z).

Definition source_buffer (source : BufferSource) : list Z :=
  match source with
  | ArrayBuffer bytes => bytes
  | ArrayBufferView bytes _ _ => bytes
  end.

Definition source_byteLength (source : BufferSource) : Z :=
  match source with
  | ArrayBuffer bytes => Z.of_nat (length bytes)
  | ArrayBufferView _ _ byteLength => byteLength
  end.

(** [new ByteBuf(buffer, byteOffset, byteLength)]: the [DataView]
    constructor checks the range, then the field initialiser
    [#byteOffset = super.byteOffset] runs. *)
Definition new_ByteBuf (bytes : list Z) (byteOffset byteLength : option Z)
  : result ByteBuf :=
  let offset := default 0 byteOffset in
  let bufferByteLength := Z.of_nat (length bytes) in
  if (offset <? 0) || (bufferByteLength <? offset) then Throw RangeError_bounds
  else
    match byteLength with
    | None =>
        Ok {| buffer := bytes;
              super_byteOffset := offset;
              byteLength := bufferByteLength - offset;
              priv_byteOffset := offset |}
    | Some viewByteLength =>
        if (viewByteLength <? 0)
           || (bufferByteLength <? offset + viewByteLength)
        then Throw RangeError_bounds
        else
          Ok {| buffer := bytes;
                super_byteOffset := offset;
                byteLength := viewByteLength;
                priv_byteOffset := offset |}
    end.

(** [static from(source, byteOffset?, byteLength?)] *)
Definition from (source : BufferSource) (byteOffset byteLength : option Z)
  : result ByteBuf :=
  let buffer := source_buffer source in
  let byteOffset :=
    match source with
    | ArrayBufferView _ sourceOffset _ =>
        Some (sourceOffset + JS.number_or byteOffset 0)
    | ArrayBuffer _ => byteOffset
    end in
  match byteLength with
  | None => new_ByteBuf buffer byteOffset None
  | Some byteLength =>
      new_ByteBuf buffer byteOffset
        (Some (Z.min (source_byteLength source) byteLength))
  end.

(** [get byteOffset()], [get bytesRemaining()], [skip], [reset] *)
Definition byteOffset (v : ByteBuf) : Z := priv_byteOffset v.

Definition bytesRemaining (v : ByteBuf) : Z :=
  byteLength v - priv_byteOffset v.

Definition skip (byteLength : Z) : M unit := cursor_add byteLength.

Definition reset : M unit :=
  fun v => (Ok tt, with_cursor v (super_byteOffset v)).

(** ** Variable-length integers *)

Module IntResult.
Record t : Type := { value : Z; byteLength : Z }.
End IntResult.

(** The loop of [getVarInt] runs while [byteLength < maxByteLength] with
    [byteLength] counting up from 0: [n] is the number of turns left. *)
Fixpoint getVarInt_loop (n : nat)
    (byteOffset maxByteLength value byteLength bitShift : Z)
  : M IntResult.t :=
  match n with
  | O => throw (RangeError_VarInt maxByteLength)
  | S n' =>
      byte <- getUint8 (byteOffset + byteLength) ;;
      let byteLength := byteLength + 1 in
      let value := JS.or value (JS.shl (JS.and byte 127) bitShift) in
      if JS.and byte 128 =? 0
      then ret {| IntResult.value := value;
                  IntResult.byteLength := byteLength |}
      else getVarInt_loop n' byteOffset maxByteLength value byteLength
             (bitShift + 7)
  end.

Definition getVarInt (byteOffset : Z) (maxByteLength : option Z)
  : M IntResult.t :=
  let maxByteLength := default 10 maxByteLength in
  getVarInt_loop (Z.to_nat maxByteLength) byteOffset maxByteLength 0 0 0.

Definition readVarInt (maxByteLength : option Z) : M Z :=
  off <- cursor ;;
  r <- getVarInt off maxByteLength ;;
  cursor_add (IntResult.byteLength r) ;;;
  ret (IntResult.value r).

(** The loop of [setVarInt] runs for [byteLength] from 1 to [maxByteLength]:
    [n] is the number of turns left. *)
Fixpoint setVarInt_loop (n : nat)
    (byteOffset value maxByteLength byteLength : Z) : M Z :=
  match n with
  | O => throw (RangeError_VarInt maxByteLength)
  | S n' =>
      let byte := JS.and value 127 in
      let value := JS.shr value 7 in
      let byte := if negb (value =? 0) then JS.or byte 128 else byte in
      setUint8 byteOffset byte ;;;
      if value =? 0 then ret byteLength
      else setVarInt_loop n' (byteOffset + 1) value maxByteLength
             (byteLength + 1)
  end.

Definition setVarInt (byteOffset value : Z) (maxByteLength : option Z)
  : M Z :=
  let maxByteLength := default 10 maxByteLength in
  setVarInt_loop (Z.to_nat maxByteLength) byteOffset value maxByteLength 1.

Definition writeVarInt (value : Z) (maxByteLength : option Z) : M unit :=
  off <- cursor ;;
  byteLength <- setVarInt off value maxByteLength ;;
  cursor_add byteLength.

Definition getVarUint (byteOffset : Z) (maxByteLength : option Z)
  : M IntResult.t :=
  r <- getVarInt byteOffset maxByteLength ;;
  ret {| IntResult.value := JS.shr (IntResult.value r) 0;
         IntResult.byteLength := IntResult.byteLength r |}.

Definition readVarUint (maxByteLength : option Z) : M Z :=
  off <- cursor ;;
  r <- getVarUint off maxByteLength ;;
  cursor_add (IntResult.byteLength r) ;;;
  ret (IntResult.value r).

Definition setVarUint (byteOffset value : Z) (maxByteLength : option Z)
  : M Z :=
  setVarInt byteOffset (JS.shr value 0) maxByteLength.

Definition writeVarUint (value : Z) (maxByteLength : option Z) : M unit :=
  off <- cursor ;;
  byteLength <- setVarUint off value maxByteLength ;;
  cursor_add byteLength.

Definition getVarZint (byteOffset : Z) (maxByteLength : option Z)
  : M IntResult.t :=
  r <- getVarInt byteOffset maxByteLength ;;
  let value := IntResult.value r in
  ret {| IntResult.value := JS.xor (JS.sar value 1) (- JS.and value 1);
         IntResult.byteLength := IntResult.byteLength r |}.

Definition readVarZint (maxByteLength : option Z) : M Z :=
  off <- cursor ;;
  r <- getVarZint off maxByteLength ;;
  cursor_add (IntResult.byteLength r) ;;;
  ret (IntResult.value r).

Definition setVarZint (byteOffset value : Z) (maxByteLength : option Z)
  : M Z :=
  setVarInt byteOffset (JS.xor (JS.sar value 31) (JS.shl value 1))
    maxByteLength.

Definition writeVarZint (value : Z) (maxByteLength : option Z) : M unit :=
  off <- cursor ;;
  byteLength <- setVarZint off value maxByteLength ;;
  cursor_add byteLength.

(** A fresh buffer of [n] zero bytes, and running a method on a view. *)
Definition zeros (n : nat) : list Z := repeat 0 n.

Definition run {A} (m : M A) (v : ByteBuf) : result A * ByteBuf := m v.

(** ** Typed-array views *)

(** A typed array made by [new Uint8Array(buffer, byteOffset, length)] or
    [new Uint16Array(..)] aliases the buffer: it is the pair of its start in
    the buffer and its byte length. *)
Module TypedArray.
Record t : Type := { byteOffset : Z; byteLength : Z }.
End TypedArray.

(** ECMAScript's construction of a typed array over a buffer: [length]
    counts elements of [elementSize] bytes; without it the array runs to the
    end of the buffer. *)
Definition new_TypedArray (elementSize : Z) (byteOffset : Z)
    (length : option Z) : M TypedArray.t :=
  fun v =>
    let bufferByteLength := Z.of_nat (List.length (buffer v)) in
    if (byteOffset <? 0) || negb (byteOffset mod elementSize =? 0)
    then (Throw RangeError_bounds, v)
    else
      match length with
      | None =>
          if negb (bufferByteLength mod elementSize =? 0)
             || (bufferByteLength - byteOffset <? 0)
          then (Throw RangeError_bounds, v)
          else (Ok {| TypedArray.byteOffset := byteOffset;
                      TypedArray.byteLength :=
                        bufferByteLength - byteOffset |}, v)
      | Some newLength =>
          if (newLength <? 0)
             || (bufferByteLength <? byteOffset + newLength * elementSize)
          then (Throw RangeError_bounds, v)
          else (Ok {| TypedArray.byteOffset := byteOffset;
                      TypedArray.byteLength := newLength * elementSize |}, v)
      end.

(** The bytes a typed array covers, and [array.set(source)] for a source of
    the same length. *)
Definition contents (a : TypedArray.t) : M (list Z) :=
  fun v =>
    (Ok (slice (Z.to_nat (TypedArray.byteOffset a))
           (Z.to_nat (TypedArray.byteLength a)) (buffer v)), v).

Definition TypedArray_set (a : TypedArray.t) (bs : list Z) : M unit :=
  fun v =>
    if TypedArray.byteLength a <? Z.of_nat (List.length bs)
    then (Throw RangeError_bounds, v)
    else (Ok tt,
          with_buffer v
            (store (Z.to_nat (TypedArray.byteOffset a)) bs (buffer v))).

Definition super_offset : M Z := fun v => (Ok (super_byteOffset v), v).
Definition this_byteLength : M Z := fun v => (Ok (byteLength v), v).

Definition getUint8Array (byteOffset : Z) (byteLength : option Z)
  : M TypedArray.t :=
  base <- super_offset ;;
  new_TypedArray 1 (base + byteOffset) byteLength.

Definition readUint8Array (byteLength : option Z) : M TypedArray.t :=
  off <- cursor ;;
  value <- getUint8Array off byteLength ;;
  cursor_add (TypedArray.byteLength value) ;;;
  ret value.

(** The argument [value] is given by the bytes it holds. *)
Definition setUint8Array (byteOffset : Z) (value : list Z) : M unit :=
  let byteLength := Z.of_nat (length value) in
  a <- getUint8Array byteOffset (Some byteLength) ;;
  TypedArray_set a value.

Definition writeUint8Array (value : list Z) : M unit :=
  off <- cursor ;;
  setUint8Array off value ;;;
  cursor_add (Z.of_nat (length value)).

(** [clear()] is [this.getUint8Array(0).fill(0)]. *)
Definition clear : M unit :=
  a <- getUint8Array 0 None ;;
  TypedArray_set a (zeros (Z.to_nat (TypedArray.byteLength a))).

Definition getUint16Array (byteOffset : Z) (byteLength : option Z)
  : M TypedArray.t :=
  let byteLength :=
    match byteLength with
    | Some n => Some (n / 2)
    | None => None
    end in
  base <- super_offset ;;
  new_TypedArray 2 (base + byteOffset) byteLength.

Definition readUint16Array (byteLength : option Z) : M TypedArray.t :=
  off <- cursor ;;
  value <- getUint16Array off byteLength ;;
  cursor_add (TypedArray.byteLength value) ;;;
  ret value.

(** The argument [value] is given by its 16-bit elements; the platform
    stores an element least significant byte first. *)
Definition setUint16Array (byteOffset : Z) (value : list Z) : M unit :=
  let byteLength := 2 * Z.of_nat (length value) in
  a <- getUint16Array byteOffset (Some byteLength) ;;
  TypedArray_set a (flat_map (le_bytes 2) value).

Definition writeUint16Array (value : list Z) : M unit :=
  off <- cursor ;;
  setUint16Array off value ;;;
  cursor_add (2 * Z.of_nat (length value)).

(** ** Strings *)

(** A JavaScript string is its sequence of UTF-16 code units. *)
Definition jsstring : Type := list Z.

Module UTF.

Definition is_lead (c : Z) : bool := (55296 <=? c) && (c <=? 56319).
Definition is_trail (c : Z) : bool := (56320 <=? c) && (c <=? 57343).

(** The scalar values of a string: a surrogate pair is one code point, a
    lone surrogate is replaced by U+FFFD. *)
Fixpoint scalar_values (s : jsstring) : list Z :=
  match s with
  | [] => []
  | c :: s' =>
      if is_lead c then
        match s' with
        | d :: s'' =>
            if is_trail d
            then (65536 + (c - 55296) * 1024 + (d - 56320))
                   :: scalar_values s''
            else 65533 :: scalar_values s'
        | [] => [65533]
        end
      else if is_trail c then 65533 :: scalar_values s'
      else c :: scalar_values s'
  end.

(** The code units of a sequence of scalar values. *)
Definition code_units (cps : list Z) : jsstring :=
  flat_map
    (fun cp =>
       if cp <? 65536 then [cp]
       else [55296 + (cp - 65536) / 1024; 56320 + (cp - 65536) mod 1024])
    cps.

(** UTF-8 of one scalar value. *)
Definition utf8 (cp : Z) : list Z :=
  if cp <? 128 then [cp]
  else if cp <? 2048 then [192 + cp / 64; 128 + cp mod 64]
  else if cp <? 65536 then
    [224 + cp / 4096; 128 + (cp / 64) mod 64; 128 + cp mod 64]
  else
    [240 + cp / 262144; 128 + (cp / 4096) mod 64;
     128 + (cp / 64) mod 64; 128 + cp mod 64].

(** [TextEncoder.encode]: the whole string. *)
Definition encode (s : jsstring) : list Z :=
  flat_map utf8 (scalar_values s).

(** [TextEncoder.encodeInto]: the code points that fit, in order, up to
    the first that does not. *)
Fixpoint fill (cps : list Z) (room : nat) : list Z :=
  match cps with
  | [] => []
  | cp :: rest =>
      let bs := utf8 cp in
      if (length bs <=? room)%nat
      then bs ++ fill rest (room - length bs)%nat
      else []
  end.

End UTF.

(** [encoder.encodeInto(value, destination)], returning [written]. *)
Definition encodeInto (value : jsstring) (destination : TypedArray.t)
  : M Z :=
  let bs := UTF.fill (UTF.scalar_values value)
              (Z.to_nat (TypedArray.byteLength destination)) in
  TypedArray_set destination bs ;;;
  ret (Z.of_nat (length bs)).

Module StringResult.
Record t : Type := { value : jsstring; byteLength : Z }.
End StringResult.

Section Strings.

(** The platform's [TextDecoder]: the decoder a label names, if any. *)
Variable TextDecoder : string -> option (list Z -> jsstring).

Definition new_TextDecoder (label : string) : M (list Z -> jsstring) :=
  match TextDecoder label with
  | Some decode => ret decode
  | None => throw (RangeError_label label)
  end.

Definition getString (byteOffset : Z) (byteLength : option Z)
    (byteEncoding : option string) : M jsstring :=
  decode <- new_TextDecoder (JS.string_or byteEncoding "utf-8") ;;
  encoded <- getUint8Array byteOffset byteLength ;;
  bs <- contents encoded ;;
  ret (decode bs).

Definition readString (byteLength : option Z)
    (byteEncoding : option string) : M jsstring :=
  off <- cursor ;;
  value <- getString off byteLength byteEncoding ;;
  match byteLength with
  | None => n <- this_byteLength ;; cursor_set n
  | Some n => cursor_add n
  end ;;;
  ret value.

Definition setString (byteOffset : Z) (value : jsstring)
    (byteEncoding : option string) : M Z :=
  match byteEncoding with
  | Some (String a s) =>
      if negb (String.eqb (String a s) "utf-8")
      then throw (TypeError_encoding (String a s))
      else ret tt
  | _ => ret tt
  end ;;;
  total <- this_byteLength ;;
  let byteLength := Z.min (total - byteOffset)
                      (Z.of_nat (length value) * 4) in
  destination <- getUint8Array byteOffset (Some byteLength) ;;
  written <- encodeInto value destination ;;
  ret (JS.number_or (Some written) 0).

Definition writeString (value : jsstring) (byteEncoding : option string)
  : M unit :=
  off <- cursor ;;
  byteLength <- setString off value byteEncoding ;;
  cursor_add byteLength.

Definition getVarString (byteOffset : Z) (maxByteLength : option Z)
  : M StringResult.t :=
  r <- getVarUint byteOffset None ;;
  let byteLength := IntResult.value r in
  let delimeterOffset := IntResult.byteLength r in
  match maxByteLength with
  | Some m =>
      if m <? byteLength then throw (RangeError_VarString m) else ret tt
  | None => ret tt
  end ;;;
  value <- getString (byteOffset + delimeterOffset) (Some byteLength) None ;;
  ret {| StringResult.value := value;
         StringResult.byteLength := byteLength + delimeterOffset |}.

Definition readVarString (maxByteLength : option Z) : M jsstring :=
  off <- cursor ;;
  r <- getVarString off maxByteLength ;;
  cursor_add (StringResult.byteLength r) ;;;
  ret (StringResult.value r).

End Strings.

Definition setVarString (byteOffset : Z) (value : jsstring) : M Z :=
  let encoded := UTF.encode value in
  let byteLength := Z.of_nat (length encoded) in
  delimeterOffset <- setVarInt byteOffset byteLength None ;;
  setUint8Array (byteOffset + delimeterOffset) encoded ;;;
  ret (delimeterOffset + byteLength).

Definition writeVarString (value : jsstring) : M Z :=
  off <- cursor ;;
  byteLength <- setVarString off value ;;
  cursor_add byteLength ;;;
  ret byteLength.

(** ** Formatting *)

(** [Number.prototype.toString(radix)] on a non-negative integer: its
    digits in the radix, most significant first, with lower-case letters
    from ten on. *)
Definition digit (d : Z) : ascii :=
  match String.get (Z.to_nat d) "0123456789abcdefghijklmnopqrstuvwxyz" with
  | Some a => a
  | None => "0"%char
  end.

Fixpoint digits (fuel : nat) (radix n : Z) (acc : string) : string :=
  match fuel with
  | O => acc
  | S fuel' =>
      let acc := String (digit (n mod radix)) acc in
      if n / radix =? 0 then acc else digits fuel' radix (n / radix) acc
  end.

Definition Number_toString (n radix : Z) : string :=
  digits (S (Z.to_nat (Z.log2 n))) radix n EmptyString.

(** [s.slice(-k)]: the last [k] characters of [s]. *)
Definition String_slice_from_end (k : nat) (s : string) : string :=
  substring (String.length s - k) k s.

(** [toString(format)] maps the callback over [this.getUint8Array(0)] and
    joins the results with a space; [switch (format)] compares with
    ["hex"] strictly. *)
Definition toString (format : option string) : M string :=
  a <- getUint8Array 0 None ;;
  bs <- contents a ;;
  ret (String.concat " "
         (map (fun byte =>
                 match format with
                 | Some f =>
                     if String.eqb f "hex"
                     then String_slice_from_end 2
                            ("00" ++ Number_toString byte 16)
                     else Number_toString byte 10
                 | None => Number_toString byte 10
                 end) bs)).

(** ** A platform decoder

    The decoders of the Encoding Standard for UTF-8 and UTF-16LE, with the
    labels the standard gives them: a label is matched after trimming ASCII
    white space and lowering ASCII letters; malformed input yields U+FFFD;
    a leading byte-order mark is dropped.

    The table holds these two encodings, the ones the class documents for
    its strings; a platform knows the labels of further encodings.  The
    statements about labels are therefore made for any table, and this one
    is only evaluated at labels of UTF-8 and UTF-16LE. *)
Module Encoding.

Definition lower (a : ascii) : ascii :=
  let n := nat_of_ascii a in
  if ((65 <=? n) && (n <=? 90))%nat then ascii_of_nat (n + 32) else a.

Definition is_space (a : ascii) : bool :=
  let n := nat_of_ascii a in
  ((n =? 9) || (n =? 10) || (n =? 12) || (n =? 13) || (n =? 32))%nat.

Fixpoint trim_left (s : string) : string :=
  match s with
  | String a s' => if is_space a then trim_left s' else s
  | EmptyString => s
  end.

(** Lowers the letters and drops the white space that ends the string. *)
Fixpoint lower_trim_right (s : string) : string :=
  match s with
  | EmptyString => EmptyString
  | String a s' =>
      match lower_trim_right s' with
      | EmptyString =>
          if is_space a then EmptyString else String (lower a) EmptyString
      | t => String (lower a) t
      end
  end.

Definition normalise (label : string) : string :=
  lower_trim_right (trim_left label).

Definition utf8_labels : list string :=
  ["unicode-1-1-utf-8"; "unicode11utf8"; "unicode20utf8"; "utf-8"; "utf8";
   "x-unicode20utf8"]%string.

Definition utf16le_labels : list string :=
  ["csunicode"; "iso-10646-ucs-2"; "ucs-2"; "unicode"; "unicodefeff";
   "utf-16"; "utf-16le"]%string.

Definition known (labels : list string) (label : string) : bool :=
  existsb (String.eqb label) labels.

(** The UTF-8 decoder: [cp] is the code point under construction, [needed]
    the number of continuation bytes still due, [lower]..[upper] the range
    allowed for the next one. *)
Definition utf8_first (b : Z) : list Z * (Z * Z * Z * Z) :=
  if b <=? 127 then ([b], (0, 0, 128, 191))
  else if (194 <=? b) && (b <=? 223) then ([], (b - 192, 1, 128, 191))
  else if (224 <=? b) && (b <=? 239) then
    ([], (b - 224, 2,
          if b =? 224 then 160 else 128, if b =? 237 then 159 else 191))
  else if (240 <=? b) && (b <=? 244) then
    ([], (b - 240, 3,
          if b =? 240 then 144 else 128, if b =? 244 then 143 else 191))
  else ([65533], (0, 0, 128, 191)).

Fixpoint utf8_run (bs : list Z) (cp needed lower upper : Z) : list Z :=
  match bs with
  | [] => if needed =? 0 then [] else [65533]
  | b :: bs' =>
      if needed =? 0 then
        let '(out, (cp', needed', lower', upper')) := utf8_first b in
        out ++ utf8_run bs' cp' needed' lower' upper'
      else if (b <? lower) || (upper <? b) then
        let '(out, (cp', needed', lower', upper')) := utf8_first b in
        65533 :: out ++ utf8_run bs' cp' needed' lower' upper'
      else
        let cp' := cp * 64 + (b - 128) in
        if needed =? 1 then cp' :: utf8_run bs' 0 0 128 191
        else utf8_run bs' cp' (needed - 1) 128 191
  end.

Definition utf8_decode (bs : list Z) : jsstring :=
  let bs :=
    match bs with
    | 239 :: 187 :: 191 :: rest => rest
    | _ => bs
    end in
  UTF.code_units (utf8_run bs 0 0 128 191).

(** The UTF-16LE decoder: the code units, and whether a byte is left
    over. *)
Fixpoint utf16le_units (bs : list Z) : list Z * bool :=
  match bs with
  | lo :: hi :: rest =>
      let '(us, odd) := utf16le_units rest in ((lo + 256 * hi) :: us, odd)
  | [_] => ([], true)
  | [] => ([], false)
  end.

Fixpoint utf16_run (us : list Z) (odd : bool) : list Z :=
  match us with
  | [] => if odd then [65533] else []
  | c :: rest =>
      if UTF.is_lead c then
        match rest with
        | d :: rest' =>
            if UTF.is_trail d
            then (65536 + (c - 55296) * 1024 + (d - 56320))
                   :: utf16_run rest' odd
            else 65533 :: utf16_run rest odd
        | [] => [65533]
        end
      else if UTF.is_trail c then 65533 :: utf16_run rest odd
      else c :: utf16_run rest odd
  end.

Definition utf16le_decode (bs : list Z) : jsstring :=
  let bs :=
    match bs with
    | 255 :: 254 :: rest => rest
    | _ => bs
    end in
  let '(us, odd) := utf16le_units bs in
  UTF.code_units (utf16_run us odd).

Definition TextDecoder (label : string) : option (list Z -> jsstring) :=
  let name := normalise label in
  if known utf8_labels name then Some utf8_decode
  else if known utf16le_labels name then Some utf16le_decode
  else None.

End Encoding.

(** * The vocabulary of the statements *)

(** ** Predicates on views and methods *)

(** The boolean form of [wf]. *)
Definition wfb (v : ByteBuf) : bool :=
  (0 <=? super_byteOffset v) && (0 <=? byteLength v)
  && (super_byteOffset v + byteLength v <=? Z.of_nat (length (buffer v)))
  && forallb (fun b => (0 <=? b) && (b <? 256)) (buffer v).

(** Whether a label names UTF-8: trimmed and lower-cased as the Encoding
    Standard prescribes, it is one of the labels the standard lists for
    UTF-8. *)
Definition names_utf8 (label : string) : bool :=
  Encoding.known Encoding.utf8_labels (Encoding.normalise label).

(** A [W]-byte access at the cursor lies outside the view. *)
Definition out_of_range (v : ByteBuf) (W : Z) : Prop :=
  priv_byteOffset v < 0 \/ byteLength v < priv_byteOffset v + W.

(** [keeps_cursor m]: whether [m] returns or throws, the cursor is where it
    was. *)
Definition keeps_cursor {A} (m : M A) : Prop :=
  forall v, priv_byteOffset (snd (m v)) = priv_byteOffset v.

(** [advances_by m W]: when [m] returns, the cursor has moved by [W]. *)
Definition advances_by {A} (m : M A) (W : Z) : Prop :=
  forall v x v', m v = (Ok x, v') ->
  priv_byteOffset v' = priv_byteOffset v + W.

(** [advances_as m op len]: when [m] returns, the positional method [op] has
    run at the cursor and the cursor has moved by the length [len] of what
    [op] returned. *)
Definition advances_as {A B} (m : M B) (op : Z -> M A) (len : A -> Z)
  : Prop :=
  forall v x v', m v = (Ok x, v') ->
  exists r v1, op (priv_byteOffset v) v = (Ok r, v1) /\
               priv_byteOffset v' = priv_byteOffset v + len r.

(** ** The specification's words *)

(** The values and bytes the specification lists for [setVarInt]. *)
Definition documented_varints : list (Z * list Z) :=
  [(0, [0]); (127, [127]); (255, [255; 1]);
   (2147483647, [255; 255; 255; 255; 7])].

(** The encoding in the specification's words: little-endian base-128
    groups, seven value bits in the low bits of each byte, the high bit set
    when more bytes follow. *)
Fixpoint spec_base128_groups (n : nat) (value : Z) : list Z :=
  match n with
  | O => []
  | S n' =>
      if value / 128 =? 0 then [value mod 128]
      else (128 + value mod 128) :: spec_base128_groups n' (value / 128)
  end.

(** The length the specification gives the view built by [from]: the
    smaller of the length asked for and what the source has left after the
    offset, or all that is left when no length is given. *)
Definition spec_from_byteLength (source : BufferSource)
    (byteOffset byteLength : option Z) : Z :=
  let remaining := source_byteLength source - default 0 byteOffset in
  match byteLength with
  | Some n => Z.min n remaining
  | None => remaining
  end.

(** ** The variable-length loops, apart from the view

    [encode_groups] lists the bytes the loop of [setVarInt] hands to
    [setUint8]; [decode_groups] runs the loop of [getVarInt] on a byte
    sequence; [zigzag] and [unzigzag] are the expressions [setVarZint] and
    [getVarZint] apply to the value. *)

Fixpoint encode_groups (n : nat) (value : Z) : option (list Z) :=
  match n with
  | O => None
  | S n' =>
      let byte := JS.and value 127 in
      let value := JS.shr value 7 in
      let byte := if negb (value =? 0) then JS.or byte 128 else byte in
      if value =? 0 then Some [byte mod 256]
      else option_map (cons (byte mod 256)) (encode_groups n' value)
  end.

Fixpoint decode_groups (n : nat) (bs : list Z) (value byteLength bitShift : Z)
  : option IntResult.t :=
  match n, bs with
  | S n', byte :: bs' =>
      let byteLength := byteLength + 1 in
      let value := JS.or value (JS.shl (JS.and byte 127) bitShift) in
      if JS.and byte 128 =? 0
      then Some {| IntResult.value := value;
                   IntResult.byteLength := byteLength |}
      else decode_groups n' bs' value byteLength (bitShift + 7)
  | _, _ => None
  end.

Definition zigzag (n : Z) : Z := JS.xor (JS.sar n 31) (JS.shl n 1).

Definition unzigzag (value : Z) : Z :=
  JS.xor (JS.sar value 1) (- JS.and value 1).

(** ** Views and sources of the examples *)

(** [n] zero bytes, viewed whole: [ByteBuf.from(new ArrayBuffer(n))]. *)
Definition view_zeros (n : nat) : ByteBuf :=
  {| buffer := zeros n; super_byteOffset := 0; byteLength := Z.of_nat n;
     priv_byteOffset := 0 |}.

(** Eight zero bytes, viewed whole. *)
Definition view_8 : ByteBuf :=
  {| buffer := zeros 8; super_byteOffset := 0; byteLength := 8;
     priv_byteOffset := 0 |}.

(** The last five bytes of an eight-byte buffer. *)
Definition view_3_5 : ByteBuf :=
  {| buffer := zeros 8; super_byteOffset := 3; byteLength := 5;
     priv_byteOffset := 0 |}.

(** Ten bytes, each with its continuation bit set. *)
Definition view_all_continue : ByteBuf :=
  {| buffer := repeat 128 10; super_byteOffset := 0; byteLength := 10;
     priv_byteOffset := 0 |}.

(** Four bytes, with the cursor at the end. *)
Definition view_at_end : ByteBuf :=
  {| buffer := zeros 4; super_byteOffset := 0; byteLength := 4;
     priv_byteOffset := 4 |}.

(** A typed array on the last four bytes of an eight-byte buffer, and the
    view [from] builds on it. *)
Definition source_4_4 : BufferSource :=
  ArrayBufferView [10; 11; 12; 13; 14; 15; 16; 17] 4 4.

Definition view_4_4 : ByteBuf :=
  {| buffer := [10; 11; 12; 13; 14; 15; 16; 17];
     super_byteOffset := 4; byteLength := 4; priv_byteOffset := 4 |}.

(** The first two bytes of the four-byte buffer "abcd". *)
Definition view_0_2 : ByteBuf :=
  {| buffer := [97; 98; 99; 100]; super_byteOffset := 0; byteLength := 2;
     priv_byteOffset := 0 |}.

(** The four bytes of "Hi" in UTF-16LE. *)
Definition view_Hi_utf16 : ByteBuf :=
  {| buffer := [72; 0; 105; 0]; super_byteOffset := 0; byteLength := 4;
     priv_byteOffset := 0 |}.

(** ** Further vocabulary: what a method reads, writes and keeps *)

(** [reads_only m]: whether [m] returns or throws, the object is as it
    was. *)
Definition reads_only {A} (m : M A) : Prop := forall v, snd (m v) = v.

(** [fails_clean m]: when [m] throws, the object is as it was. *)
Definition fails_clean {A} (m : M A) : Prop :=
  forall v e v', m v = (Throw e, v') -> v' = v.

(** The object after the bytes [bs] are written at offset [off] of the
    view. *)
Definition written (v : ByteBuf) (off : Z) (bs : list Z) : ByteBuf :=
  with_buffer v
    (store (Z.to_nat (super_byteOffset v + off)) bs (buffer v)).

(** [set_then_get set get x v]: on [v], [set] returns, and [get] on the
    object it leaves returns [x]. *)
Definition set_then_get {A} (set : M unit) (get : M A) (x : A)
    (v : ByteBuf) : Prop :=
  exists v', set v = (Ok tt, v') /\ get v' = (Ok x, v').

(** A byte, and a UTF-16 code unit. *)
Definition is_byte (b : Z) : Prop := 0 <= b < 256.
Definition is_code_unit (c : Z) : Prop := 0 <= c < 65536.

(** [preserves_wf m]: whether [m] returns or throws, the view is still
    inside its buffer and the buffer still holds bytes. *)
Definition preserves_wf {A} (m : M A) : Prop :=
  forall v, wf v -> wf (snd (m v)).

(** [changes_only v v' off len]: from [v] to [v'] nothing has changed but,
    at most, the bytes [off, off+len) of the view. *)
Definition changes_only (v v' : ByteBuf) (off len : Z) : Prop :=
  super_byteOffset v' = super_byteOffset v /\
  byteLength v' = byteLength v /\
  priv_byteOffset v' = priv_byteOffset v /\
  length (buffer v') = length (buffer v) /\
  forall i : nat,
    Z.of_nat i < super_byteOffset v + off
    \/ super_byteOffset v + off + len <= Z.of_nat i ->
    buffer v' !! i = buffer v !! i.

(** [sets_only m off W]: whether [m] returns or throws, it has changed at
    most the bytes [off, off+W) of the view. *)
Definition sets_only {A} (m : M A) (off W : Z) : Prop :=
  forall v, wf v -> changes_only v (snd (m v)) off W.

(** [sets_what_it_returns m off]: when [m] returns the byte length [k], it
    has changed at most the bytes [off, off+k) of the view. *)
Definition sets_what_it_returns (m : M Z) (off : Z) : Prop :=
  forall v k v', wf v -> m v = (Ok k, v') -> changes_only v v' off k.

(** [returns m v]: on [v], the method [m] returns and does not throw. *)
Definition returns {A} (m : M A) (v : ByteBuf) : Prop :=
  exists x v', m v = (Ok x, v').

(** [W] bytes fit between the cursor and the end of the view. *)
Definition fits (v : ByteBuf) (W : Z) : Prop :=
  0 <= byteOffset v /\ W <= bytesRemaining v.

(** A six-byte buffer of non-zero bytes, viewed on its bytes 2 and 3. *)
Definition view_2_2 : ByteBuf :=
  {| buffer := [1; 2; 3; 4; 5; 6]; super_byteOffset := 2; byteLength := 2;
     priv_byteOffset := 0 |}.

(** The encodings [setString] accepts: none requested, the empty string, or
    the exact string "utf-8". *)
Definition requests_utf8 (byteEncoding : option string) : Prop :=
  byteEncoding = None \/ byteEncoding = Some EmptyString
  \/ byteEncoding = Some "utf-8"%string.

(** A byte as two hexadecimal digits, the high half first. *)
Definition hex_pair (b : Z) : string :=
  String (digit (b / 16)) (String (digit (b mod 16)) EmptyString).

(** A byte in decimal, without leading zeros. *)
Definition decimal (b : Z) : string :=
  if b <? 10 then String (digit b) EmptyString
  else if b <? 100 then
    String (digit (b / 10)) (String (digit (b mod 10)) EmptyString)
  else
    String (digit (b / 100))
      (String (digit ((b / 10) mod 10))
         (String (digit (b mod 10)) EmptyString)).

(** A string of code units in which every surrogate is half of a pair. *)
Fixpoint well_formed (s : jsstring) : bool :=
  match s with
  | [] => true
  | c :: s' =>
      (0 <=? c) && (c <? 65536)
      && (if UTF.is_lead c then
            match s' with
            | d :: s'' => UTF.is_trail d && well_formed s''
            | [] => false
            end
          else negb (UTF.is_trail c) && well_formed s')
  end.

(** A Unicode scalar value: a code point that is not a surrogate. *)
Definition is_scalar (cp : Z) : Prop :=
  0 <= cp < 1114112 /\ ~ (55296 <= cp <= 57343).

(** U+FEFF, the byte-order mark. *)
Definition BOM : Z := 65279.

(** * Properties *)

(** ** Byte sequences *)

Lemma length_store pos bs buf :
  (pos + length bs <= length buf)%nat ->
  length (store pos bs buf) = length buf.
Proof.
  intros H. unfold store.
  rewrite !length_app, length_take, length_drop. lia.
Qed.

Lemma slice_store pos bs buf :
  (pos + length bs <= length buf)%nat ->
  slice pos (length bs) (store pos bs buf) = bs.
Proof.
  intros H. unfold slice, store.
  rewrite drop_app_length' by (rewrite length_take; lia).
  apply take_app_length.
Qed.

Lemma store_store_adjacent pos a b buf :
  (pos + length a + length b <= length buf)%nat ->
  store (pos + length a) b (store pos a buf) = store pos (a ++ b) buf.
Proof.
  intros H. unfold store.
  assert (Hp : length (take pos buf) = pos) by (rewrite length_take; lia).
  rewrite (app_assoc (take pos buf) a).
  rewrite take_app_length' by (rewrite length_app; lia).
  rewrite <- !app_assoc. do 3 f_equal.
  rewrite app_assoc.
  rewrite drop_app_ge by (rewrite !length_app; lia).
  rewrite !length_app, Hp, drop_drop. f_equal. lia.
Qed.

Lemma store_nil pos buf : store pos [] buf = buf.
Proof.
  unfold store. cbn [length app]. rewrite Nat.add_0_r. apply take_drop.
Qed.

Lemma drop_cons_inv {A} (p : nat) (l : list A) x r :
  drop p l = x :: r -> l !! p = Some x /\ drop (S p) l = r.
Proof.
  revert l. induction p as [|p IH]; intros [|y l] H; cbn in *; try discriminate.
  - injection H as -> ->. split; [reflexivity | apply drop_0].
  - apply IH in H. exact H.
Qed.

Lemma slice_cons_inv p n buf b bs :
  slice p (S n) buf = b :: bs -> buf !! p = Some b /\ slice (S p) n buf = bs.
Proof.
  unfold slice. destruct (drop p buf) as [|x r] eqn:E; cbn; [discriminate|].
  intros H. injection H as -> <-.
  apply drop_cons_inv in E as [E1 E2]. rewrite E2. auto.
Qed.

Lemma slice_one p buf b : buf !! p = Some b -> slice p 1 buf = [b].
Proof.
  intros H. unfold slice. rewrite (drop_S _ _ _ H). cbn. now rewrite take_0.
Qed.

Lemma Forall_store (P : Z -> Prop) pos bs buf :
  Forall P buf -> Forall P bs -> Forall P (store pos bs buf).
Proof.
  intros Hbuf Hbs. unfold store.
  repeat apply Forall_app_2; auto using Forall_take, Forall_drop.
Qed.

Lemma slice_cons p n buf b :
  buf !! p = Some b -> slice p (S n) buf = b :: slice (S p) n buf.
Proof.
  intros H. unfold slice. rewrite (drop_S _ _ _ H). reflexivity.
Qed.

(** ** The monad *)

Lemma bind_Ok {A B} (m : M A) (k : A -> M B) v a v' :
  m v = (Ok a, v') -> bind m k v = k a v'.
Proof. intros H. unfold bind. now rewrite H. Qed.

Lemma bind_Throw {A B} (m : M A) (k : A -> M B) v e v' :
  m v = (Throw e, v') -> bind m k v = (Throw e, v').
Proof. intros H. unfold bind. now rewrite H. Qed.

(** ** One byte at a time *)

Lemma ToInt32_small z : - 2 ^ 31 <= z < 2 ^ 31 -> JS.ToInt32 z = z.
Proof.
  intros H. unfold JS.ToInt32. rewrite Z.mod_small; lia.
Qed.

Lemma getUint8_in_bounds off v b :
  0 <= super_byteOffset v -> 0 <= off -> off + 1 <= byteLength v ->
  buffer v !! Z.to_nat (super_byteOffset v + off) = Some b ->
  getUint8 off v = (Ok b, v).
Proof.
  intros Hbase H0 H1 Hb.
  unfold getUint8, DataView.getUint, bind, GetViewValue.
  destruct (off <? 0) eqn:E0; [lia|].
  destruct (byteLength v <? off + Z.of_nat 1) eqn:E1; [lia|]. cbn [orb].
  rewrite (slice_one _ _ _ Hb). reflexivity.
Qed.

Lemma setUint8_in_bounds off byte v :
  0 <= off -> off + 1 <= byteLength v ->
  setUint8 off byte v =
    (Ok tt, with_buffer v (store (Z.to_nat (super_byteOffset v + off))
                             [byte mod 256] (buffer v))).
Proof.
  intros H0 H1.
  unfold setUint8, DataView.setInt, SetViewValue, NumericToRawBytes.
  cbn [le_bytes rev app length].
  destruct (off <? 0) eqn:E0; [lia|].
  destruct (byteLength v <? off + Z.of_nat 1) eqn:E1; [lia|]. reflexivity.
Qed.

(** ** The variable-length loops, read off a byte sequence *)

Lemma setVarInt_loop_encode n : forall byteOffset value maxByteLength k v bs,
  encode_groups n value = Some bs ->
  0 <= super_byteOffset v -> 0 <= byteOffset ->
  byteOffset + Z.of_nat (length bs) <= byteLength v ->
  super_byteOffset v + byteLength v <= Z.of_nat (length (buffer v)) ->
  setVarInt_loop n byteOffset value maxByteLength k v =
    (Ok (k + Z.of_nat (length bs) - 1),
     with_buffer v (store (Z.to_nat (super_byteOffset v + byteOffset)) bs
                      (buffer v))).
Proof.
  induction n as [|n IH]; intros off value mx k v bs He Hb H0 H1 Hlen;
    [discriminate|].
  cbn [encode_groups] in He. cbn [setVarInt_loop].
  set (value' := JS.shr value 7) in *.
  set (byte := if negb (value' =? 0) then JS.or (JS.and value 127) 128
               else JS.and value 127) in *.
  destruct (value' =? 0) eqn:Ev.
  - injection He as <-. cbn [length] in *.
    erewrite bind_Ok by (apply setUint8_in_bounds; lia).
    unfold ret. do 2 f_equal. lia.
  - destruct (encode_groups n value') as [rest|] eqn:Er; [|discriminate].
    injection He as <-. cbn [length] in *.
    erewrite bind_Ok by (apply setUint8_in_bounds; lia).
    set (p := Z.to_nat (super_byteOffset v + off)).
    assert (Hp : (p + S (length rest) <= length (buffer v))%nat)
      by (unfold p; lia).
    rewrite (IH _ _ _ _ _ rest Er); cbn [with_buffer buffer super_byteOffset
                                          byteLength priv_byteOffset];
      try lia.
    + f_equal; [f_equal; lia|]. unfold with_buffer; cbn. f_equal.
      replace (Z.to_nat (super_byteOffset v + (off + 1)))
        with (p + length [(byte mod 256)%Z])%nat by (cbn [length]; lia).
      rewrite store_store_adjacent by (cbn [length]; lia). reflexivity.
    + rewrite length_store by (cbn [length]; lia). lia.
Qed.

Lemma getVarInt_loop_decode n : forall bs byteOffset maxByteLength value k
    bitShift v r,
  decode_groups n bs value k bitShift = Some r ->
  0 <= super_byteOffset v -> 0 <= byteOffset + k ->
  byteOffset + k + Z.of_nat (length bs) <= byteLength v ->
  bytes_at v (byteOffset + k) (Z.of_nat (length bs)) = bs ->
  getVarInt_loop n byteOffset maxByteLength value k bitShift v = (Ok r, v).
Proof.
  induction n as [|n IH]; intros bs off mx value k sh v r Hd Hb H0 H1 Hbs;
    [discriminate|].
  destruct bs as [|byte bs]; [discriminate|].
  cbn [decode_groups] in Hd. cbn [getVarInt_loop length] in *.
  unfold bytes_at in Hbs.
  replace (Z.to_nat (Z.of_nat (S (length bs)))) with (S (length bs)) in Hbs
    by lia.
  apply slice_cons_inv in Hbs as [Hbyte Hrest].
  erewrite bind_Ok by (apply getUint8_in_bounds; [lia..|exact Hbyte]).
  destruct (JS.and byte 128 =? 0).
  - injection Hd as <-. reflexivity.
  - apply (IH bs); try lia; [exact Hd|].
    unfold bytes_at.
    replace (Z.to_nat (super_byteOffset v + (off + (k + 1))))
      with (S (Z.to_nat (super_byteOffset v + (off + k)))) by lia.
    now replace (Z.to_nat (Z.of_nat (length bs))) with (length bs) by lia.
Qed.

(** ** Well-formed views *)

Lemma wfb_wf v : wfb v = true -> wf v.
Proof.
  unfold wfb, wf. rewrite !andb_true_iff, forallb_forall.
  intros [[[H1 H2] H3] H4]. repeat split; try lia.
  apply List.Forall_forall. intros b Hb. apply H4 in Hb. lia.
Qed.

(** What [from] builds is well formed when the source holds bytes. *)
Lemma new_ByteBuf_wf bytes byteOffset byteLength v :
  Forall (fun b => 0 <= b < 256) bytes ->
  new_ByteBuf bytes byteOffset byteLength = Ok v -> wf v.
Proof.
  intros Hb. unfold new_ByteBuf.
  destruct (_ || _) eqn:E1; [discriminate|].
  destruct byteLength as [n|].
  - destruct ((n <? 0) || _) eqn:E2; [discriminate|].
    intros Hv; injection Hv as Hv; subst v.
    unfold wf; cbn. repeat split; auto; lia.
  - intros Hv; injection Hv as Hv; subst v.
    unfold wf; cbn. repeat split; auto; lia.
Qed.

Lemma from_wf source byteOffset byteLength v :
  Forall (fun b => 0 <= b < 256) (source_buffer source) ->
  from source byteOffset byteLength = Ok v -> wf v.
Proof.
  intros Hb. unfold from. destruct byteLength; apply new_ByteBuf_wf; exact Hb.
Qed.

(** ** Arrays made without a length *)

(** Without a length, the typed array made by [getUint8Array] runs to the
    end of the buffer, wherever the view ends. *)
Lemma getUint8Array_to_buffer_end v byteOffset :
  0 <= super_byteOffset v + byteOffset <= Z.of_nat (length (buffer v)) ->
  getUint8Array byteOffset None v =
    (Ok {| TypedArray.byteOffset := super_byteOffset v + byteOffset;
           TypedArray.byteLength :=
             Z.of_nat (length (buffer v))
             - (super_byteOffset v + byteOffset) |}, v).
Proof.
  intros H. unfold getUint8Array, super_offset, bind, new_TypedArray.
  rewrite !Z.mod_1_r. cbn [Z.eqb negb orb].
  destruct (super_byteOffset v + byteOffset <? 0) eqn:E0; [lia|].
  destruct (Z.of_nat (length (buffer v))
            - (super_byteOffset v + byteOffset) <? 0) eqn:E1; [lia|].
  reflexivity.
Qed.

(** When the view ends where its buffer ends, the array made without a
    length covers the bytes from the offset to the end of the view. *)
Lemma getUint8Array_to_view_end v byteOffset :
  wf v -> 0 <= byteOffset <= byteLength v ->
  super_byteOffset v + byteLength v = Z.of_nat (length (buffer v)) ->
  getUint8Array byteOffset None v =
    (Ok {| TypedArray.byteOffset := super_byteOffset v + byteOffset;
           TypedArray.byteLength := byteLength v - byteOffset |}, v).
Proof.
  intros (Hb & Hl & Hf & _) H Hend.
  rewrite getUint8Array_to_buffer_end by lia. do 3 f_equal. lia.
Qed.

(** ** The fixtures of the test suite

    The embedding evaluated on entries of the repository's tests: the bytes
    written, and the value read back. *)

Lemma from_ArrayBuffer_zeros n :
  from (ArrayBuffer (zeros n)) None None = Ok (view_zeros n).
Proof.
  unfold from, new_ByteBuf, view_zeros. cbn [default source_buffer].
  destruct ((0 <? 0) || (Z.of_nat (length (zeros n)) <? 0)) eqn:E; [lia|].
  unfold zeros. rewrite repeat_length. do 2 f_equal. lia.
Qed.

Example fixture_Int16 :
  buffer (snd (setInt16 0 1501 true (view_zeros 2))) = [221; 5] /\
  buffer (snd (setInt16 0 1501 false (view_zeros 2))) = [5; 221] /\
  fst ((setInt16 0 (-2) false ;;; getInt16 0 false) (view_zeros 2))
    = Ok (-2).
Proof. repeat split; vm_compute; reflexivity. Qed.

Example fixture_Int64 :
  buffer (snd (setInt64 0 (Integer 9007199254740991) true (view_zeros 8)))
    = [255; 255; 255; 255; 255; 255; 31; 0] /\
  buffer (snd (setInt64 0 (Integer (-256)) true (view_zeros 8)))
    = [0; 255; 255; 255; 255; 255; 255; 255] /\
  fst ((setUint64 0 (Integer 4294967296) false ;;; getUint64 0 false)
         (view_zeros 8)) = Ok 4294967296.
Proof. repeat split; vm_compute; reflexivity. Qed.

Example fixture_VarInt :
  (setVarInt 0 2097151 None ;;; getVarInt 0 None) (view_zeros 3)
    = (Ok {| IntResult.value := 2097151; IntResult.byteLength := 3 |},
       with_buffer (view_zeros 3) [255; 255; 127]) /\
  (setVarInt 0 (-1) None ;;; getVarInt 0 None) (view_zeros 5)
    = (Ok {| IntResult.value := -1; IntResult.byteLength := 5 |},
       with_buffer (view_zeros 5) [255; 255; 255; 255; 15]) /\
  (setVarInt 0 (-2147483648) None ;;; getVarInt 0 None) (view_zeros 5)
    = (Ok {| IntResult.value := -2147483648; IntResult.byteLength := 5 |},
       with_buffer (view_zeros 5) [128; 128; 128; 128; 8]) /\
  (setVarUint 0 4294967295 None ;;; getVarUint 0 None) (view_zeros 5)
    = (Ok {| IntResult.value := 4294967295; IntResult.byteLength := 5 |},
       with_buffer (view_zeros 5) [255; 255; 255; 255; 15]).
Proof. repeat split; vm_compute; reflexivity. Qed.

(** "Hello", and the one code point U+29E3D, a surrogate pair. *)
Example fixture_VarString :
  (setVarString 0 [72; 101; 108; 108; 111] ;;;
   getVarString Encoding.TextDecoder 0 None) (view_zeros 6)
    = (Ok {| StringResult.value := [72; 101; 108; 108; 111];
             StringResult.byteLength := 6 |},
       with_buffer (view_zeros 6) [5; 72; 101; 108; 108; 111]) /\
  (setVarString 0 [55399; 56893] ;;;
   getVarString Encoding.TextDecoder 0 None) (view_zeros 5)
    = (Ok {| StringResult.value := [55399; 56893];
             StringResult.byteLength := 5 |},
       with_buffer (view_zeros 5) [4; 240; 169; 184; 189]).
Proof. repeat split; vm_compute; reflexivity. Qed.

(** The cursor after the streaming methods of the project's example:
    [writeInt32(16)], [writeString] of 16 characters, [writeVarInt(49)]. *)
Example fixture_README :
  priv_byteOffset
    (snd ((writeInt32 16 false ;;;
           writeString (repeat 69 16) None ;;;
           writeVarInt 49 None) (view_zeros 1024))) = 21.
Proof. vm_compute. reflexivity. Qed.

(** ** C1: the documented encodings of [setVarInt] *)

(** C1.  For each value of the specification's list (0, 127, 255,
    2147483647) and every offset of a well-formed view that leaves room for
    its bytes, [setVarInt(offset, value)] writes exactly the documented
    bytes at the offset and nothing else, these bytes are the little-endian
    base-128 groups of the value, the call returns their number, and
    [getVarInt(offset)] on the result returns the value with that byte
    length. *)
Theorem C1_setVarInt_documented_bytes (v : ByteBuf) (byteOffset value : Z)
    (bs : list Z) :
  wf v ->
  In (value, bs) documented_varints ->
  0 <= byteOffset ->
  byteOffset + Z.of_nat (length bs) <= byteLength v ->
  let v' := with_buffer v
              (store (Z.to_nat (super_byteOffset v + byteOffset)) bs
                 (buffer v)) in
  bs = spec_base128_groups 10 value /\
  setVarInt byteOffset value None v = (Ok (Z.of_nat (length bs)), v') /\
  getVarInt byteOffset None v' =
    (Ok {| IntResult.value := value;
           IntResult.byteLength := Z.of_nat (length bs) |}, v').
Proof.
  intros (Hbase & Hlen & Hfit & _) Hin H0 H1 v'.
  assert (Hset : encode_groups 10 value = Some bs
                 /\ decode_groups 10 bs 0 0 0 =
                      Some {| IntResult.value := value;
                              IntResult.byteLength := Z.of_nat (length bs) |}
                 /\ bs = spec_base128_groups 10 value).
  { cbn [In documented_varints] in Hin.
    repeat (destruct Hin as [Hin|Hin]; [injection Hin as <- <-|]);
      [ | | | | contradiction ];
      (split; [|split]); vm_compute; reflexivity. }
  destruct Hset as (Henc & Hdec & Hspec).
  split; [exact Hspec|]. split.
  - unfold setVarInt. cbn [default].
    rewrite (setVarInt_loop_encode _ _ _ _ _ _ bs Henc Hbase H0 H1 Hfit).
    do 2 f_equal. lia.
  - unfold getVarInt. cbn [default].
    apply (getVarInt_loop_decode _ bs); cbn [super_byteOffset byteLength v'
                                              with_buffer]; try lia.
    + exact Hdec.
    + unfold bytes_at. cbn [buffer super_byteOffset].
      rewrite Z.add_0_r, Nat2Z.id. apply slice_store. lia.
Qed.

Lemma C1_witness :
  wf view_3_5 /\
  In (2147483647, [255; 255; 255; 255; 7]) documented_varints /\
  0 <= 0 /\
  0 + Z.of_nat (length [255; 255; 255; 255; 7]) <= byteLength view_3_5 /\
  setVarInt 0 2147483647 None view_3_5 =
    (Ok 5, with_buffer view_3_5 [0; 0; 0; 255; 255; 255; 255; 7]) /\
  getVarInt 0 None (with_buffer view_3_5 [0; 0; 0; 255; 255; 255; 255; 7]) =
    (Ok {| IntResult.value := 2147483647; IntResult.byteLength := 5 |},
     with_buffer view_3_5 [0; 0; 0; 255; 255; 255; 255; 7]).
Proof.
  assert (Hwf : wf view_3_5) by (apply wfb_wf; reflexivity).
  assert (Hin : In (2147483647, [255; 255; 255; 255; 7]) documented_varints)
    by (cbn; tauto).
  assert (H0 : 0 <= 0) by lia.
  assert (H1 : 0 + Z.of_nat (length [255; 255; 255; 255; 7])
               <= byteLength view_3_5) by (cbn; lia).
  pose proof (C1_setVarInt_documented_bytes view_3_5 0 2147483647
                [255; 255; 255; 255; 7] Hwf Hin H0 H1) as (_ & Hs & Hg).
  exact (conj Hwf (conj Hin (conj H0 (conj H1 (conj Hs Hg))))).
Defined.

(** ** C2: the zigzag codec *)

(** In this part [lia] also splits divisions and remainders by constants. *)
Ltac Zify.zify_post_hook ::= Z.to_euclidean_division_equations.

(** *** The 32-bit operators as arithmetic *)

Lemma ToInt32_cases z :
  JS.ToInt32 z =
    if JS.ToUint32 z <? 2 ^ 31 then JS.ToUint32 z
    else JS.ToUint32 z - 2 ^ 32.
Proof.
  unfold JS.ToInt32, JS.ToUint32.
  destruct (z mod 2 ^ 32 <? 2 ^ 31) eqn:E; lia.
Qed.

Lemma land_127 z : Z.land z 127 = z mod 128.
Proof. change 127 with (Z.ones 7). rewrite Z.land_ones by lia. reflexivity. Qed.

Lemma and_127 z : JS.and z 127 = JS.ToUint32 z mod 128.
Proof.
  unfold JS.and. rewrite (ToInt32_small 127) by lia. rewrite land_127.
  unfold JS.ToInt32, JS.ToUint32. lia.
Qed.

Lemma shr_7 z : JS.shr z 7 = JS.ToUint32 z / 128.
Proof.
  unfold JS.shr. change (JS.ToUint32 7 mod 32) with 7.
  rewrite Z.shiftr_div_pow2 by lia. reflexivity.
Qed.

Lemma ToInt32_range z : - 2 ^ 31 <= JS.ToInt32 z < 2 ^ 31.
Proof. unfold JS.ToInt32. lia. Qed.

Lemma ToInt32_congr z q : JS.ToInt32 (z + 2 ^ 32 * q) = JS.ToInt32 z.
Proof.
  unfold JS.ToInt32. f_equal.
  replace (z + 2 ^ 32 * q + 2 ^ 31) with (z + 2 ^ 31 + q * 2 ^ 32) by lia.
  apply Z_mod_plus_full.
Qed.

Lemma ToInt32_decompose z : exists q, JS.ToInt32 z = z - 2 ^ 32 * q.
Proof.
  exists ((z + 2 ^ 31) / 2 ^ 32). unfold JS.ToInt32. lia.
Qed.

Lemma lor_disjoint a m s :
  0 <= s -> 0 <= a < 2 ^ s -> Z.lor a (m * 2 ^ s) = a + m * 2 ^ s.
Proof.
  intros Hs Ha.
  assert (Hland : Z.land a (m * 2 ^ s) = 0).
  { apply Z.bits_inj'. intros i Hi.
    rewrite Z.land_spec, Z.bits_0, <- Z.shiftl_mul_pow2 by lia.
    destruct (Z.lt_ge_cases i s) as [Hlt|Hge].
    - rewrite Z.shiftl_spec_low by lia. apply andb_false_r.
    - rewrite <- (Z.mod_small a (2 ^ s)) by lia.
      rewrite Z.mod_pow2_bits_high by lia. reflexivity. }
  rewrite <- (Z.lxor_lor _ _ Hland). symmetry.
  now apply Z.add_nocarry_lxor.
Qed.

Lemma or_shl acc b s :
  0 <= s < 32 -> 0 <= acc < 2 ^ s -> 0 <= b < 2 ^ 31 ->
  JS.or acc (JS.shl b s) = JS.ToInt32 (acc + b * 2 ^ s).
Proof.
  intros Hs Hacc Hb.
  assert (Hpow : 2 ^ 31 = 2 ^ s * 2 ^ (31 - s))
    by (rewrite <- Z.pow_add_r by lia; f_equal; lia).
  assert (HX : 0 < 2 ^ s) by (apply Z.pow_pos_nonneg; lia).
  assert (HY : 0 < 2 ^ (31 - s)) by (apply Z.pow_pos_nonneg; lia).
  unfold JS.or, JS.shl.
  rewrite (ToInt32_small acc) by nia.
  rewrite (ToInt32_small b) by lia.
  replace (JS.ToUint32 s mod 32) with s by (unfold JS.ToUint32; lia).
  rewrite Z.shiftl_mul_pow2 by lia.
  rewrite (ToInt32_small (JS.ToInt32 _)) by apply ToInt32_range.
  destruct (ToInt32_decompose (b * 2 ^ s)) as [q Hq].
  pose proof (ToInt32_range (b * 2 ^ s)) as Hr.
  assert (Hm : JS.ToInt32 (b * 2 ^ s) = (b - 2 * 2 ^ (31 - s) * q) * 2 ^ s)
    by (rewrite Hq; nia).
  rewrite Hm, lor_disjoint by lia.
  rewrite Hm in Hr.
  set (X := 2 ^ s) in *. set (Y := 2 ^ (31 - s)) in *.
  replace (acc + b * X) with (acc + (b - 2 * Y * q) * X + 2 ^ 32 * q) by nia.
  rewrite ToInt32_congr. symmetry. apply ToInt32_small.
  assert (b - 2 * Y * q < Y) by nia.
  nia.
Qed.

Lemma ToUint32_idem z : JS.ToUint32 (JS.ToUint32 z) = JS.ToUint32 z.
Proof. unfold JS.ToUint32. lia. Qed.

Lemma ToUint32_small z : 0 <= z < 2 ^ 32 -> JS.ToUint32 z = z.
Proof. unfold JS.ToUint32. lia. Qed.

Lemma ToInt32_ToUint32 z : JS.ToInt32 (JS.ToUint32 z) = JS.ToInt32 z.
Proof.
  unfold JS.ToUint32.
  replace (z mod 2 ^ 32) with (z + 2 ^ 32 * (- (z / 2 ^ 32))) by lia.
  apply ToInt32_congr.
Qed.

Lemma or_128 d : 0 <= d < 128 -> JS.or d 128 = 128 + d.
Proof.
  intros Hd. unfold JS.or. rewrite !ToInt32_small by lia.
  change 128 with (1 * 2 ^ 7) at 1. rewrite lor_disjoint; lia.
Qed.

Lemma and_128_low b : 0 <= b < 128 -> JS.and b 128 = 0.
Proof.
  intros Hb. unfold JS.and. rewrite !ToInt32_small by lia.
  rewrite <- (Z.mod_small b 128) by lia. rewrite <- land_127.
  rewrite <- Z.land_assoc. change (Z.land 127 128) with 0. apply Z.land_0_r.
Qed.

Lemma and_128_high d : 0 <= d < 128 -> JS.and (128 + d) 128 = 128.
Proof.
  intros Hd. unfold JS.and. rewrite !ToInt32_small by lia.
  replace (128 + d) with (Z.lor d (1 * 2 ^ 7)) by (rewrite lor_disjoint; lia).
  rewrite Z.land_lor_distr_l. change (1 * 2 ^ 7) with 128.
  change (Z.land 128 128) with 128.
  pose proof (and_128_low d Hd) as H0. unfold JS.and in H0.
  rewrite !ToInt32_small in H0 by lia. rewrite H0. reflexivity.
Qed.

(** *** The loops of [setVarInt] and [getVarInt] on every 32-bit value *)

Lemma encode_groups_S n value :
  encode_groups (S n) value =
    (let byte := JS.and value 127 in
     let value := JS.shr value 7 in
     let byte := if negb (value =? 0) then JS.or byte 128 else byte in
     if value =? 0 then Some [byte mod 256]
     else option_map (cons (byte mod 256)) (encode_groups n value)).
Proof. reflexivity. Qed.

Lemma spec_base128_groups_S n value :
  spec_base128_groups (S n) value =
    if value / 128 =? 0 then [value mod 128]
    else (128 + value mod 128) :: spec_base128_groups n (value / 128).
Proof. reflexivity. Qed.

Lemma decode_groups_S n byte bs value k bitShift :
  decode_groups (S n) (byte :: bs) value k bitShift =
    (let k := k + 1 in
     let value := JS.or value (JS.shl (JS.and byte 127) bitShift) in
     if JS.and byte 128 =? 0
     then Some {| IntResult.value := value; IntResult.byteLength := k |}
     else decode_groups n bs value k (bitShift + 7)).
Proof. reflexivity. Qed.

Lemma encode_groups_ToUint32 n value :
  encode_groups n value = encode_groups n (JS.ToUint32 value).
Proof.
  destruct n as [|n]; [reflexivity|]. rewrite !encode_groups_S. cbv zeta.
  now rewrite !and_127, !shr_7, ToUint32_idem.
Qed.

Lemma encode_groups_spec n : forall u,
  0 <= u < 2 ^ 32 -> u < 128 ^ Z.of_nat (S n) ->
  encode_groups (S n) u = Some (spec_base128_groups (S n) u).
Proof.
  induction n as [|n IH]; intros u Hu Hfuel;
    rewrite encode_groups_S, spec_base128_groups_S; cbv zeta;
    rewrite and_127, shr_7, ToUint32_small by lia;
    destruct (u / 128 =? 0) eqn:E; cbn [negb].
  - f_equal. f_equal. lia.
  - change (128 ^ Z.of_nat 1) with 128 in Hfuel. lia.
  - f_equal. f_equal. lia.
  - rewrite IH; [|lia|].
    + cbn [option_map]. rewrite or_128 by lia. do 2 f_equal. lia.
    + rewrite Nat2Z.inj_succ, Z.pow_succ_r in Hfuel by lia. lia.
Qed.

Lemma length_spec_groups n : forall m u,
  0 <= u < 128 ^ Z.of_nat (S m) ->
  (1 <= length (spec_base128_groups (S n) u) <= S m)%nat.
Proof.
  induction n as [|n IH]; intros m u Hu; rewrite spec_base128_groups_S;
    destruct (u / 128 =? 0) eqn:E; cbn [length].
  - lia.
  - cbn [spec_base128_groups length]. lia.
  - lia.
  - destruct m as [|m].
    + change (128 ^ Z.of_nat 1) with 128 in Hu. lia.
    + specialize (IH m (u / 128)).
      rewrite Nat2Z.inj_succ, Z.pow_succ_r in Hu by lia.
      assert (0 <= u / 128 < 128 ^ Z.of_nat (S m)) by lia. lia.
Qed.

Lemma decode_groups_spec m : forall n u acc k s,
  (S m <= n)%nat -> 0 <= s < 32 -> 0 <= acc < 2 ^ s -> 0 <= u ->
  acc + u * 2 ^ s < 2 ^ 32 ->
  decode_groups n (spec_base128_groups (S m) u) acc k s =
    Some {| IntResult.value := JS.ToInt32 (acc + u * 2 ^ s);
            IntResult.byteLength :=
              k + Z.of_nat (length (spec_base128_groups (S m) u)) |}
  \/ (128 ^ Z.of_nat (S m) <= u).
Proof.
  induction m as [|m IH]; intros n u acc k s Hn Hs Hacc Hu Htot;
    (destruct n as [|n]; [lia|]);
    rewrite spec_base128_groups_S;
    destruct (u / 128 =? 0) eqn:E.
  - left. rewrite (Z.mod_small u 128) by lia.
    rewrite decode_groups_S. cbv zeta. cbn [length].
    rewrite and_127, ToUint32_small, Z.mod_small by lia.
    rewrite and_128_low by lia. cbn [Z.eqb].
    rewrite or_shl by lia. reflexivity.
  - right. change (128 ^ Z.of_nat 1) with 128. lia.
  - left. rewrite (Z.mod_small u 128) by lia.
    rewrite decode_groups_S. cbv zeta. cbn [length].
    rewrite and_127, ToUint32_small, Z.mod_small by lia.
    rewrite and_128_low by lia. cbn [Z.eqb].
    rewrite or_shl by lia. reflexivity.
  - assert (HX : 0 < 2 ^ s) by (apply Z.pow_pos_nonneg; lia).
    set (d := u mod 128) in *. set (q := u / 128) in *.
    assert (Hdq : u = 128 * q + d /\ 0 <= d < 128 /\ 1 <= q)
      by (unfold d, q; lia).
    clearbody d q. destruct Hdq as (-> & Hd & Hq). clear E Hu.
    assert (Hs7 : s + 7 < 32).
    { apply (Z.pow_lt_mono_r_iff 2); [lia..|].
      rewrite Z.pow_add_r by lia. change (2 ^ 7) with 128. nia. }
    assert (Hpow : 2 ^ (s + 7) = 2 ^ s * 128)
      by (rewrite Z.pow_add_r by lia; reflexivity).
    assert (H31 : 2 ^ (s + 7) <= 2 ^ 31)
      by (apply Z.pow_le_mono_r; lia).
    rewrite decode_groups_S. cbv zeta. cbn [length].
    rewrite and_127, ToUint32_small by lia.
    replace ((128 + d) mod 128) with d by lia.
    rewrite and_128_high by lia. cbn [Z.eqb].
    rewrite or_shl by lia.
    rewrite ToInt32_small by nia.
    assert (P1 : 0 <= acc + d * 2 ^ s < 2 ^ (s + 7)) by (rewrite Hpow; nia).
    assert (P2 : acc + d * 2 ^ s + q * 2 ^ (s + 7) < 2 ^ 32)
      by (rewrite Hpow; nia).
    destruct (IH n q (acc + d * 2 ^ s) (k + 1) (s + 7)
                ltac:(lia) ltac:(lia) P1 ltac:(lia) P2) as [Hok | Hbig].
    + left. rewrite Hok. do 2 f_equal.
      * f_equal. rewrite Hpow. nia.
      * lia.
    + right. rewrite Nat2Z.inj_succ, Z.pow_succ_r by lia. lia.
Qed.

(** *** The zigzag transform and its inverse *)

Lemma sar_div a s : - 2 ^ 31 <= a < 2 ^ 31 -> 0 <= s < 32 ->
  JS.sar a s = a / 2 ^ s.
Proof.
  intros Ha Hs. unfold JS.sar. rewrite ToInt32_small by lia.
  replace (JS.ToUint32 s mod 32) with s by (unfold JS.ToUint32; lia).
  apply Z.shiftr_div_pow2. lia.
Qed.

Lemma shl_1 a : JS.shl a 1 = JS.ToInt32 (2 * JS.ToInt32 a).
Proof.
  unfold JS.shl. change (JS.ToUint32 1 mod 32) with 1.
  rewrite Z.shiftl_mul_pow2 by lia. f_equal. lia.
Qed.

Lemma and_1 a : - 2 ^ 31 <= a < 2 ^ 31 -> JS.and a 1 = a mod 2.
Proof.
  intros Ha. unfold JS.and. rewrite !ToInt32_small by lia.
  change 1 with (Z.ones 1) at 1. now rewrite Z.land_ones by lia.
Qed.

Lemma xor_0_l b : - 2 ^ 31 <= b < 2 ^ 31 -> JS.xor 0 b = b.
Proof.
  intros Hb. unfold JS.xor. rewrite !ToInt32_small by lia. apply Z.lxor_0_l.
Qed.

Lemma xor_0_r a : - 2 ^ 31 <= a < 2 ^ 31 -> JS.xor a 0 = a.
Proof.
  intros Ha. unfold JS.xor. rewrite !ToInt32_small by lia. apply Z.lxor_0_r.
Qed.

Lemma xor_m1_l b : - 2 ^ 31 <= b < 2 ^ 31 -> JS.xor (-1) b = - b - 1.
Proof.
  intros Hb. unfold JS.xor. rewrite !ToInt32_small by lia.
  rewrite Z.lxor_m1_l. unfold Z.lnot. lia.
Qed.

Lemma xor_m1_r a : - 2 ^ 31 <= a < 2 ^ 31 -> JS.xor a (-1) = - a - 1.
Proof.
  intros Ha. unfold JS.xor. rewrite !ToInt32_small by lia.
  rewrite Z.lxor_m1_r. unfold Z.lnot. lia.
Qed.

Lemma unzigzag_zigzag n :
  - 2 ^ 31 <= n < 2 ^ 31 ->
  unzigzag (JS.ToInt32 (zigzag n)) =
    if (- 2 ^ 30 <=? n) && (n <? 2 ^ 30) then n
    else if n <? 0 then n + 2 ^ 31 else n - 2 ^ 31.
Proof.
  intros Hn. unfold zigzag.
  rewrite sar_div, shl_1, (ToInt32_small n) by lia.
  assert (Hcase : (n < - 2 ^ 30 \/ - 2 ^ 30 <= n < 0)
                  \/ (0 <= n < 2 ^ 30 \/ 2 ^ 30 <= n)) by lia.
  destruct Hcase as [[H|H]|[H|H]].
  - replace (n / 2 ^ 31) with (-1) by lia.
    replace (JS.ToInt32 (2 * n)) with (2 * n + 2 ^ 32)
      by (rewrite <- (ToInt32_congr (2 * n) 1), ToInt32_small; lia).
    rewrite (xor_m1_l (2 * n + 2 ^ 32)) by lia.
    rewrite ToInt32_small by lia.
    unfold unzigzag. rewrite sar_div, and_1 by lia.
    replace ((- (2 * n + 2 ^ 32) - 1) mod 2) with 1 by lia.
    change (- (1)) with (-1). change (- 0) with 0.
    rewrite (xor_m1_r ((- (2 * n + 2 ^ 32) - 1) / 2 ^ 1)) by lia.
    destruct ((- 2 ^ 30 <=? n) && (n <? 2 ^ 30)) eqn:E1; [lia|].
    destruct (n <? 0) eqn:E2; lia.
  - replace (n / 2 ^ 31) with (-1) by lia.
    rewrite (ToInt32_small (2 * n)) by lia.
    rewrite (xor_m1_l (2 * n)) by lia.
    rewrite ToInt32_small by lia.
    unfold unzigzag. rewrite sar_div, and_1 by lia.
    replace ((- (2 * n) - 1) mod 2) with 1 by lia.
    change (- (1)) with (-1). change (- 0) with 0.
    rewrite (xor_m1_r ((- (2 * n) - 1) / 2 ^ 1)) by lia.
    destruct ((- 2 ^ 30 <=? n) && (n <? 2 ^ 30)) eqn:E1; lia.
  - replace (n / 2 ^ 31) with 0 by lia.
    rewrite (ToInt32_small (2 * n)) by lia.
    rewrite (xor_0_l (2 * n)) by lia.
    rewrite ToInt32_small by lia.
    unfold unzigzag. rewrite sar_div, and_1 by lia.
    replace ((2 * n) mod 2) with 0 by lia.
    change (- (1)) with (-1). change (- 0) with 0.
    rewrite (xor_0_r ((2 * n) / 2 ^ 1)) by lia.
    destruct ((- 2 ^ 30 <=? n) && (n <? 2 ^ 30)) eqn:E1; lia.
  - replace (n / 2 ^ 31) with 0 by lia.
    replace (JS.ToInt32 (2 * n)) with (2 * n - 2 ^ 32)
      by (rewrite <- (ToInt32_congr (2 * n) (-1)), ToInt32_small; lia).
    rewrite (xor_0_l (2 * n - 2 ^ 32)) by lia.
    rewrite ToInt32_small by lia.
    unfold unzigzag. rewrite sar_div, and_1 by lia.
    replace ((2 * n - 2 ^ 32) mod 2) with 0 by lia.
    change (- (1)) with (-1). change (- 0) with 0.
    rewrite (xor_0_r ((2 * n - 2 ^ 32) / 2 ^ 1)) by lia.
    destruct ((- 2 ^ 30 <=? n) && (n <? 2 ^ 30)) eqn:E1; [lia|].
    destruct (n <? 0) eqn:E2; lia.
Qed.

(** *** The round trips *)

(** [setVarInt] then [getVarInt] returns the value as a signed 32-bit
    number, in at most five bytes. *)
Theorem setVarInt_then_getVarInt (v : ByteBuf) (byteOffset value : Z) :
  wf v -> 0 <= byteOffset -> byteOffset + 5 <= byteLength v ->
  exists k v',
    1 <= k <= 5 /\
    setVarInt byteOffset value None v = (Ok k, v') /\
    getVarInt byteOffset None v' =
      (Ok {| IntResult.value := JS.ToInt32 value;
             IntResult.byteLength := k |}, v').
Proof.
  intros (Hbase & Hlen & Hfit & _) H0 H1.
  set (u := JS.ToUint32 value).
  assert (Hu : 0 <= u < 2 ^ 32) by (unfold u, JS.ToUint32; lia).
  set (bs := spec_base128_groups 10 u).
  assert (Hk : (1 <= length bs <= 5)%nat).
  { apply (length_spec_groups 9 4 u). change (128 ^ Z.of_nat 5) with (2 ^ 35).
    lia. }
  assert (Henc : encode_groups 10 value = Some bs).
  { rewrite encode_groups_ToUint32. apply encode_groups_spec; [exact Hu|].
    change (128 ^ Z.of_nat 10) with (2 ^ 70). lia. }
  assert (Hdec : decode_groups 10 bs 0 0 0 =
                   Some {| IntResult.value := JS.ToInt32 value;
                           IntResult.byteLength := Z.of_nat (length bs) |}).
  { assert (A1 : (10 <= 10)%nat) by lia.
    assert (A2 : 0 <= 0 < 32) by lia.
    assert (A3 : 0 <= 0 < 2 ^ 0) by lia.
    assert (A4 : 0 <= u) by lia.
    assert (A5 : 0 + u * 2 ^ 0 < 2 ^ 32) by lia.
    destruct (decode_groups_spec 9 10 u 0 0 0 A1 A2 A3 A4 A5) as [Hd|Hbig].
    - fold bs in Hd. rewrite Hd. do 2 f_equal.
      replace (0 + u * 2 ^ 0) with u by lia. apply ToInt32_ToUint32.
    - change (128 ^ Z.of_nat 10) with (2 ^ 70) in Hbig. lia. }

  exists (Z.of_nat (length bs)).
  exists (with_buffer v
            (store (Z.to_nat (super_byteOffset v + byteOffset)) bs (buffer v))).
  split; [lia|]. split.
  - unfold setVarInt. cbn [default].
    rewrite (setVarInt_loop_encode _ _ _ _ _ _ bs Henc) by lia.
    do 2 f_equal. lia.
  - unfold getVarInt. cbn [default].
    apply (getVarInt_loop_decode _ bs).
    + exact Hdec.
    + cbn [super_byteOffset byteLength with_buffer]. lia.
    + lia.
    + cbn [super_byteOffset byteLength with_buffer]. lia.
    + unfold bytes_at. cbn [buffer super_byteOffset with_buffer].
      rewrite Z.add_0_r, Nat2Z.id. apply slice_store. lia.
Qed.

Lemma setVarZint_zigzag off n maxLen :
  setVarZint off n maxLen = setVarInt off (zigzag n) maxLen.
Proof. reflexivity. Qed.

Lemma getVarZint_unzigzag off maxLen v r v' :
  getVarInt off maxLen v = (Ok r, v') ->
  getVarZint off maxLen v =
    (Ok {| IntResult.value := unzigzag (IntResult.value r);
           IntResult.byteLength := IntResult.byteLength r |}, v').
Proof.
  intros H. unfold getVarZint. rewrite (bind_Ok _ _ _ _ _ H). reflexivity.
Qed.

(** [setVarZint] then [getVarZint], for every signed 32-bit integer: the
    value read is the value written exactly when [-2^30 <= n < 2^30];
    outside that range it comes back with bit 31 flipped. *)
Theorem setVarZint_then_getVarZint (v : ByteBuf) (byteOffset n : Z) :
  wf v -> 0 <= byteOffset -> byteOffset + 5 <= byteLength v ->
  - 2 ^ 31 <= n < 2 ^ 31 ->
  exists k v',
    1 <= k <= 5 /\
    setVarZint byteOffset n None v = (Ok k, v') /\
    getVarZint byteOffset None v' =
      (Ok {| IntResult.value :=
               if (- 2 ^ 30 <=? n) && (n <? 2 ^ 30) then n
               else if n <? 0 then n + 2 ^ 31 else n - 2 ^ 31;
             IntResult.byteLength := k |}, v').
Proof.
  intros Hwf H0 H1 Hn.
  destruct (setVarInt_then_getVarInt v byteOffset (zigzag n) Hwf H0 H1)
    as (k & v' & Hk & Hset & Hget).
  exists k, v'. split; [exact Hk|]. split.
  - rewrite setVarZint_zigzag. exact Hset.
  - rewrite (getVarZint_unzigzag _ _ _ _ _ Hget).
    cbn [IntResult.value IntResult.byteLength].
    rewrite (unzigzag_zigzag n Hn). reflexivity.
Qed.

(** C2 at [n = 2^30] and at [n = -2^31], on a view of eight zero bytes:
    [setVarZint(0, 2^30)] writes five bytes and [getVarZint(0)] returns
    [-2^30]; [setVarZint(0, -2^31)] writes five bytes and [getVarZint(0)]
    returns 0.  The two documented encodings, of 255 and of -1, are written
    and read back as the specification lists them. *)
Theorem C2_zigzag_loses_bit_31 :
  (setVarZint 0 (2 ^ 30) None ;;; getVarZint 0 None) view_8 =
    (Ok {| IntResult.value := - 2 ^ 30; IntResult.byteLength := 5 |},
     with_buffer view_8 [128; 128; 128; 128; 8; 0; 0; 0]) /\
  (setVarZint 0 (- 2 ^ 31) None ;;; getVarZint 0 None) view_8 =
    (Ok {| IntResult.value := 0; IntResult.byteLength := 5 |},
     with_buffer view_8 [255; 255; 255; 255; 15; 0; 0; 0]) /\
  (setVarZint 0 255 None ;;; getVarZint 0 None) view_8 =
    (Ok {| IntResult.value := 255; IntResult.byteLength := 2 |},
     with_buffer view_8 [254; 3; 0; 0; 0; 0; 0; 0]) /\
  (setVarZint 0 (-1) None ;;; getVarZint 0 None) view_8 =
    (Ok {| IntResult.value := -1; IntResult.byteLength := 1 |},
     with_buffer view_8 [1; 0; 0; 0; 0; 0; 0; 0]).
Proof. repeat split; vm_compute; reflexivity. Qed.

(** Back to the plain [lia]. *)
Ltac Zify.zify_post_hook ::= idtac.

(** ** C3: where the cursor starts *)

(** The field initialiser and [reset] both copy [super.byteOffset], the
    place of the view in its buffer, into the cursor. *)
Lemma new_ByteBuf_cursor bytes byteOffset byteLength v :
  new_ByteBuf bytes byteOffset byteLength = Ok v ->
  priv_byteOffset v = super_byteOffset v.
Proof.
  unfold new_ByteBuf. destruct (_ || _); [discriminate|].
  destruct byteLength as [n|].
  - destruct ((n <? 0) || _); [discriminate|].
    intros Hv; injection Hv as Hv; subst v. reflexivity.
  - intros Hv; injection Hv as Hv; subst v. reflexivity.
Qed.

Lemma from_cursor source byteOffset byteLength v :
  from source byteOffset byteLength = Ok v ->
  priv_byteOffset v = super_byteOffset v.
Proof.
  unfold from. destruct byteLength; apply new_ByteBuf_cursor.
Qed.

Lemma reset_cursor v :
  reset v = (Ok tt, with_cursor v (super_byteOffset v)).
Proof. reflexivity. Qed.

Lemma bytesRemaining_eq v :
  bytesRemaining v = byteLength v - byteOffset v.
Proof. reflexivity. Qed.

(** C3 at a view whose offset in its buffer is 4: [from] builds a view of
    four bytes whose cursor is 4, not 0; [reset] after a [skip] puts the
    cursor back to 4, not 0; no byte is counted as remaining, and the first
    streaming read is out of bounds; the positional read of the same view
    finds its first byte. *)
Theorem C3_cursor_of_offset_view :
  from source_4_4 None None = Ok view_4_4 /\
  byteLength view_4_4 = 4 /\
  byteOffset view_4_4 = 4 /\
  byteOffset (snd ((skip 2 ;;; reset) view_4_4)) = 4 /\
  bytesRemaining view_4_4 = 0 /\
  fst (readUint8 view_4_4) = Throw RangeError_bounds /\
  fst (getUint8 0 view_4_4) = Ok 14.
Proof. repeat split. Qed.

(** ** C4: the cursor discipline *)

(** C4 at a two-byte view of a four-byte buffer: [readString()] decodes
    four bytes and moves the cursor by two. *)
Theorem C4_readString_consumes_more_than_it_advances :
  readString Encoding.TextDecoder None None view_0_2 =
    (Ok [97; 98; 99; 100], with_cursor view_0_2 2) /\
  UTF.encode [97; 98; 99; 100] = [97; 98; 99; 100] /\
  priv_byteOffset view_0_2 = 0.
Proof. repeat split. Qed.

(** In general: without a length, [readString] decodes the bytes from the
    cursor to the end of the buffer and puts the cursor at the end of the
    view; the two agree exactly when the view ends where its buffer ends. *)
Lemma readString_without_length dec enc decode v :
  dec (JS.string_or enc "utf-8") = Some decode ->
  0 <= super_byteOffset v + priv_byteOffset v
    <= Z.of_nat (length (buffer v)) ->
  readString dec None enc v =
    (Ok (decode
           (slice (Z.to_nat (super_byteOffset v + priv_byteOffset v))
              (Z.to_nat (Z.of_nat (length (buffer v))
                         - (super_byteOffset v + priv_byteOffset v)))
              (buffer v))),
     with_cursor v (byteLength v)).
Proof.
  intros Hdec Hrange. unfold readString, getString, new_TextDecoder.
  rewrite Hdec. unfold cursor. unfold bind at 1 2 3. unfold ret at 1.
  unfold bind at 1. rewrite (getUint8Array_to_buffer_end v _ Hrange).
  reflexivity.
Qed.

(** *** Positional methods leave the cursor alone *)

Lemma keeps_ret {A} (a : A) : keeps_cursor (ret a).
Proof. intros v. reflexivity. Qed.

Lemma keeps_throw {A} e : keeps_cursor (@throw A e).
Proof. intros v. reflexivity. Qed.

Lemma keeps_bind {A B} (m : M A) (k : A -> M B) :
  keeps_cursor m -> (forall a, keeps_cursor (k a)) -> keeps_cursor (bind m k).
Proof.
  intros Hm Hk v. unfold bind. specialize (Hm v).
  destruct (m v) as [[a|e] v1]; cbn [snd] in *; [|exact Hm].
  rewrite (Hk a v1). exact Hm.
Qed.

Lemma keeps_GetViewValue i size : keeps_cursor (GetViewValue i size).
Proof. intros v. unfold GetViewValue. destruct (_ || _); reflexivity. Qed.

Lemma keeps_SetViewValue i bs : keeps_cursor (SetViewValue i bs).
Proof. intros v. unfold SetViewValue. destruct (_ || _); reflexivity. Qed.

Lemma keeps_new_TypedArray size off len :
  keeps_cursor (new_TypedArray size off len).
Proof.
  intros v. unfold new_TypedArray.
  destruct (_ || _); [reflexivity|].
  destruct len as [n|]; destruct (_ || _); reflexivity.
Qed.

Lemma keeps_contents a : keeps_cursor (contents a).
Proof. intros v. reflexivity. Qed.

Lemma keeps_TypedArray_set a bs : keeps_cursor (TypedArray_set a bs).
Proof. intros v. unfold TypedArray_set. destruct (_ <? _); reflexivity. Qed.

Lemma keeps_super_offset : keeps_cursor super_offset.
Proof. intros v. reflexivity. Qed.

Lemma keeps_this_byteLength : keeps_cursor this_byteLength.
Proof. intros v. reflexivity. Qed.

Lemma keeps_BigInt value : keeps_cursor (BigInt value).
Proof. destruct value; intros v; reflexivity. Qed.

Create HintDb cursor.
#[local] Hint Resolve keeps_ret keeps_throw keeps_GetViewValue
  keeps_SetViewValue keeps_new_TypedArray keeps_contents keeps_TypedArray_set
  keeps_super_offset keeps_this_byteLength keeps_BigInt : cursor.

(** Breaks a method into its steps and closes each with the lemmas above. *)
Ltac keeps :=
  repeat first
    [ solve [auto with cursor]
    | apply keeps_bind; [|intros ?]
    | match goal with
      | |- keeps_cursor (match ?x with _ => _ end) => destruct x
      end ].

Lemma keeps_DataView_getUint size off le :
  keeps_cursor (DataView.getUint size off le).
Proof. unfold DataView.getUint. keeps. Qed.

Lemma keeps_DataView_getInt size off le :
  keeps_cursor (DataView.getInt size off le).
Proof.
  unfold DataView.getInt. apply keeps_bind;
    [apply keeps_DataView_getUint | intros; apply keeps_ret].
Qed.

Lemma keeps_DataView_setInt size off z le :
  keeps_cursor (DataView.setInt size off z le).
Proof. unfold DataView.setInt. keeps. Qed.

#[local] Hint Resolve keeps_DataView_getUint keeps_DataView_getInt
  keeps_DataView_setInt : cursor.

Lemma keeps_getVarInt_loop n : forall off maxLen value k bitShift,
  keeps_cursor (getVarInt_loop n off maxLen value k bitShift).
Proof.
  induction n as [|n IH]; intros; cbn [getVarInt_loop]; [keeps|].
  apply keeps_bind; [unfold getUint8; keeps|]. intros byte.
  destruct (JS.and byte 128 =? 0); [keeps | apply IH].
Qed.

Lemma keeps_setVarInt_loop n : forall off value maxLen k,
  keeps_cursor (setVarInt_loop n off value maxLen k).
Proof.
  induction n as [|n IH]; intros; cbn [setVarInt_loop]; [keeps|].
  apply keeps_bind; [unfold setUint8; keeps|]. intros _.
  destruct (JS.shr value 7 =? 0); [keeps | apply IH].
Qed.

Lemma keeps_getVarInt off maxLen : keeps_cursor (getVarInt off maxLen).
Proof. unfold getVarInt. apply keeps_getVarInt_loop. Qed.

Lemma keeps_setVarInt off value maxLen :
  keeps_cursor (setVarInt off value maxLen).
Proof. unfold setVarInt. apply keeps_setVarInt_loop. Qed.

#[local] Hint Resolve keeps_getVarInt keeps_setVarInt : cursor.

Lemma keeps_getVarUint off maxLen : keeps_cursor (getVarUint off maxLen).
Proof. unfold getVarUint. keeps. Qed.

Lemma keeps_getVarZint off maxLen : keeps_cursor (getVarZint off maxLen).
Proof. unfold getVarZint. keeps. Qed.

Lemma keeps_getUint8Array off len : keeps_cursor (getUint8Array off len).
Proof. unfold getUint8Array. keeps. Qed.

Lemma keeps_getUint16Array off len : keeps_cursor (getUint16Array off len).
Proof. unfold getUint16Array. keeps. Qed.

#[local] Hint Resolve keeps_getVarUint keeps_getVarZint keeps_getUint8Array
  keeps_getUint16Array : cursor.

Lemma keeps_setUint8Array off value : keeps_cursor (setUint8Array off value).
Proof. unfold setUint8Array. keeps. Qed.

Lemma keeps_setUint16Array off value :
  keeps_cursor (setUint16Array off value).
Proof. unfold setUint16Array. keeps. Qed.

Lemma keeps_getString dec off len enc :
  keeps_cursor (getString dec off len enc).
Proof. unfold getString, new_TextDecoder. keeps. Qed.

Lemma keeps_setString off value enc : keeps_cursor (setString off value enc).
Proof.
  unfold setString, encodeInto.
  apply keeps_bind; [|intros ?; keeps].
  destruct enc as [[|a s]|]; [keeps | | keeps].
  destruct (negb _); keeps.
Qed.

#[local] Hint Resolve keeps_setUint8Array keeps_setUint16Array
  keeps_getString keeps_setString : cursor.

Lemma keeps_getVarString dec off maxLen :
  keeps_cursor (getVarString dec off maxLen).
Proof.
  unfold getVarString. apply keeps_bind; [keeps|]. intros r.
  apply keeps_bind; [|intros ?; keeps].
  destruct maxLen as [m|]; [|keeps]. destruct (m <? _); keeps.
Qed.

Lemma keeps_setVarString off value : keeps_cursor (setVarString off value).
Proof. unfold setVarString. keeps. Qed.

(** Every positional method of the class, whatever its arguments and
    whether it returns or throws, leaves the cursor where it was. *)
Theorem positional_keeps_cursor
    (dec : string -> option (list Z -> jsstring))
    (off z : Z) (le b : bool) (x : number) (len maxLen : option Z)
    (enc : option string) (bs : list Z) (s : jsstring) :
  (keeps_cursor (getBool off) /\ keeps_cursor (setBool off b) /\
   keeps_cursor (getInt8 off) /\ keeps_cursor (setInt8 off z) /\
   keeps_cursor (getUint8 off) /\ keeps_cursor (setUint8 off z)) /\
  (keeps_cursor (getInt16 off le) /\ keeps_cursor (setInt16 off z le) /\
   keeps_cursor (getUint16 off le) /\ keeps_cursor (setUint16 off z le) /\
   keeps_cursor (getInt32 off le) /\ keeps_cursor (setInt32 off z le) /\
   keeps_cursor (getUint32 off le) /\ keeps_cursor (setUint32 off z le)) /\
  (keeps_cursor (getFloat32 off le) /\ keeps_cursor (setFloat32 off z le) /\
   keeps_cursor (getFloat64 off le) /\ keeps_cursor (setFloat64 off z le)) /\
  (keeps_cursor (getBigInt64 off le) /\ keeps_cursor (setBigInt64 off z le) /\
   keeps_cursor (getBigUint64 off le) /\
   keeps_cursor (setBigUint64 off z le) /\
   keeps_cursor (getInt64 off le) /\ keeps_cursor (setInt64 off x le) /\
   keeps_cursor (getUint64 off le) /\ keeps_cursor (setUint64 off x le)) /\
  (keeps_cursor (getVarInt off maxLen) /\
   keeps_cursor (setVarInt off z maxLen) /\
   keeps_cursor (getVarUint off maxLen) /\
   keeps_cursor (setVarUint off z maxLen) /\
   keeps_cursor (getVarZint off maxLen) /\
   keeps_cursor (setVarZint off z maxLen)) /\
  (keeps_cursor (getUint8Array off len) /\
   keeps_cursor (setUint8Array off bs) /\
   keeps_cursor (getUint16Array off len) /\
   keeps_cursor (setUint16Array off bs)) /\
  (keeps_cursor (getString dec off len enc) /\
   keeps_cursor (setString off s enc) /\
   keeps_cursor (getVarString dec off maxLen) /\
   keeps_cursor (setVarString off s)).
Proof.
  repeat split;
    try (apply keeps_getVarString); try (apply keeps_setVarString);
    unfold getBool, setBool, getInt8, setInt8, getUint8, setUint8,
      getInt16, setInt16, getUint16, setUint16, getInt32, setInt32,
      getUint32, setUint32, getFloat32, setFloat32, getFloat64, setFloat64,
      getInt64, setInt64, getUint64, setUint64,
      getBigInt64, setBigInt64, getBigUint64, setBigUint64,
      setVarUint, setVarZint;
    keeps.
Qed.

(** *** Streaming methods advance the cursor by what they consume *)

Lemma post_incr_advances {A} (op : Z -> M A) v x v' :
  (forall off, keeps_cursor (op off)) ->
  (off <- cursor_post_incr ;; op off) v = (Ok x, v') ->
  priv_byteOffset v' = priv_byteOffset v + 1.
Proof.
  intros Hk H. unfold bind, cursor_post_incr in H.
  pose proof (Hk (priv_byteOffset v)
                (with_cursor v (priv_byteOffset v + 1))) as Hc.
  destruct (op _ _) as [[a|e] v1]; [|discriminate].
  inversion H; subst. exact Hc.
Qed.

Lemma read_then_advance_advances {A} (get : Z -> M A) W v x v' :
  (forall off, keeps_cursor (get off)) ->
  read_then_advance get W v = (Ok x, v') ->
  exists v1, get (priv_byteOffset v) v = (Ok x, v1) /\
             v' = with_cursor v1 (priv_byteOffset v + W).
Proof.
  intros Hk H. unfold read_then_advance, bind, cursor, cursor_add, ret in H.
  pose proof (Hk (priv_byteOffset v) v) as Hc.
  destruct (get _ _) as [[a|e] v1]; [|discriminate].
  cbn [snd] in Hc. inversion H; subst.
  exists v1. rewrite Hc. auto.
Qed.

Lemma write_then_advance_advances (set : Z -> M unit) W v v' :
  (forall off, keeps_cursor (set off)) ->
  write_then_advance set W v = (Ok tt, v') ->
  exists v1, set (priv_byteOffset v) v = (Ok tt, v1) /\
             v' = with_cursor v1 (priv_byteOffset v + W).
Proof.
  intros Hk H. unfold write_then_advance, bind, cursor, cursor_add in H.
  pose proof (Hk (priv_byteOffset v) v) as Hc.
  destruct (set _ _) as [[[]|e] v1]; [|discriminate].
  cbn [snd] in Hc. inversion H; subst.
  exists v1. rewrite Hc. auto.
Qed.

(** The variable-length shape: the positional method runs at the cursor and
    the cursor moves by the length it reports. *)
Lemma advance_by_result {A B} (op : Z -> M A) (len : A -> Z) (val : A -> B)
    v x v' :
  (forall off, keeps_cursor (op off)) ->
  (off <- cursor ;; r <- op off ;; cursor_add (len r) ;;; ret (val r)) v
    = (Ok x, v') ->
  exists r v1, op (priv_byteOffset v) v = (Ok r, v1) /\ x = val r /\
               v' = with_cursor v1 (priv_byteOffset v + len r).
Proof.
  intros Hk H. unfold bind, cursor, cursor_add, ret in H.
  pose proof (Hk (priv_byteOffset v) v) as Hc.
  destruct (op _ _) as [[r|e] v1]; [|discriminate].
  cbn [snd] in Hc. inversion H; subst.
  exists r, v1. rewrite Hc. auto.
Qed.

Lemma advance_by_written (op : Z -> M Z) v v' :
  (forall off, keeps_cursor (op off)) ->
  (off <- cursor ;; n <- op off ;; cursor_add n) v = (Ok tt, v') ->
  exists n v1, op (priv_byteOffset v) v = (Ok n, v1) /\
               v' = with_cursor v1 (priv_byteOffset v + n).
Proof.
  intros Hk H. unfold bind, cursor, cursor_add in H.
  pose proof (Hk (priv_byteOffset v) v) as Hc.
  destruct (op _ _) as [[n|e] v1]; [|discriminate].
  cbn [snd] in Hc. inversion H; subst.
  exists n, v1. rewrite Hc. auto.
Qed.

Lemma advances_by_post_incr {A} (op : Z -> M A) :
  (forall off, keeps_cursor (op off)) ->
  advances_by (off <- cursor_post_incr ;; op off) 1.
Proof. intros Hk v x v'. now apply post_incr_advances. Qed.

Lemma advances_by_read {A} (get : Z -> M A) W :
  (forall off, keeps_cursor (get off)) ->
  advances_by (read_then_advance get W) W.
Proof.
  intros Hk v x v' H.
  apply read_then_advance_advances in H as (v1 & Hg & ->); [|exact Hk].
  specialize (Hk (priv_byteOffset v) v). rewrite Hg in Hk. reflexivity.
Qed.

Lemma advances_by_write (set : Z -> M unit) W :
  (forall off, keeps_cursor (set off)) ->
  advances_by (write_then_advance set W) W.
Proof.
  intros Hk v [] v' H.
  apply write_then_advance_advances in H as (v1 & Hg & ->); [|exact Hk].
  reflexivity.
Qed.

Lemma advances_as_result {A B} (op : Z -> M A) (len : A -> Z)
    (val : A -> B) :
  (forall off, keeps_cursor (op off)) ->
  advances_as (off <- cursor ;; r <- op off ;; cursor_add (len r) ;;;
               ret (val r)) op len.
Proof.
  intros Hk v x v' H.
  apply advance_by_result in H as (r & v1 & Hop & _ & ->); [|exact Hk].
  exists r, v1. auto.
Qed.

Lemma advances_as_written (op : Z -> M Z) :
  (forall off, keeps_cursor (op off)) ->
  advances_as (off <- cursor ;; n <- op off ;; cursor_add n) op id.
Proof.
  intros Hk v [] v' H.
  apply advance_by_written in H as (n & v1 & Hop & ->); [|exact Hk].
  exists n, v1. auto.
Qed.

Lemma getUint8Array_length_given off n v a v' :
  getUint8Array off (Some n) v = (Ok a, v') -> TypedArray.byteLength a = n.
Proof.
  unfold getUint8Array, super_offset, bind, new_TypedArray.
  destruct (_ || _); [discriminate|].
  destruct ((n <? 0) || _); [discriminate|].
  intros H; inversion H; subst. cbn. lia.
Qed.

(** With a length, [readString] decodes that many bytes and advances by
    as many. *)
Lemma readString_given_length dec n enc v x v' :
  readString dec (Some n) enc v = (Ok x, v') ->
  priv_byteOffset v' = priv_byteOffset v + n /\
  exists decode a,
    getUint8Array (priv_byteOffset v) (Some n) v = (Ok a, v) /\
    TypedArray.byteLength a = n /\
    x = decode (slice (Z.to_nat (TypedArray.byteOffset a)) (Z.to_nat n)
                  (buffer v)).
Proof.
  unfold readString, getString, new_TextDecoder.
  destruct (dec _) as [decode|]; [|discriminate].
  unfold bind at 1 2 3 4. unfold cursor, ret at 1.
  pose proof (keeps_getUint8Array (priv_byteOffset v) (Some n) v) as Hc.
  destruct (getUint8Array _ _ v) as [[a|e] v1] eqn:Ea; [|discriminate].
  assert (v1 = v) as ->.
  { revert Ea. unfold getUint8Array, super_offset, bind, new_TypedArray.
    destruct (_ || _); [discriminate|].
    destruct ((n <? 0) || _); [discriminate|].
    intros H; inversion H; reflexivity. }
  pose proof (getUint8Array_length_given _ _ _ _ _ Ea) as Hn.
  unfold bind, contents, cursor_add, ret. intros H; inversion H; subst.
  split; [reflexivity|]. exists decode, a. auto.
Qed.

(** Every streaming method that returns has moved the cursor by the number
    of bytes it read or wrote: the width for the fixed-width methods, the
    byte length reported by the positional method for the variable-length
    ones, the byte length of the array or of the text for the others.  The
    one method left out is [readString] without a length. *)
Theorem streaming_advances_cursor
    (dec : string -> option (list Z -> jsstring))
    (z n : Z) (le b : bool) (x : number) (len maxLen : option Z)
    (enc : option string) (bs : list Z) (s : jsstring) :
  (advances_by readBool 1 /\ advances_by (writeBool b) 1 /\
   advances_by readInt8 1 /\ advances_by (writeInt8 z) 1 /\
   advances_by readUint8 1 /\ advances_by (writeUint8 z) 1) /\
  (advances_by (readInt16 le) 2 /\ advances_by (writeInt16 z le) 2 /\
   advances_by (readUint16 le) 2 /\ advances_by (writeUint16 z le) 2 /\
   advances_by (readInt32 le) 4 /\ advances_by (writeInt32 z le) 4 /\
   advances_by (readUint32 le) 4 /\ advances_by (writeUint32 z le) 4) /\
  (advances_by (readFloat32 le) 4 /\ advances_by (writeFloat32 z le) 4 /\
   advances_by (readFloat64 le) 8 /\ advances_by (writeFloat64 z le) 8) /\
  (advances_by (readBigInt64 le) 8 /\ advances_by (writeBigInt64 z le) 8 /\
   advances_by (readBigUint64 le) 8 /\ advances_by (writeBigUint64 z le) 8 /\
   advances_by (readInt64 le) 8 /\ advances_by (writeInt64 x le) 8 /\
   advances_by (readUint64 le) 8 /\ advances_by (writeUint64 x le) 8) /\
  (advances_as (readVarInt maxLen) (fun off => getVarInt off maxLen)
     IntResult.byteLength /\
   advances_as (writeVarInt z maxLen) (fun off => setVarInt off z maxLen) id /\
   advances_as (readVarUint maxLen) (fun off => getVarUint off maxLen)
     IntResult.byteLength /\
   advances_as (writeVarUint z maxLen) (fun off => setVarUint off z maxLen)
     id /\
   advances_as (readVarZint maxLen) (fun off => getVarZint off maxLen)
     IntResult.byteLength /\
   advances_as (writeVarZint z maxLen) (fun off => setVarZint off z maxLen)
     id) /\
  (advances_as (readUint8Array len) (fun off => getUint8Array off len)
     TypedArray.byteLength /\
   advances_by (writeUint8Array bs) (Z.of_nat (length bs)) /\
   advances_as (readUint16Array len) (fun off => getUint16Array off len)
     TypedArray.byteLength /\
   advances_by (writeUint16Array bs) (2 * Z.of_nat (length bs))) /\
  (advances_by (readString dec (Some n) enc) n /\
   advances_as (writeString s enc) (fun off => setString off s enc) id /\
   advances_as (readVarString dec maxLen)
     (fun off => getVarString dec off maxLen) StringResult.byteLength /\
   advances_as (writeVarString s) (fun off => setVarString off s) id).
Proof.
  pose proof (positional_keeps_cursor dec) as K.
  repeat split;
    try (apply advances_by_post_incr; intros off;
         solve [ apply (K off z le b x len maxLen enc bs s) ]);
    try (apply advances_by_read; intros off;
         solve [ apply (K off z le b x len maxLen enc bs s) ]);
    try (apply advances_by_write; intros off;
         solve [ apply (K off z le b x len maxLen enc bs s) ]);
    try (apply advances_as_result; intros off;
         solve [ apply (K off z le b x len maxLen enc bs s) ]);
    try (apply advances_as_written; intros off;
         solve [ apply (K off z le b x len maxLen enc bs s) ]).
  intros v y v' H. now apply readString_given_length in H as [H _].
Qed.

(** ** C5: 64-bit integers *)

Lemma length_le_bytes n : forall z, length (le_bytes n z) = n.
Proof. induction n as [|n IH]; intros z; cbn; [|rewrite IH]; reflexivity. Qed.

Lemma be_value_snoc bs : forall acc b,
  be_value acc (bs ++ [b]) = be_value acc bs * 256 + b.
Proof.
  induction bs as [|x bs IH]; intros acc b; cbn; [|rewrite IH]; reflexivity.
Qed.

Lemma be_value_rev_le_bytes n : forall z,
  be_value 0 (rev (le_bytes n z)) = z mod 256 ^ Z.of_nat n.
Proof.
  induction n as [|n IH]; intros z.
  - cbn. now rewrite Z.mod_1_r.
  - cbn [le_bytes rev]. rewrite be_value_snoc, IH.
    rewrite Nat2Z.inj_succ, Z.pow_succ_r by lia.
    rewrite Z.rem_mul_r by lia. lia.
Qed.

Lemma RawBytes_round_trip size z le :
  RawBytesToNumeric (NumericToRawBytes size z le) le
  = z mod 256 ^ Z.of_nat size.
Proof.
  unfold RawBytesToNumeric, NumericToRawBytes. destruct le.
  - apply be_value_rev_le_bytes.
  - apply be_value_rev_le_bytes.
Qed.

Lemma length_NumericToRawBytes size z le :
  length (NumericToRawBytes size z le) = size.
Proof.
  unfold NumericToRawBytes. destruct le;
    rewrite ?length_rev; apply length_le_bytes.
Qed.

(** A fixed-width write in bounds, and the read of what it wrote. *)
Lemma DataView_set_then_get size off z le v :
  wf v -> 0 <= off -> off + Z.of_nat size <= byteLength v ->
  let v' := with_buffer v
              (store (Z.to_nat (super_byteOffset v + off))
                 (NumericToRawBytes size z le) (buffer v)) in
  DataView.setInt size off z le v = (Ok tt, v') /\
  DataView.getUint size off le v' = (Ok (z mod 256 ^ Z.of_nat size), v').
Proof.
  intros (Hb & Hl & Hf & _) H0 H1 v'. split.
  - unfold DataView.setInt, SetViewValue.
    rewrite length_NumericToRawBytes.
    destruct ((off <? 0) || (byteLength v <? off + Z.of_nat size)) eqn:E;
      [lia | reflexivity].
  - unfold DataView.getUint, bind, GetViewValue.
    cbn [byteLength super_byteOffset buffer v' with_buffer].
    destruct ((off <? 0) || (byteLength v <? off + Z.of_nat size)) eqn:E;
      [lia|].
    unfold ret. do 2 f_equal.
    rewrite <- (length_NumericToRawBytes size z le) at 1.
    rewrite slice_store by (rewrite length_NumericToRawBytes; lia).
    apply RawBytes_round_trip.
Qed.






(** ** C6: the length of the view built by [from] *)

Lemma new_ByteBuf_length_given bytes byteOffset n v :
  new_ByteBuf bytes byteOffset (Some n) = Ok v -> byteLength v = n.
Proof.
  unfold new_ByteBuf. destruct (_ || _); [discriminate|].
  destruct ((n <? 0) || _); [discriminate|].
  intros Hv; injection Hv as Hv; subst v. reflexivity.
Qed.

(** With a length, [from] takes the smaller of the length asked for and the
    whole length of the source: the offset plays no part. *)
Lemma from_length_given source byteOffset n v :
  from source byteOffset (Some n) = Ok v ->
  byteLength v = Z.min (source_byteLength source) n.
Proof. unfold from. apply new_ByteBuf_length_given. Qed.

(** Without a length, the view runs to the end of the buffer. *)
Lemma from_length_omitted source byteOffset v :
  from source byteOffset None = Ok v ->
  byteLength v =
    Z.of_nat (length (source_buffer source)) - super_byteOffset v.
Proof.
  unfold from, new_ByteBuf. destruct (_ || _); [discriminate|].
  intros Hv; injection Hv as Hv; subst v. reflexivity.
Qed.

(** C6 at three calls.  On an eight-byte buffer, [from(buffer, 2, 10)]
    throws where the specification gives a view of 6 bytes.  On a source
    that views the first 8 bytes of a 16-byte buffer, [from(source, 2, 10)]
    builds a view of 8 bytes, two of them past the end of the source, where
    the specification gives 6.  On a source that views bytes 4 to 8 of a
    16-byte buffer, [from(source)] builds a view of 12 bytes where the
    source has 4 left. *)
Theorem C6_from_length_ignores_offset :
  from (ArrayBuffer (zeros 8)) (Some 2) (Some 10) = Throw RangeError_bounds /\
  spec_from_byteLength (ArrayBuffer (zeros 8)) (Some 2) (Some 10) = 6 /\
  (exists v, from (ArrayBufferView (zeros 16) 0 8) (Some 2) (Some 10) = Ok v
             /\ super_byteOffset v = 2 /\ byteLength v = 8) /\
  spec_from_byteLength (ArrayBufferView (zeros 16) 0 8) (Some 2) (Some 10)
    = 6 /\
  (exists v, from (ArrayBufferView (zeros 16) 4 4) None None = Ok v
             /\ super_byteOffset v = 4 /\ byteLength v = 12) /\
  spec_from_byteLength (ArrayBufferView (zeros 16) 4 4) None None = 4.
Proof.
  repeat split; try reflexivity; eexists; repeat split; reflexivity.
Qed.

(** Where the specification and the code agree: on an [ArrayBuffer] with
    the offset omitted or 0 and a length given, and on an [ArrayBuffer] with
    the length omitted. *)
Lemma from_ArrayBuffer_agrees bytes off len v :
  from (ArrayBuffer bytes) off len = Ok v ->
  len = None \/ default 0 off = 0 ->
  byteLength v = spec_from_byteLength (ArrayBuffer bytes) off len.
Proof.
  intros Hv Hcase. destruct len as [n|].
  - destruct Hcase as [|H0]; [discriminate|].
    rewrite (from_length_given _ _ _ _ Hv). unfold spec_from_byteLength.
    rewrite H0. cbn [source_byteLength]. lia.
  - unfold from, new_ByteBuf in Hv. destruct (_ || _); [discriminate|].
    injection Hv as Hv; subst v. reflexivity.
Qed.

(** ** C7: a run of continuation bytes *)

Lemma continuation_bit_set b :
  0 <= b < 256 -> Z.testbit b 7 = true -> (JS.and b 128 =? 0) = false.
Proof.
  intros Hb Ht. unfold JS.and.
  rewrite (ToInt32_small b) by lia.
  rewrite (ToInt32_small 128) by lia.
  apply Z.eqb_neq. intros H0.
  assert (Hbit : Z.testbit (Z.land b 128) 7 = true).
  { rewrite Z.land_spec, Ht. reflexivity. }
  rewrite H0 in Hbit. discriminate.
Qed.

Lemma getVarInt_loop_all_continue n :
  forall byteOffset maxByteLength value k bitShift v,
  wf v -> 0 <= byteOffset + k ->
  byteOffset + k + Z.of_nat n <= byteLength v ->
  Forall (fun b => Z.testbit b 7 = true)
    (bytes_at v (byteOffset + k) (Z.of_nat n)) ->
  getVarInt_loop n byteOffset maxByteLength value k bitShift v =
    (Throw (RangeError_VarInt maxByteLength), v).
Proof.
  induction n as [|n IH]; intros off mx value k sh v Hwf H0 H1 Hall;
    [reflexivity|].
  pose proof Hwf as (Hbase & Hlen & Hfit & Hbytes).
  cbn [getVarInt_loop].
  set (p := Z.to_nat (super_byteOffset v + (off + k))).
  destruct (lookup_lt_is_Some_2 (buffer v) p) as [b Hb]; [unfold p; lia|].
  unfold bytes_at in Hall. fold p in Hall.
  replace (Z.to_nat (Z.of_nat (S n))) with (S n) in Hall by lia.
  rewrite (slice_cons _ _ _ _ Hb) in Hall.
  apply Forall_cons_1 in Hall as [Hbit Hrest].
  assert (Hrange : 0 <= b < 256).
  { rewrite Forall_lookup in Hbytes. exact (Hbytes _ _ Hb). }
  erewrite bind_Ok by (apply getUint8_in_bounds; [lia..|exact Hb]).
  rewrite (continuation_bit_set b Hrange Hbit).
  apply IH; try assumption; try lia.
  unfold bytes_at.
  replace (Z.to_nat (super_byteOffset v + (off + (k + 1)))) with (S p)
    by (unfold p; lia).
  now replace (Z.to_nat (Z.of_nat n)) with n by lia.
Qed.

(** C7.  When each of the [maxByteLength] bytes of a well-formed view that
    start at [byteOffset] has its continuation bit (0x80) set, where
    [maxByteLength] is 10 unless given, [getVarInt(byteOffset,
    maxByteLength)] throws the VarInt [RangeError] (the specification's
    LengthExceeded) and returns no result, and [readVarInt] on the view with
    its cursor at [byteOffset] throws the same error and leaves the view,
    cursor included, as it was. *)
Theorem C7_getVarInt_length_exceeded (v : ByteBuf) (byteOffset : Z)
    (maxByteLength : option Z) :
  wf v ->
  0 <= byteOffset ->
  byteOffset + default 10 maxByteLength <= byteLength v ->
  Forall (fun b => Z.testbit b 7 = true)
    (bytes_at v byteOffset (default 10 maxByteLength)) ->
  getVarInt byteOffset maxByteLength v =
    (Throw (RangeError_VarInt (default 10 maxByteLength)), v) /\
  readVarInt maxByteLength (with_cursor v byteOffset) =
    (Throw (RangeError_VarInt (default 10 maxByteLength)),
     with_cursor v byteOffset).
Proof.
  intros Hwf H0 H1 Hall.
  set (m := default 10 maxByteLength) in *.
  assert (Hget : forall w, wf w -> buffer w = buffer v ->
                   super_byteOffset w = super_byteOffset v ->
                   byteLength w = byteLength v ->
                   getVarInt byteOffset maxByteLength w =
                     (Throw (RangeError_VarInt m), w)).
  { intros w Hw Eb Es El. unfold getVarInt. fold m.
    destruct (Z.le_gt_cases 0 m) as [Hm|Hm].
    - apply getVarInt_loop_all_continue; try assumption; try lia.
      unfold bytes_at in *. rewrite Z.add_0_r, Z2Nat.id, Eb, Es by lia.
      exact Hall.
    - replace (Z.to_nat m) with O by lia. reflexivity. }
  split.
  - apply Hget; auto.
  - unfold readVarInt, cursor.
    unfold bind at 1. cbn [priv_byteOffset with_cursor].
    apply bind_Throw. apply Hget; auto.
Qed.

Lemma C7_witness :
  wf view_all_continue /\
  Forall (fun b => Z.testbit b 7 = true) (bytes_at view_all_continue 0 10) /\
  getVarInt 0 None view_all_continue =
    (Throw (RangeError_VarInt 10), view_all_continue) /\
  readVarInt None view_all_continue =
    (Throw (RangeError_VarInt 10), view_all_continue).
Proof.
  assert (Hwf : wf view_all_continue) by (apply wfb_wf; reflexivity).
  assert (Hall : Forall (fun b => Z.testbit b 7 = true)
                   (bytes_at view_all_continue 0 (default 10 None)))
    by (repeat constructor).
  assert (H0 : 0 <= 0) by lia.
  assert (H1 : 0 + default 10 None <= byteLength view_all_continue)
    by (cbn; lia).
  pose proof (C7_getVarInt_length_exceeded view_all_continue 0 None
                Hwf H0 H1 Hall) as [Hg Hr].
  exact (conj Hwf (conj Hall (conj Hg Hr))).
Defined.

(** ** C8: the requested text encoding *)

(** C8 as the specification states it fails at the encoding "utf-16le": on
    a platform whose decoder knows it, [getString] decodes the bytes and
    throws nothing. *)
Lemma C8_counterexample :
  "utf-16le"%string <> "utf-8"%string /\
  getString Encoding.TextDecoder 0 None (Some "utf-16le"%string)
    view_Hi_utf16 = (Ok [72; 105], view_Hi_utf16).
Proof. split; [discriminate | reflexivity]. Qed.

(** Takes apart every test a method makes. *)
Ltac split_tests :=
  repeat match goal with
    | |- context [if ?c then _ else _] => destruct c
    | |- context [match ?c with Some _ => _ | None => _ end] => destruct c
    end.

Lemma getUint8Array_throws off len v e :
  fst (getUint8Array off len v) = Throw e -> e = RangeError_bounds.
Proof.
  unfold getUint8Array, super_offset, bind, new_TypedArray.
  split_tests; cbn [fst]; congruence.
Qed.

Lemma getUint8Array_state off len v : snd (getUint8Array off len v) = v.
Proof.
  unfold getUint8Array, super_offset, bind, new_TypedArray.
  split_tests; reflexivity.
Qed.

(** The guard of [setString] compares the strings themselves. *)
Lemma setString_guard off value label v :
  label <> ""%string -> label <> "utf-8"%string ->
  setString off value (Some label) v = (Throw (TypeError_encoding label), v).
Proof.
  intros Hne Hutf. unfold setString.
  destruct label as [|a s]; [congruence|].
  destruct (String.eqb_spec (String a s) "utf-8") as [E|E]; [congruence|].
  reflexivity.
Qed.

(** So a label of UTF-8 other than "utf-8" itself, such as "UTF-8" or
    "utf8", is refused by [setString], although [getString] takes it for
    UTF-8. *)
Lemma setString_guard_refuses_other_labels_of_UTF8 :
  names_utf8 "UTF-8" = true /\ names_utf8 "utf8" = true /\
  setString 0 [72; 105] (Some "UTF-8"%string) view_Hi_utf16
    = (Throw (TypeError_encoding "UTF-8"), view_Hi_utf16) /\
  setString 0 [72; 105] (Some "utf8"%string) view_Hi_utf16
    = (Throw (TypeError_encoding "utf8"), view_Hi_utf16) /\
  getString Encoding.TextDecoder 0 (Some 2) (Some "UTF-8"%string)
    view_Hi_utf16 = (Ok [72; 0], view_Hi_utf16).
Proof. repeat split; reflexivity. Qed.

(** With a label the decoder knows and a byte length whose range lies in
    the buffer, [getString] returns the decoding of exactly those bytes. *)
Lemma getString_decodes dec off n enc v decode :
  dec (JS.string_or enc "utf-8") = Some decode ->
  0 <= super_byteOffset v + off -> 0 <= n ->
  super_byteOffset v + off + n <= Z.of_nat (length (buffer v)) ->
  getString dec off (Some n) enc v = (Ok (decode (bytes_at v off n)), v).
Proof.
  intros Hdec H0 Hn H1. unfold getString, new_TextDecoder. rewrite Hdec.
  cbv iota. rewrite (bind_Ok (ret decode) _ _ _ _ eq_refl).
  assert (Ha : getUint8Array off (Some n) v =
               (Ok {| TypedArray.byteOffset := super_byteOffset v + off;
                      TypedArray.byteLength := n |}, v)).
  { unfold getUint8Array, super_offset, bind, new_TypedArray.
    rewrite Z.mod_1_r, Z.mul_1_r. cbn [Z.eqb negb orb].
    destruct (super_byteOffset v + off <? 0) eqn:E0; [lia|].
    destruct ((n <? 0) || _) eqn:E1; [lia | reflexivity]. }
  rewrite (bind_Ok _ _ _ _ _ Ha). reflexivity.
Qed.

(** C8, amended.  [setString] throws the encoding [TypeError] (the
    specification's UnsupportedEncoding), and writes nothing, for every
    non-empty requested encoding that does not name UTF-8; with "utf-8",
    with the empty string or with the argument omitted it never throws that
    error.  [getString] never throws that error: it hands the label, "utf-8"
    when the argument is omitted or empty, to the platform's [TextDecoder].
    When the decoder knows the label, [getString] with a byte length whose
    range lies in the buffer returns what the decoder the label names makes
    of exactly the bytes from the offset on; it throws the decoder's
    [RangeError] exactly when the decoder does not know the label, and any
    other failure is the bounds error of the array. *)
Theorem C8_encoding_guard (dec : string -> option (list Z -> jsstring))
    (v : ByteBuf) (off : Z) (len : option Z) (value : jsstring) :
  (forall label : string,
     label <> ""%string -> names_utf8 label = false ->
     setString off value (Some label) v
       = (Throw (TypeError_encoding label), v)) /\
  (forall byteEncoding e,
     byteEncoding = None \/ byteEncoding = Some ""%string
     \/ byteEncoding = Some "utf-8"%string ->
     fst (setString off value byteEncoding v)
       <> Throw (TypeError_encoding e)) /\
  (forall byteEncoding e,
     fst (getString dec off len byteEncoding v)
       <> Throw (TypeError_encoding e)) /\
  (forall byteEncoding decode n,
     dec (JS.string_or byteEncoding "utf-8") = Some decode ->
     0 <= super_byteOffset v + off -> 0 <= n ->
     super_byteOffset v + off + n <= Z.of_nat (length (buffer v)) ->
     getString dec off (Some n) byteEncoding v
       = (Ok (decode (bytes_at v off n)), v)) /\
  (forall byteEncoding,
     let label := JS.string_or byteEncoding "utf-8" in
     dec label = None <->
     getString dec off len byteEncoding v
       = (Throw (RangeError_label label), v)) /\
  (forall byteEncoding e,
     fst (getString dec off len byteEncoding v) = Throw e ->
     e = RangeError_label (JS.string_or byteEncoding "utf-8")
     \/ e = RangeError_bounds).
Proof.
  assert (Hget : forall byteEncoding e,
            fst (getString dec off len byteEncoding v) = Throw e
            -> e = RangeError_label (JS.string_or byteEncoding "utf-8")
                 /\ dec (JS.string_or byteEncoding "utf-8") = None
               \/ e = RangeError_bounds).
  { intros enc e. unfold getString, new_TextDecoder.
    destruct (dec _) as [decode|].
    - unfold bind at 1. unfold ret at 1.
      pose proof (getUint8Array_throws off len v) as Ht.
      unfold bind, contents, ret.
      destruct (getUint8Array _ _ v) as [[a|e'] v1]; cbn [fst] in *;
        [discriminate|].
      intros H; inversion H; subst. right. now apply Ht.
    - cbn. intros H; inversion H; subst. left. auto. }
  split; [|split; [|split; [|split; [|split]]]].
  - intros label Hne Hother. apply setString_guard; [exact Hne|].
    intros ->. discriminate Hother.
  - intros enc e Henc.
    assert (Hguard : setString off value enc v
              = setString off value None v).
    { destruct Henc as [-> | [-> | ->]]; reflexivity. }
    rewrite Hguard. clear Hguard Henc.
    unfold setString, encodeInto, this_byteLength, getUint8Array,
      super_offset, new_TypedArray, TypedArray_set, bind, ret.
    split_tests; cbn [fst]; congruence.
  - intros enc e H. apply Hget in H as [[H _] | H]; discriminate.
  - intros enc decode n. apply getString_decodes.
  - intros enc label. split.
    + intros Hnone. unfold getString, new_TextDecoder. fold label.
      now rewrite Hnone.
    + intros H.
      assert (H' : fst (getString dec off len enc v)
                   = Throw (RangeError_label label)) by now rewrite H.
      apply Hget in H' as [[_ Hd] | Hd]; [exact Hd | discriminate].
  - intros enc e H. apply Hget in H as [[H _] | H]; auto.
Qed.

Lemma C8_witness :
  "latin1"%string <> ""%string /\ names_utf8 "latin1" = false /\
  setString 0 [72; 105] (Some "latin1"%string) view_Hi_utf16
    = (Throw (TypeError_encoding "latin1"), view_Hi_utf16) /\
  fst (setString 0 [72; 105] (Some "utf-8"%string) view_Hi_utf16)
    <> Throw (TypeError_encoding "utf-8") /\
  getString Encoding.TextDecoder 0 (Some 4) (Some "utf-16le"%string)
    view_Hi_utf16
    = (Ok (Encoding.utf16le_decode (bytes_at view_Hi_utf16 0 4)),
       view_Hi_utf16) /\
  Encoding.utf16le_decode (bytes_at view_Hi_utf16 0 4) = [72; 105].
Proof.
  destruct (C8_encoding_guard Encoding.TextDecoder view_Hi_utf16 0 None
              [72; 105]) as (Hbad & Hgood & _ & Hdec & _ & _).
  assert (H1 : "latin1"%string <> ""%string) by discriminate.
  assert (H2 : names_utf8 "latin1" = false) by reflexivity.
  refine (conj H1 (conj H2 (conj (Hbad _ H1 H2) (conj (Hgood _ _ _) _)))).
  - right; right; reflexivity.
  - split; [|reflexivity].
    apply (Hdec (Some "utf-16le"%string) Encoding.utf16le_decode 4);
      [reflexivity | cbn; lia | lia | cbn; lia].
Defined.

(** ** C9: how far [getUint8Array] and [getString] reach without a length *)

(** C9 at a two-byte view of a four-byte buffer: [getUint8Array(0)] covers
    four bytes and [getString(0)] decodes four, where the view has two. *)
Theorem C9_omitted_length_runs_to_buffer_end :
  from (ArrayBuffer [97; 98; 99; 100]) (Some 0) (Some 2) = Ok view_0_2 /\
  byteLength view_0_2 - 0 = 2 /\
  fst (getUint8Array 0 None view_0_2) =
    Ok {| TypedArray.byteOffset := 0; TypedArray.byteLength := 4 |} /\
  fst (getString Encoding.TextDecoder 0 None None view_0_2) =
    Ok [97; 98; 99; 100].
Proof. repeat split. Qed.

(** ** C10: the cursor after a failed fixed-width read *)

Lemma GetViewValue_out_of_range v (size : nat) :
  out_of_range v (Z.of_nat size) ->
  forall w, byteLength w = byteLength v ->
  GetViewValue (priv_byteOffset v) size w = (Throw RangeError_bounds, w).
Proof.
  intros H w Hw. unfold GetViewValue. rewrite Hw.
  destruct ((priv_byteOffset v <? 0)
            || (byteLength v <? priv_byteOffset v + Z.of_nat size)) eqn:E;
    [reflexivity|].
  unfold out_of_range in H. lia.
Qed.

Ltac failed_read H :=
  unfold read_then_advance, cursor, cursor_post_incr, DataView.getInt,
    DataView.getUint;
  unfold bind at 1;
  repeat (apply bind_Throw);
  apply (GetViewValue_out_of_range _ _ H); reflexivity.

(** C10.  When the fixed-width access at the cursor lies outside the view,
    every multi-byte streaming read ([readInt16], [readUint16], [readInt32],
    [readUint32], [readFloat32], [readFloat64], [readInt64], [readUint64],
    [readBigInt64], [readBigUint64]) throws and leaves the view, cursor
    included, unchanged, while every one-byte read ([readBool], [readInt8],
    [readUint8]) throws with the cursor already advanced by 1. *)
Theorem C10_cursor_after_failed_read (v : ByteBuf) (littleEndian : bool) :
  (out_of_range v 2 ->
     readInt16 littleEndian v = (Throw RangeError_bounds, v) /\
     readUint16 littleEndian v = (Throw RangeError_bounds, v)) /\
  (out_of_range v 4 ->
     readInt32 littleEndian v = (Throw RangeError_bounds, v) /\
     readUint32 littleEndian v = (Throw RangeError_bounds, v) /\
     readFloat32 littleEndian v = (Throw RangeError_bounds, v)) /\
  (out_of_range v 8 ->
     readFloat64 littleEndian v = (Throw RangeError_bounds, v) /\
     readInt64 littleEndian v = (Throw RangeError_bounds, v) /\
     readUint64 littleEndian v = (Throw RangeError_bounds, v) /\
     readBigInt64 littleEndian v = (Throw RangeError_bounds, v) /\
     readBigUint64 littleEndian v = (Throw RangeError_bounds, v)) /\
  (out_of_range v 1 ->
     readBool v =
       (Throw RangeError_bounds, with_cursor v (priv_byteOffset v + 1)) /\
     readInt8 v =
       (Throw RangeError_bounds, with_cursor v (priv_byteOffset v + 1)) /\
     readUint8 v =
       (Throw RangeError_bounds, with_cursor v (priv_byteOffset v + 1))).
Proof.
  split; [|split; [|split]]; intros H.
  - change 2 with (Z.of_nat 2) in H.
    split; [unfold readInt16, getInt16 | unfold readUint16, getUint16];
      failed_read H.
  - change 4 with (Z.of_nat 4) in H.
    split; [|split];
      [unfold readInt32, getInt32 | unfold readUint32, getUint32
      | unfold readFloat32, getFloat32];
      failed_read H.
  - change 8 with (Z.of_nat 8) in H.
    split; [|split; [|split; [|split]]];
      [unfold readFloat64, getFloat64
      | unfold readInt64, getInt64, getBigInt64
      | unfold readUint64, getUint64, getBigUint64
      | unfold readBigInt64, getBigInt64
      | unfold readBigUint64, getBigUint64];
      failed_read H.
  - change 1 with (Z.of_nat 1) in H.
    split; [|split];
      [unfold readBool, getInt8 | unfold readInt8, getInt8
      | unfold readUint8, getUint8];
      failed_read H.
Qed.

Lemma C10_witness :
  out_of_range view_at_end 2 /\ out_of_range view_at_end 1 /\
  readInt16 false view_at_end = (Throw RangeError_bounds, view_at_end) /\
  priv_byteOffset (snd (readInt16 false view_at_end)) = 4 /\
  priv_byteOffset (snd (readUint8 view_at_end)) = 5.
Proof.
  assert (H2 : out_of_range view_at_end 2) by (right; cbn; lia).
  assert (H1 : out_of_range view_at_end 1) by (right; cbn; lia).
  destruct (C10_cursor_after_failed_read view_at_end false)
    as (M2 & _ & _ & M1).
  destruct (M2 H2) as [E16 _]. destruct (M1 H1) as (_ & _ & E8).
  refine (conj H2 (conj H1 (conj E16 (conj _ _)))).
  - rewrite E16. reflexivity.
  - rewrite E8. reflexivity.
Defined.

(** * Further properties of the class *)

(** ** Variable-length integers, for every value *)

Ltac Zify.zify_post_hook ::= Z.to_euclidean_division_equations.

Lemma ToUint32_ToInt32 z : JS.ToUint32 (JS.ToInt32 z) = JS.ToUint32 z.
Proof. unfold JS.ToInt32, JS.ToUint32. lia. Qed.

Lemma ToUint32_range z : 0 <= JS.ToUint32 z < 2 ^ 32.
Proof. unfold JS.ToUint32. lia. Qed.

Lemma shr_0 z : JS.shr z 0 = JS.ToUint32 z.
Proof.
  unfold JS.shr. change (JS.ToUint32 0 mod 32) with 0. apply Z.shiftr_0_r.
Qed.

(** A value of at least [128^m] takes more than [m] groups. *)
Lemma length_spec_groups_lower m : forall n u,
  (m < n)%nat -> 128 ^ Z.of_nat m <= u ->
  (S m <= length (spec_base128_groups n u))%nat.
Proof.
  induction m as [|m IH]; intros n u Hn Hu;
    (destruct n as [|n]; [lia|]); rewrite spec_base128_groups_S;
    destruct (u / 128 =? 0) eqn:E; cbn [length]; try lia.
  - rewrite Nat2Z.inj_succ, Z.pow_succ_r in Hu by lia.
    assert (0 < 128 ^ Z.of_nat m) by (apply Z.pow_pos_nonneg; lia). lia.
  - rewrite Nat2Z.inj_succ, Z.pow_succ_r in Hu by lia.
    specialize (IH n (u / 128)). 
    assert (128 ^ Z.of_nat m <= u / 128) by lia. lia.
Qed.

(** The number of groups of a 32-bit value is its number of base-128
    digits. *)
Lemma length_spec_groups_iff u m :
  0 <= u < 2 ^ 32 -> (m < 10)%nat ->
  (length (spec_base128_groups 10 u) <= S m)%nat
  <-> u < 128 ^ Z.of_nat (S m).
Proof.
  intros Hu Hm. split.
  - intros Hlen. destruct (Z.lt_ge_cases u (128 ^ Z.of_nat (S m))) as [|Hge];
      [assumption|].
    assert (Hpow : 2 ^ 32 <= 128 ^ Z.of_nat (S m) \/ (S m < 10)%nat).
    { destruct (Nat.eq_dec m 9%nat) as [-> | Hne]; [left | right; lia].
      change (128 ^ Z.of_nat 10) with (2 ^ 70). lia. }
    destruct Hpow as [Hpow | Hlt]; [lia|].
    pose proof (length_spec_groups_lower (S m) 10 u Hlt Hge). lia.
  - intros Hlt. apply (length_spec_groups 9 m u). lia.
Qed.

(** [setVarInt] writes the groups of the value taken as unsigned. *)
Lemma setVarInt_encodes v off value :
  let bs := spec_base128_groups 10 (JS.ToUint32 value) in
  wf v -> 0 <= off -> off + Z.of_nat (length bs) <= byteLength v ->
  (1 <= length bs <= 5)%nat /\
  setVarInt off value None v = (Ok (Z.of_nat (length bs)), written v off bs).
Proof.
  intros bs (Hbase & Hlen & Hfit & _) H0 H1.
  pose proof (ToUint32_range value) as Hu.
  set (u := JS.ToUint32 value) in *.
  assert (Hk : (1 <= length bs <= 5)%nat).
  { apply (length_spec_groups 9 4 u). change (128 ^ Z.of_nat 5) with (2 ^ 35).
    lia. }
  assert (Henc : encode_groups 10 value = Some bs).
  { rewrite encode_groups_ToUint32. apply encode_groups_spec; [exact Hu|].
    change (128 ^ Z.of_nat 10) with (2 ^ 70). lia. }
  split; [exact Hk|].
  unfold setVarInt. cbn [default].
  rewrite (setVarInt_loop_encode _ _ _ _ _ _ bs Henc) by lia.
  unfold written. do 2 f_equal. lia.
Qed.

(** [getVarInt] and [getVarUint] on a view that holds the groups of [u] at
    [off]. *)
Lemma getVarInt_reads_groups v off u :
  let g := spec_base128_groups 10 u in
  0 <= u < 2 ^ 32 ->
  0 <= super_byteOffset v -> 0 <= off ->
  off + Z.of_nat (length g) <= byteLength v ->
  bytes_at v off (Z.of_nat (length g)) = g ->
  getVarInt off None v =
    (Ok {| IntResult.value := JS.ToInt32 u;
           IntResult.byteLength := Z.of_nat (length g) |}, v).
Proof.
  intros g Hu Hb H0 H1 Hbytes.
  assert (Hdec : decode_groups 10 g 0 0 0 =
                   Some {| IntResult.value := JS.ToInt32 u;
                           IntResult.byteLength := Z.of_nat (length g) |}).
  { assert (A1 : (10 <= 10)%nat) by lia.
    assert (A2 : 0 <= 0 < 32) by lia.
    assert (A3 : 0 <= 0 < 2 ^ 0) by lia.
    assert (A4 : 0 <= u) by lia.
    assert (A5 : 0 + u * 2 ^ 0 < 2 ^ 32) by lia.
    destruct (decode_groups_spec 9 10 u 0 0 0 A1 A2 A3 A4 A5) as [Hd|Hbig].
    - fold g in Hd. rewrite Hd. do 2 f_equal.
      replace (0 + u * 2 ^ 0) with u by lia. reflexivity.
    - change (128 ^ Z.of_nat 10) with (2 ^ 70) in Hbig. lia. }
  unfold getVarInt. cbn [default].
  apply (getVarInt_loop_decode _ g).
  - exact Hdec.
  - exact Hb.
  - lia.
  - lia.
  - rewrite Z.add_0_r. exact Hbytes.
Qed.

Lemma getVarUint_reads_groups v off u :
  let g := spec_base128_groups 10 u in
  0 <= u < 2 ^ 32 ->
  0 <= super_byteOffset v -> 0 <= off ->
  off + Z.of_nat (length g) <= byteLength v ->
  bytes_at v off (Z.of_nat (length g)) = g ->
  getVarUint off None v =
    (Ok {| IntResult.value := u;
           IntResult.byteLength := Z.of_nat (length g) |}, v).
Proof.
  intros g Hu Hb H0 H1 Hbytes.
  unfold getVarUint.
  rewrite (bind_Ok _ _ _ _ _
             (getVarInt_reads_groups v off u Hu Hb H0 H1 Hbytes)).
  unfold ret. cbn [IntResult.value IntResult.byteLength].
  rewrite shr_0, ToUint32_ToInt32. unfold JS.ToUint32.
  rewrite Z.mod_small by lia. reflexivity.
Qed.

(** The groups read back from where they were written. *)
Lemma bytes_at_written v off bs :
  0 <= super_byteOffset v + off ->
  super_byteOffset v + off + Z.of_nat (length bs)
  <= Z.of_nat (length (buffer v)) ->
  bytes_at (written v off bs) off (Z.of_nat (length bs)) = bs.
Proof.
  intros H0 H1. unfold bytes_at, written.
  cbn [buffer super_byteOffset with_buffer].
  rewrite Nat2Z.id. apply slice_store. lia.
Qed.

Lemma written_written_adjacent v off a b :
  0 <= super_byteOffset v + off ->
  super_byteOffset v + off + Z.of_nat (length a) + Z.of_nat (length b)
  <= Z.of_nat (length (buffer v)) ->
  written (written v off a) (off + Z.of_nat (length a)) b
  = written v off (a ++ b).
Proof.
  intros H0 H1. unfold written, with_buffer.
  cbn [buffer super_byteOffset byteLength priv_byteOffset]. f_equal.
  replace (Z.to_nat (super_byteOffset v + (off + Z.of_nat (length a))))
    with (Z.to_nat (super_byteOffset v + off) + length a)%nat by lia.
  apply store_store_adjacent. lia.
Qed.

(** X1.  [setVarInt] of any number writes the little-endian base-128 groups
    of the number taken as an unsigned 32-bit integer, one to five bytes,
    and returns their count; [getVarInt] then reads the number as a signed
    32-bit integer and [getVarUint] as an unsigned one, with the same count. *)
Theorem setVarInt_writes_base128_groups (v : ByteBuf) (byteOffset value : Z) :
  let bs := spec_base128_groups 10 (JS.ToUint32 value) in
  let v' := written v byteOffset bs in
  wf v -> 0 <= byteOffset ->
  byteOffset + Z.of_nat (length bs) <= byteLength v ->
  (1 <= length bs <= 5)%nat /\
  setVarInt byteOffset value None v = (Ok (Z.of_nat (length bs)), v') /\
  getVarInt byteOffset None v' =
    (Ok {| IntResult.value := JS.ToInt32 value;
           IntResult.byteLength := Z.of_nat (length bs) |}, v') /\
  getVarUint byteOffset None v' =
    (Ok {| IntResult.value := JS.ToUint32 value;
           IntResult.byteLength := Z.of_nat (length bs) |}, v').
Proof.
  intros bs v' Hwf H0 H1.
  pose proof Hwf as (Hb & Hl & Hf & _).
  destruct (setVarInt_encodes v byteOffset value Hwf H0 H1) as [Hk Hs].
  pose proof (bytes_at_written v byteOffset bs ltac:(lia) ltac:(lia)) as Hat.
  split; [exact Hk|]. split; [exact Hs|]. split.
  - rewrite <- (ToInt32_ToUint32 value).
    apply getVarInt_reads_groups;
      [apply ToUint32_range | exact Hb | exact H0 | exact H1 | exact Hat].
  - apply getVarUint_reads_groups;
      [apply ToUint32_range | exact Hb | exact H0 | exact H1 | exact Hat].
Qed.

Lemma setVarInt_writes_base128_groups_witness :
  wf view_3_5 /\
  setVarInt 2 300 None view_3_5 =
    (Ok 2, with_buffer view_3_5 [0; 0; 0; 0; 0; 172; 2; 0]) /\
  getVarUint 2 None (with_buffer view_3_5 [0; 0; 0; 0; 0; 172; 2; 0]) =
    (Ok {| IntResult.value := 300; IntResult.byteLength := 2 |},
     with_buffer view_3_5 [0; 0; 0; 0; 0; 172; 2; 0]).
Proof.
  assert (Hwf : wf view_3_5) by (apply wfb_wf; reflexivity).
  assert (H0 : 0 <= 2) by lia.
  assert (H1 : 2 + Z.of_nat (length (spec_base128_groups 10
                                       (JS.ToUint32 300)))
               <= byteLength view_3_5) by (vm_compute; congruence).
  destruct (setVarInt_writes_base128_groups view_3_5 2 300 Hwf H0 H1)
    as (_ & Hs & _ & Hu).
  exact (conj Hwf (conj Hs Hu)).
Defined.

(** X2.  The unsigned and the signed round trips: [setVarUint] then
    [getVarUint] returns every unsigned 32-bit value, [setVarInt] then
    [getVarInt] every signed one, and a negative value always takes five
    bytes. *)
Theorem varint_round_trips (v : ByteBuf) (byteOffset n : Z) :
  wf v -> 0 <= byteOffset -> byteOffset + 5 <= byteLength v ->
  (0 <= n < 2 ^ 32 ->
   exists k v', 1 <= k <= 5 /\
     setVarUint byteOffset n None v = (Ok k, v') /\
     getVarUint byteOffset None v' =
       (Ok {| IntResult.value := n; IntResult.byteLength := k |}, v')) /\
  (- 2 ^ 31 <= n < 2 ^ 31 ->
   exists k v', 1 <= k <= 5 /\ (n < 0 -> k = 5) /\
     setVarInt byteOffset n None v = (Ok k, v') /\
     getVarInt byteOffset None v' =
       (Ok {| IntResult.value := n; IntResult.byteLength := k |}, v')).
Proof.
  intros Hwf H0 H1.
  pose proof Hwf as (Hb & Hl & Hf & _).
  pose proof (ToUint32_range n) as Hu.
  set (bs := spec_base128_groups 10 (JS.ToUint32 n)).
  assert (Hlen : (1 <= length bs <= 5)%nat).
  { apply (length_spec_groups 9 4).
    change (128 ^ Z.of_nat 5) with (2 ^ 35). lia. }
  assert (Hfit : byteOffset + Z.of_nat (length bs) <= byteLength v) by lia.
  destruct (setVarInt_encodes v byteOffset n Hwf H0 Hfit) as [_ Hs].
  fold bs in Hs.
  pose proof (bytes_at_written v byteOffset bs ltac:(lia) ltac:(lia)) as Hat.
  split; intros Hn.
  - exists (Z.of_nat (length bs)), (written v byteOffset bs).
    split; [lia|]. split.
    + unfold setVarUint. rewrite shr_0, ToUint32_small by lia. exact Hs.
    + rewrite <- (ToUint32_small n) at 1 by lia.
      apply getVarUint_reads_groups;
        [exact Hu | exact Hb | exact H0 | exact Hfit | exact Hat].
  - exists (Z.of_nat (length bs)), (written v byteOffset bs).
    split; [lia|]. split; [|split].
    + intros Hneg.
      assert (Hun : JS.ToUint32 n = n + 2 ^ 32) by (unfold JS.ToUint32; lia).
      assert (Hl5 : (5 <= length bs)%nat).
      { apply (length_spec_groups_lower 4 10); [lia|].
        change (128 ^ Z.of_nat 4) with (2 ^ 28). lia. }
      lia.
    + exact Hs.
    + rewrite <- (ToInt32_small n) at 1 by lia.
      rewrite <- (ToInt32_ToUint32 n).
      apply getVarInt_reads_groups;
        [exact Hu | exact Hb | exact H0 | exact Hfit | exact Hat].
Qed.

Lemma varint_round_trips_witness :
  wf view_8 /\
  (exists k v', 1 <= k <= 5 /\
     setVarUint 0 4294967295 None view_8 = (Ok k, v') /\
     getVarUint 0 None v' =
       (Ok {| IntResult.value := 4294967295; IntResult.byteLength := k |},
        v')) /\
  (exists k v', 1 <= k <= 5 /\ (-7 < 0 -> k = 5) /\
     setVarInt 0 (-7) None view_8 = (Ok k, v') /\
     getVarInt 0 None v' =
       (Ok {| IntResult.value := -7; IntResult.byteLength := k |}, v')).
Proof.
  assert (Hwf : wf view_8) by (apply wfb_wf; reflexivity).
  assert (H0 : 0 <= 0) by lia.
  assert (H1 : 0 + 5 <= byteLength view_8) by (cbn; lia).
  destruct (varint_round_trips view_8 0 4294967295 Hwf H0 H1) as [Hu _].
  destruct (varint_round_trips view_8 0 (-7) Hwf H0 H1) as [_ Hs].
  exact (conj Hwf (conj (Hu ltac:(lia)) (Hs ltac:(lia)))).
Defined.

Ltac Zify.zify_post_hook ::= idtac.

(** ** The zigzag encoding *)

Ltac Zify.zify_post_hook ::= Z.to_euclidean_division_equations.

(** What [setVarZint] hands to [setVarInt], as an unsigned number: the
    signed integers interleaved, 0, -1, 1, -2, ... to 0, 1, 2, 3, ... *)
Lemma zigzag_unsigned n :
  - 2 ^ 31 <= n < 2 ^ 31 ->
  JS.ToUint32 (zigzag n) = if n <? 0 then - 2 * n - 1 else 2 * n.
Proof.
  intros Hn. unfold zigzag.
  rewrite sar_div, shl_1, (ToInt32_small n) by lia.
  assert (Hcase : (n < - 2 ^ 30 \/ - 2 ^ 30 <= n < 0)
                  \/ (0 <= n < 2 ^ 30 \/ 2 ^ 30 <= n)) by lia.
  destruct Hcase as [[H|H]|[H|H]].
  - replace (n / 2 ^ 31) with (-1) by lia.
    replace (JS.ToInt32 (2 * n)) with (2 * n + 2 ^ 32)
      by (rewrite <- (ToInt32_congr (2 * n) 1), ToInt32_small; lia).
    rewrite (xor_m1_l (2 * n + 2 ^ 32)) by lia.
    destruct (n <? 0) eqn:E; [|lia]. unfold JS.ToUint32. lia.
  - replace (n / 2 ^ 31) with (-1) by lia.
    rewrite (ToInt32_small (2 * n)) by lia.
    rewrite (xor_m1_l (2 * n)) by lia.
    destruct (n <? 0) eqn:E; [|lia]. unfold JS.ToUint32. lia.
  - replace (n / 2 ^ 31) with 0 by lia.
    rewrite (ToInt32_small (2 * n)) by lia.
    rewrite (xor_0_l (2 * n)) by lia.
    destruct (n <? 0) eqn:E; [lia|]. unfold JS.ToUint32. lia.
  - replace (n / 2 ^ 31) with 0 by lia.
    replace (JS.ToInt32 (2 * n)) with (2 * n - 2 ^ 32)
      by (rewrite <- (ToInt32_congr (2 * n) (-1)), ToInt32_small; lia).
    rewrite (xor_0_l (2 * n - 2 ^ 32)) by lia.
    destruct (n <? 0) eqn:E; [lia|]. unfold JS.ToUint32. lia.
Qed.

(** X3.  [setVarZint] of a signed 32-bit integer [n] writes the base-128
    groups of its zigzag number, [2n] for a non-negative [n] and [-2n - 1]
    for a negative one: the encoder is right on the whole signed range, and
    a value from -64 to 63 takes one byte.  [getVarZint] reads [n] back when
    [-2^30 <= n < 2^30]. *)
Theorem setVarZint_writes_zigzag_groups (v : ByteBuf) (off n : Z) :
  let z := if n <? 0 then - 2 * n - 1 else 2 * n in
  let g := spec_base128_groups 10 z in
  wf v -> 0 <= off -> - 2 ^ 31 <= n < 2 ^ 31 ->
  off + Z.of_nat (length g) <= byteLength v ->
  setVarZint off n None v = (Ok (Z.of_nat (length g)), written v off g) /\
  (-64 <= n < 64 -> length g = 1%nat) /\
  (- 2 ^ 30 <= n < 2 ^ 30 ->
   getVarZint off None (written v off g) =
     (Ok {| IntResult.value := n;
            IntResult.byteLength := Z.of_nat (length g) |},
      written v off g)).
Proof.
  intros z g Hwf H0 Hn Hfit.
  pose proof Hwf as (Hb & Hl & Hf & _).
  pose proof (zigzag_unsigned n Hn) as Hz. fold z in Hz.
  assert (Hzr : 0 <= z < 2 ^ 32) by (rewrite <- Hz; apply ToUint32_range).
  split; [|split].
  - rewrite setVarZint_zigzag.
    destruct (setVarInt_encodes v off (zigzag n) Hwf H0) as [_ Hs].
    + rewrite Hz. exact Hfit.
    + rewrite Hz in Hs. exact Hs.
  - intros Hsmall.
    assert (Hz1 : 0 <= z < 128 ^ Z.of_nat 1).
    { change (128 ^ Z.of_nat 1) with 128. subst z.
      destruct (n <? 0) eqn:E; lia. }
    pose proof (length_spec_groups 9 0 z Hz1) as Hlen. fold g in Hlen. lia.
  - intros Hin.
    pose proof (getVarInt_reads_groups (written v off g) off z Hzr Hb H0 Hfit
                  (bytes_at_written v off g ltac:(lia) ltac:(lia))) as Hg.
    assert (Hval : unzigzag (JS.ToInt32 z) = n).
    { rewrite <- Hz, ToInt32_ToUint32, (unzigzag_zigzag n Hn).
      destruct ((- 2 ^ 30 <=? n) && (n <? 2 ^ 30)) eqn:E;
        [reflexivity | lia]. }
    rewrite (getVarZint_unzigzag _ _ _ _ _ Hg).
    cbn [IntResult.value IntResult.byteLength].
    rewrite Hval. reflexivity.
Qed.

Ltac Zify.zify_post_hook ::= idtac.

Lemma setVarZint_writes_zigzag_groups_witness :
  setVarZint 0 (-64) None view_8
  = (Ok 1, with_buffer view_8 [127; 0; 0; 0; 0; 0; 0; 0]) /\
  getVarZint 0 None (with_buffer view_8 [127; 0; 0; 0; 0; 0; 0; 0])
  = (Ok {| IntResult.value := -64; IntResult.byteLength := 1 |},
     with_buffer view_8 [127; 0; 0; 0; 0; 0; 0; 0]).
Proof.
  assert (Hwf : wf view_8) by (apply wfb_wf; reflexivity).
  destruct (setVarZint_writes_zigzag_groups view_8 0 (-64) Hwf ltac:(lia)
              ltac:(lia) ltac:(vm_compute; congruence)) as (Hs & _ & Hg).
  exact (conj Hs (Hg ltac:(lia))).
Defined.

(** ** The maximum byte length of a variable-length integer *)

Lemma written_nil v off : written v off [] = v.
Proof.
  unfold written, store. cbn [length app]. rewrite Nat.add_0_r, take_drop.
  destruct v; reflexivity.
Qed.

Ltac Zify.zify_post_hook ::= Z.to_euclidean_division_equations.

Lemma setVarInt_loop_ToUint32 n off value mx k :
  setVarInt_loop n off value mx k
  = setVarInt_loop n off (JS.ToUint32 value) mx k.
Proof.
  destruct n as [|n]; [reflexivity|]. cbn [setVarInt_loop].
  now rewrite !and_127, !shr_7, ToUint32_idem.
Qed.

(** With fewer turns than the value has groups, the loop of [setVarInt]
    writes one group a turn, each with its continuation bit, and throws. *)
Lemma setVarInt_loop_exceeds n : forall f off u mx k v,
  (n < f)%nat -> 0 <= u < 2 ^ 32 -> 128 ^ Z.of_nat n <= u ->
  0 <= super_byteOffset v -> 0 <= off ->
  off + Z.of_nat n <= byteLength v ->
  super_byteOffset v + byteLength v <= Z.of_nat (length (buffer v)) ->
  setVarInt_loop n off u mx k v =
    (Throw (RangeError_VarInt mx),
     written v off (take n (spec_base128_groups f u))).
Proof.
  induction n as [|n IH]; intros f off u mx k v Hf Hu Hbig Hb H0 H1 Hext.
  - cbn [setVarInt_loop take]. now rewrite written_nil.
  - destruct f as [|f]; [lia|].
    rewrite Nat2Z.inj_succ, Z.pow_succ_r in Hbig by lia.
    assert (0 < 128 ^ Z.of_nat n) by (apply Z.pow_pos_nonneg; lia).
    rewrite spec_base128_groups_S.
    destruct (u / 128 =? 0) eqn:E; [lia|].
    cbn [setVarInt_loop take].
    rewrite and_127, shr_7, ToUint32_small by lia. rewrite E. cbn [negb].
    rewrite or_128 by lia.
    rewrite (bind_Ok _ _ _ _ _
               (setUint8_in_bounds off (128 + u mod 128) v H0 ltac:(lia))).
    replace ((128 + u mod 128) mod 256) with (128 + u mod 128) by lia.
    fold (written v off [128 + u mod 128]).
    rewrite (IH f (off + 1) (u / 128) mx (k + 1)
               (written v off [128 + u mod 128])); try lia.
    + f_equal.
      apply (written_written_adjacent v off [128 + u mod 128]);
        cbn [length]; try lia.
      rewrite length_take. lia.
    + unfold written. cbn [super_byteOffset with_buffer]. exact Hb.
    + unfold written. cbn [byteLength with_buffer]. lia.
    + unfold written. cbn [buffer super_byteOffset byteLength with_buffer].
      rewrite length_store by (cbn [length]; lia). exact Hext.
Qed.

(** X4.  The maximum byte length given to [getVarInt] and [setVarInt] bounds
    the turns of their loops.  With a maximum of zero or less, each throws
    the VarInt error at once: nothing is read, nothing is written.  When the
    value has more groups than the maximum allows, [setVarInt] has already
    written one group for each turn, continuation bit set, when it throws:
    the bytes stay in the buffer, and [writeVarInt] leaves the cursor where
    it was. *)
Theorem varint_maxByteLength (v : ByteBuf) (off value m : Z) :
  let u := JS.ToUint32 value in
  let partial :=
    written v off (take (Z.to_nat m) (spec_base128_groups 10 u)) in
  (m <= 0 ->
   getVarInt off (Some m) v = (Throw (RangeError_VarInt m), v) /\
   setVarInt off value (Some m) v = (Throw (RangeError_VarInt m), v)) /\
  (wf v -> 0 <= off -> off + m <= byteLength v ->
   1 <= m -> 128 ^ m <= u ->
   setVarInt off value (Some m) v = (Throw (RangeError_VarInt m), partial) /\
   (off = priv_byteOffset v ->
    writeVarInt value (Some m) v = (Throw (RangeError_VarInt m), partial) /\
    priv_byteOffset partial = priv_byteOffset v)).
Proof.
  intros u partial. split.
  - intros Hm. unfold getVarInt, setVarInt.
    change (default 10 (Some m)) with m.
    replace (Z.to_nat m) with 0%nat by lia. split; reflexivity.
  - intros (Hb & Hl & Hf & _) H0 H1 Hm Hbig.
    pose proof (ToUint32_range value) as Hu. fold u in Hu.
    assert (Hm4 : m <= 4).
    { destruct (Z.le_gt_cases m 4) as [|Hgt]; [assumption|].
      assert (128 ^ 5 <= 128 ^ m) by (apply Z.pow_le_mono_r; lia).
      change (128 ^ 5) with (2 ^ 35) in *. lia. }
    assert (K : setVarInt off value (Some m) v
                = (Throw (RangeError_VarInt m), partial)).
    { unfold setVarInt. change (default 10 (Some m)) with m.
      rewrite setVarInt_loop_ToUint32.
      fold u. apply setVarInt_loop_exceeds; try lia.
      rewrite Z2Nat.id by lia. exact Hbig. }
    split; [exact K|]. intros ->. split; [|reflexivity].
    unfold writeVarInt. unfold bind at 1. unfold cursor.
    apply (bind_Throw _ _ _ _ _ K).
Qed.

Ltac Zify.zify_post_hook ::= idtac.

Lemma varint_maxByteLength_witness :
  setVarInt 0 0 (Some 0) view_8 = (Throw (RangeError_VarInt 0), view_8) /\
  writeVarInt (-1) (Some 2) view_8 =
    (Throw (RangeError_VarInt 2),
     with_buffer view_8 [255; 255; 0; 0; 0; 0; 0; 0]).
Proof.
  assert (Hwf : wf view_8) by (apply wfb_wf; reflexivity).
  split.
  - exact (proj2 (proj1 (varint_maxByteLength view_8 0 0 0) ltac:(lia))).
  - exact (proj1 (proj2 (proj2 (varint_maxByteLength view_8 0 (-1) 2) Hwf
                           ltac:(lia) ltac:(cbn; lia) ltac:(lia)
                           ltac:(vm_compute; congruence)) eq_refl)).
Defined.

(** *** What a result of [getVarInt] says *)

Lemma getUint8_returns off v b v' :
  getUint8 off v = (Ok b, v') ->
  v' = v /\ 0 <= off /\ off + 1 <= byteLength v.
Proof.
  unfold getUint8, DataView.getUint, bind, GetViewValue.
  destruct ((off <? 0) || _) eqn:E; [discriminate|].
  intros H; inversion H; subst. repeat split; lia.
Qed.

Lemma getVarInt_loop_returns n : forall off mx value k sh v r v',
  getVarInt_loop n off mx value k sh v = (Ok r, v') ->
  v' = v /\ k + 1 <= IntResult.byteLength r <= k + Z.of_nat n /\
  0 <= off + k /\ off + IntResult.byteLength r <= byteLength v.
Proof.
  induction n as [|n IH]; intros off mx value k sh v r v' H;
    [discriminate|].
  cbn [getVarInt_loop] in H. unfold bind in H.
  destruct (getUint8 (off + k) v) as [[b|e] v1] eqn:E; [|discriminate].
  apply getUint8_returns in E. destruct E as (-> & E0 & E1).
  destruct (JS.and b 128 =? 0).
  - inversion H; subst. cbn [IntResult.byteLength]. repeat split; lia.
  - apply IH in H. destruct H as (-> & Hk & _ & Hfit).
    repeat split; lia.
Qed.

(** X5.  A result of [getVarInt], [getVarUint] or [getVarZint] has a byte
    length of at least one and at most the maximum (ten when none is given),
    and the bytes it counts lie inside the view; reading has changed
    nothing.  So these methods never return with a maximum of zero, and
    never count a byte past the end of the view. *)
Theorem getVarInt_result_is_bounded (v v' : ByteBuf) (off : Z)
    (maxLen : option Z) (r : IntResult.t) :
  getVarInt off maxLen v = (Ok r, v')
  \/ getVarUint off maxLen v = (Ok r, v')
  \/ getVarZint off maxLen v = (Ok r, v') ->
  v' = v /\
  1 <= IntResult.byteLength r <= default 10 maxLen /\
  0 <= off /\ off + IntResult.byteLength r <= byteLength v.
Proof.
  assert (K : forall r0 v0, getVarInt off maxLen v = (Ok r0, v0) ->
            v0 = v /\
            1 <= IntResult.byteLength r0 <= default 10 maxLen /\
            0 <= off /\ off + IntResult.byteLength r0 <= byteLength v).
  { intros r0 v0 H. unfold getVarInt in H.
    apply getVarInt_loop_returns in H. destruct H as (-> & Hk & H0 & Hfit).
    repeat split; lia. }
  intros [H | [H | H]].
  - apply (K _ _ H).
  - unfold getVarUint, bind in H.
    destruct (getVarInt off maxLen v) as [[r0|e] v0] eqn:E; [|discriminate].
    inversion H; subst. apply (K _ _ eq_refl).
  - unfold getVarZint, bind in H.
    destruct (getVarInt off maxLen v) as [[r0|e] v0] eqn:E; [|discriminate].
    inversion H; subst. apply (K _ _ eq_refl).
Qed.

Lemma getVarInt_result_is_bounded_witness :
  let w := with_buffer view_8 [172; 2; 0; 0; 0; 0; 0; 0] in
  let r := {| IntResult.value := 300; IntResult.byteLength := 2 |} in
  getVarInt 0 None w = (Ok r, w) /\
  (w = w /\ 1 <= IntResult.byteLength r <= 10 /\
   0 <= 0 /\ 0 + IntResult.byteLength r <= byteLength w).
Proof.
  split; [reflexivity|].
  exact (getVarInt_result_is_bounded
           (with_buffer view_8 [172; 2; 0; 0; 0; 0; 0; 0])
           (with_buffer view_8 [172; 2; 0; 0; 0; 0; 0; 0]) 0 None
           {| IntResult.value := 300; IntResult.byteLength := 2 |}
           (or_introl eq_refl)).
Defined.

(** ** Reads never modify the object *)

Lemma reads_ret {A} (a : A) : reads_only (ret a).
Proof. intros v. reflexivity. Qed.

Lemma reads_throw {A} e : reads_only (@throw A e).
Proof. intros v. reflexivity. Qed.

Lemma reads_bind {A B} (m : M A) (k : A -> M B) :
  reads_only m -> (forall a, reads_only (k a)) -> reads_only (bind m k).
Proof.
  intros Hm Hk v. unfold bind. specialize (Hm v).
  destruct (m v) as [[a|e] v1]; cbn [snd] in *; subst v1; [|reflexivity].
  apply Hk.
Qed.

Lemma reads_GetViewValue i size : reads_only (GetViewValue i size).
Proof. intros v. unfold GetViewValue. destruct (_ || _); reflexivity. Qed.

Lemma reads_new_TypedArray size off len :
  reads_only (new_TypedArray size off len).
Proof.
  intros v. unfold new_TypedArray.
  destruct (_ || _); [reflexivity|].
  destruct len as [n|]; destruct (_ || _); reflexivity.
Qed.

Lemma reads_contents a : reads_only (contents a).
Proof. intros v. reflexivity. Qed.

Lemma reads_super_offset : reads_only super_offset.
Proof. intros v. reflexivity. Qed.

Lemma reads_this_byteLength : reads_only this_byteLength.
Proof. intros v. reflexivity. Qed.

Lemma reads_cursor : reads_only cursor.
Proof. intros v. reflexivity. Qed.

Create HintDb reads.
#[local] Hint Resolve reads_ret reads_throw reads_GetViewValue
  reads_new_TypedArray reads_contents reads_super_offset
  reads_this_byteLength reads_cursor : reads.

Ltac reads :=
  repeat first
    [ solve [auto with reads]
    | apply reads_bind; [|intros ?]
    | match goal with
      | |- reads_only (match ?x with _ => _ end) => destruct x
      end ].

Lemma reads_getVarInt_loop n : forall off maxLen value k bitShift,
  reads_only (getVarInt_loop n off maxLen value k bitShift).
Proof.
  induction n as [|n IH]; intros; cbn [getVarInt_loop]; [reads|].
  apply reads_bind; [unfold getUint8, DataView.getUint; reads|]. intros byte.
  destruct (JS.and byte 128 =? 0); [reads | apply IH].
Qed.

Lemma reads_getVarInt off maxLen : reads_only (getVarInt off maxLen).
Proof. unfold getVarInt. apply reads_getVarInt_loop. Qed.

#[local] Hint Resolve reads_getVarInt : reads.

Lemma reads_getString dec off len enc : reads_only (getString dec off len enc).
Proof. unfold getString, new_TextDecoder, getUint8Array. reads. Qed.

#[local] Hint Resolve reads_getString : reads.

Lemma reads_getVarString dec off maxLen :
  reads_only (getVarString dec off maxLen).
Proof.
  unfold getVarString, getVarUint. apply reads_bind; [reads|]. intros r.
  apply reads_bind; [|intros ?; reads].
  destruct maxLen as [m|]; [|reads]. destruct (m <? _); reads.
Qed.

(** Every positional [get] is made of reads. *)
Ltac reads_positional :=
  first
    [ apply reads_getVarString
    | unfold getBool, getInt8, getUint8, getInt16, getUint16, getInt32,
        getUint32, getFloat32, getFloat64, getInt64, getUint64, getBigInt64,
        getBigUint64, getVarUint, getVarZint, getUint8Array, getUint16Array,
        DataView.getInt, DataView.getUint;
      reads ].

(** X6.  No positional [get] changes anything: neither a byte nor the
    cursor, whether it returns or throws. *)
Theorem positional_gets_read_only
    (dec : string -> option (list Z -> jsstring))
    (off : Z) (le : bool) (len maxLen : option Z) (enc : option string) :
  (reads_only (getBool off) /\ reads_only (getInt8 off) /\
   reads_only (getUint8 off)) /\
  (reads_only (getInt16 off le) /\ reads_only (getUint16 off le) /\
   reads_only (getInt32 off le) /\ reads_only (getUint32 off le) /\
   reads_only (getFloat32 off le) /\ reads_only (getFloat64 off le)) /\
  (reads_only (getBigInt64 off le) /\ reads_only (getBigUint64 off le) /\
   reads_only (getInt64 off le) /\ reads_only (getUint64 off le)) /\
  (reads_only (getVarInt off maxLen) /\ reads_only (getVarUint off maxLen) /\
   reads_only (getVarZint off maxLen)) /\
  (reads_only (getUint8Array off len) /\
   reads_only (getUint16Array off len) /\
   reads_only (getString dec off len enc) /\
   reads_only (getVarString dec off maxLen)).
Proof.
  repeat match goal with |- _ /\ _ => split end; reads_positional.
Qed.

(** *** A streaming read that throws *)

Lemma fails_clean_read {A} (get : Z -> M A) W :
  (forall off, reads_only (get off)) ->
  fails_clean (read_then_advance get W).
Proof.
  intros Hr v e v'. unfold read_then_advance, bind, cursor, cursor_add, ret.
  pose proof (Hr (priv_byteOffset v) v) as Hs.
  destruct (get _ _) as [[a|e'] v1]; cbn [snd] in Hs; subst v1;
    intros H; inversion H; reflexivity.
Qed.

Lemma fails_clean_result {A B} (op : Z -> M A) (len : A -> Z)
    (val : A -> B) :
  (forall off, reads_only (op off)) ->
  fails_clean (off <- cursor ;; r <- op off ;; cursor_add (len r) ;;;
               ret (val r)).
Proof.
  intros Hr v e v'. unfold bind, cursor, cursor_add, ret.
  pose proof (Hr (priv_byteOffset v) v) as Hs.
  destruct (op _ _) as [[a|e'] v1]; cbn [snd] in Hs; subst v1;
    intros H; inversion H; reflexivity.
Qed.

Lemma fails_clean_readString dec len enc :
  fails_clean (readString dec len enc).
Proof.
  intros v e v'. unfold readString. unfold bind at 1 2. unfold cursor.
  pose proof (reads_getString dec (priv_byteOffset v) len enc v) as Hs.
  destruct (getString _ _ _ _ v) as [[a|e'] v1]; cbn [snd] in Hs; subst v1.
  - destruct len; unfold bind, this_byteLength, cursor_set, cursor_add, ret;
      intros H; inversion H.
  - intros H; inversion H; reflexivity.
Qed.

(** X7.  When a multi-byte, variable-length, array or string streaming read
    throws, for whatever reason, the object is exactly as it was: the cursor
    has not moved and no byte has changed. *)
Theorem failed_reads_change_nothing
    (dec : string -> option (list Z -> jsstring))
    (le : bool) (len maxLen : option Z) (enc : option string) :
  (fails_clean (readInt16 le) /\ fails_clean (readUint16 le) /\
   fails_clean (readInt32 le) /\ fails_clean (readUint32 le) /\
   fails_clean (readFloat32 le) /\ fails_clean (readFloat64 le) /\
   fails_clean (readBigInt64 le) /\ fails_clean (readBigUint64 le) /\
   fails_clean (readInt64 le) /\ fails_clean (readUint64 le)) /\
  (fails_clean (readVarInt maxLen) /\ fails_clean (readVarUint maxLen) /\
   fails_clean (readVarZint maxLen)) /\
  (fails_clean (readUint8Array len) /\ fails_clean (readUint16Array len) /\
   fails_clean (readString dec len enc) /\
   fails_clean (readVarString dec maxLen)).
Proof.
  repeat match goal with |- _ /\ _ => split end;
    first
      [ apply fails_clean_readString
      | apply fails_clean_read; intros off; reads_positional
      | apply fails_clean_result; intros off; reads_positional ].
Qed.

(** ** Fixed-width values: what is read after a write *)

Lemma signed_wrap bits z :
  0 < bits -> - 2 ^ (bits - 1) <= z < 2 ^ (bits - 1) ->
  signed bits (z mod 2 ^ bits) = z.
Proof.
  intros Hb H. unfold signed.
  assert (Hp : 2 ^ bits = 2 * 2 ^ (bits - 1)).
  { rewrite <- Z.pow_succ_r by lia. f_equal. lia. }
  assert (0 < 2 ^ (bits - 1)) by (apply Z.pow_pos_nonneg; lia).
  rewrite Hp. set (h := 2 ^ (bits - 1)) in *. clearbody h.
  destruct (Z.le_gt_cases 0 z) as [Hz|Hz].
  - rewrite Z.mod_small by lia. destruct (z <? h) eqn:E; lia.
  - rewrite <- (Z_mod_plus_full z 1 (2 * h)), Z.mod_small by lia.
    destruct (z + 1 * (2 * h) <? h) eqn:E; lia.
Qed.

Lemma set_then_getUint size off z le v :
  wf v -> 0 <= off -> off + Z.of_nat size <= byteLength v ->
  set_then_get (DataView.setInt size off z le) (DataView.getUint size off le)
    (z mod 256 ^ Z.of_nat size) v.
Proof.
  intros Hwf H0 H1.
  destruct (DataView_set_then_get size off z le v Hwf H0 H1) as [Hs Hg].
  eexists. split; [exact Hs | exact Hg].
Qed.

Lemma set_then_getInt size off z le v :
  wf v -> 0 <= off -> off + Z.of_nat size <= byteLength v ->
  set_then_get (DataView.setInt size off z le) (DataView.getInt size off le)
    (signed (8 * Z.of_nat size) (z mod 256 ^ Z.of_nat size)) v.
Proof.
  intros Hwf H0 H1.
  destruct (DataView_set_then_get size off z le v Hwf H0 H1) as [Hs Hg].
  eexists. split; [exact Hs|].
  unfold DataView.getInt. rewrite (bind_Ok _ _ _ _ _ Hg). reflexivity.
Qed.

(** X8.  A fixed-width integer written by [set] at an offset where it fits
    is read by the [get] of the same type, offset and byte order as the
    value wrapped to the type: modulo [2^bits], read as two's complement for
    the signed types.  [setBool] and [getBool] agree on both booleans. *)
Theorem fixed_width_set_then_get (v : ByteBuf) (off z : Z) (le b : bool) :
  wf v -> 0 <= off ->
  (off + 1 <= byteLength v ->
     set_then_get (setInt8 off z) (getInt8 off)
       (signed 8 (z mod 2 ^ 8)) v /\
     set_then_get (setUint8 off z) (getUint8 off) (z mod 2 ^ 8) v /\
     set_then_get (setBool off b) (getBool off) b v) /\
  (off + 2 <= byteLength v ->
     set_then_get (setInt16 off z le) (getInt16 off le)
       (signed 16 (z mod 2 ^ 16)) v /\
     set_then_get (setUint16 off z le) (getUint16 off le) (z mod 2 ^ 16) v) /\
  (off + 4 <= byteLength v ->
     set_then_get (setInt32 off z le) (getInt32 off le)
       (signed 32 (z mod 2 ^ 32)) v /\
     set_then_get (setUint32 off z le) (getUint32 off le) (z mod 2 ^ 32) v) /\
  (off + 8 <= byteLength v ->
     set_then_get (setBigInt64 off z le) (getBigInt64 off le)
       (signed 64 (z mod 2 ^ 64)) v /\
     set_then_get (setBigUint64 off z le) (getBigUint64 off le)
       (z mod 2 ^ 64) v).
Proof.
  intros Hwf H0.
  split; [|split; [|split]]; intros H1;
    [split; [|split] | split | split | split].
  - apply (set_then_getInt 1 off z false v Hwf H0). lia.
  - apply (set_then_getUint 1 off z false v Hwf H0). lia.
  - destruct (set_then_getInt 1 off (if b then 1 else 0) false v Hwf H0)
      as (v' & Hs & Hg); [lia|].
    exists v'. split; [exact Hs|].
    unfold getBool, getInt8. rewrite (bind_Ok _ _ _ _ _ Hg).
    destruct b; reflexivity.
  - apply (set_then_getInt 2 off z le v Hwf H0). lia.
  - apply (set_then_getUint 2 off z le v Hwf H0). lia.
  - apply (set_then_getInt 4 off z le v Hwf H0). lia.
  - apply (set_then_getUint 4 off z le v Hwf H0). lia.
  - apply (set_then_getInt 8 off z le v Hwf H0). lia.
  - apply (set_then_getUint 8 off z le v Hwf H0). lia.
Qed.

Lemma fixed_width_set_then_get_witness :
  set_then_get (setInt16 1 65535 true) (getInt16 1 true) (-1) view_3_5 /\
  set_then_get (setUint32 1 (-1) false) (getUint32 1 false) 4294967295
    view_3_5.
Proof.
  assert (Hwf : wf view_3_5) by (apply wfb_wf; reflexivity).
  pose proof (fixed_width_set_then_get view_3_5 1 65535 true true Hwf
                ltac:(lia)) as (_ & H2 & _).
  pose proof (fixed_width_set_then_get view_3_5 1 (-1) false true Hwf
                ltac:(lia)) as (_ & _ & H4 & _).
  split.
  - exact (proj1 (H2 ltac:(cbn; lia))).
  - exact (proj2 (H4 ltac:(cbn; lia))).
Defined.

(** X9.  Every value of the type's range is read back as it was written, in
    either byte order. *)
Theorem fixed_width_round_trip (v : ByteBuf) (off z : Z) (le : bool) :
  wf v -> 0 <= off ->
  (off + 1 <= byteLength v ->
     (- 2 ^ 7 <= z < 2 ^ 7 ->
        set_then_get (setInt8 off z) (getInt8 off) z v) /\
     (0 <= z < 2 ^ 8 ->
        set_then_get (setUint8 off z) (getUint8 off) z v)) /\
  (off + 2 <= byteLength v ->
     (- 2 ^ 15 <= z < 2 ^ 15 ->
        set_then_get (setInt16 off z le) (getInt16 off le) z v) /\
     (0 <= z < 2 ^ 16 ->
        set_then_get (setUint16 off z le) (getUint16 off le) z v)) /\
  (off + 4 <= byteLength v ->
     (- 2 ^ 31 <= z < 2 ^ 31 ->
        set_then_get (setInt32 off z le) (getInt32 off le) z v) /\
     (0 <= z < 2 ^ 32 ->
        set_then_get (setUint32 off z le) (getUint32 off le) z v)) /\
  (off + 8 <= byteLength v ->
     (- 2 ^ 63 <= z < 2 ^ 63 ->
        set_then_get (setBigInt64 off z le) (getBigInt64 off le) z v) /\
     (0 <= z < 2 ^ 64 ->
        set_then_get (setBigUint64 off z le) (getBigUint64 off le) z v)).
Proof.
  intros Hwf H0.
  split; [|split; [|split]]; intros H1; split; intros Hz.
  - rewrite <- (signed_wrap 8 z) at 2 by lia.
    apply (set_then_getInt 1 off z false v Hwf H0). lia.
  - rewrite <- (Z.mod_small z (2 ^ 8)) at 2 by lia.
    apply (set_then_getUint 1 off z false v Hwf H0). lia.
  - rewrite <- (signed_wrap 16 z) at 2 by lia.
    apply (set_then_getInt 2 off z le v Hwf H0). lia.
  - rewrite <- (Z.mod_small z (2 ^ 16)) at 2 by lia.
    apply (set_then_getUint 2 off z le v Hwf H0). lia.
  - rewrite <- (signed_wrap 32 z) at 2 by lia.
    apply (set_then_getInt 4 off z le v Hwf H0). lia.
  - rewrite <- (Z.mod_small z (2 ^ 32)) at 2 by lia.
    apply (set_then_getUint 4 off z le v Hwf H0). lia.
  - rewrite <- (signed_wrap 64 z) at 2 by lia.
    apply (set_then_getInt 8 off z le v Hwf H0). lia.
  - rewrite <- (Z.mod_small z (2 ^ 64)) at 2 by lia.
    apply (set_then_getUint 8 off z le v Hwf H0). lia.
Qed.

Lemma fixed_width_round_trip_witness :
  set_then_get (setInt32 1 (-2147483648) true) (getInt32 1 true)
    (-2147483648) view_3_5 /\
  set_then_get (setBigUint64 0 18446744073709551615 false)
    (getBigUint64 0 false) 18446744073709551615 view_8.
Proof.
  assert (Hwf : wf view_3_5) by (apply wfb_wf; reflexivity).
  assert (Hwf8 : wf view_8) by (apply wfb_wf; reflexivity).
  pose proof (fixed_width_round_trip view_3_5 1 (-2147483648) true Hwf
                ltac:(lia)) as (_ & _ & H4 & _).
  pose proof (fixed_width_round_trip view_8 0 18446744073709551615 false
                Hwf8 ltac:(lia)) as (_ & _ & _ & H8).
  split.
  - exact (proj1 (H4 ltac:(cbn; lia)) ltac:(lia)).
  - exact (proj2 (H8 ltac:(cbn; lia)) ltac:(lia)).
Defined.

(** ** A streaming write that throws *)

Lemma SetViewValue_out_of_range v bs :
  out_of_range v (Z.of_nat (length bs)) ->
  forall w, byteLength w = byteLength v ->
  SetViewValue (priv_byteOffset v) bs w = (Throw RangeError_bounds, w).
Proof.
  intros H w Hw. unfold SetViewValue. rewrite Hw.
  destruct ((priv_byteOffset v <? 0)
            || (byteLength v <? priv_byteOffset v
                                + Z.of_nat (length bs))) eqn:E;
    [reflexivity|].
  unfold out_of_range in H. lia.
Qed.

Lemma setInt_out_of_range v size z le :
  out_of_range v (Z.of_nat size) ->
  forall w, byteLength w = byteLength v ->
  DataView.setInt size (priv_byteOffset v) z le w
  = (Throw RangeError_bounds, w).
Proof.
  intros H w Hw. unfold DataView.setInt.
  apply SetViewValue_out_of_range; [|exact Hw].
  rewrite length_NumericToRawBytes. exact H.
Qed.

Lemma write_one_out_of_range v z :
  out_of_range v 1 ->
  (off <- cursor_post_incr ;; DataView.setInt 1 off z false) v
  = (Throw RangeError_bounds, with_cursor v (priv_byteOffset v + 1)).
Proof.
  intros H. unfold bind at 1. unfold cursor_post_incr.
  apply (setInt_out_of_range v 1 z false H). reflexivity.
Qed.

Lemma write_then_advance_out_of_range v size z le W :
  out_of_range v (Z.of_nat size) ->
  write_then_advance (fun off => DataView.setInt size off z le) W v
  = (Throw RangeError_bounds, v).
Proof.
  intros H. unfold write_then_advance. unfold bind at 1. unfold cursor.
  apply bind_Throw. apply (setInt_out_of_range v size z le H). reflexivity.
Qed.

(** X10.  A fixed-width streaming write whose bytes do not fit between the
    cursor and the end of the view throws the bounds error and writes
    nothing.  The multi-byte writes leave the cursor where it was;
    [writeBool], [writeInt8] and [writeUint8] have already moved it by one.
    [writeInt64] and [writeUint64] of a number that is not an integer throw
    the conversion error first, wherever the cursor is, and change nothing. *)
Theorem failed_fixed_width_writes (v : ByteBuf) (z : Z) (le b : bool) :
  let moved := with_cursor v (priv_byteOffset v + 1) in
  (out_of_range v 1 ->
     writeBool b v = (Throw RangeError_bounds, moved) /\
     writeInt8 z v = (Throw RangeError_bounds, moved) /\
     writeUint8 z v = (Throw RangeError_bounds, moved)) /\
  (out_of_range v 2 ->
     writeInt16 z le v = (Throw RangeError_bounds, v) /\
     writeUint16 z le v = (Throw RangeError_bounds, v)) /\
  (out_of_range v 4 ->
     writeInt32 z le v = (Throw RangeError_bounds, v) /\
     writeUint32 z le v = (Throw RangeError_bounds, v) /\
     writeFloat32 z le v = (Throw RangeError_bounds, v)) /\
  (out_of_range v 8 ->
     writeFloat64 z le v = (Throw RangeError_bounds, v) /\
     writeBigInt64 z le v = (Throw RangeError_bounds, v) /\
     writeBigUint64 z le v = (Throw RangeError_bounds, v) /\
     writeInt64 (Integer z) le v = (Throw RangeError_bounds, v) /\
     writeUint64 (Integer z) le v = (Throw RangeError_bounds, v)) /\
  (writeInt64 NotInteger le v = (Throw RangeError_BigInt, v) /\
   writeUint64 NotInteger le v = (Throw RangeError_BigInt, v)).
Proof.
  intros moved.
  split; [|split; [|split; [|split]]]; try intros H.
  - split; [|split].
    + apply (write_one_out_of_range v (if b then 1 else 0) H).
    + apply (write_one_out_of_range v z H).
    + apply (write_one_out_of_range v z H).
  - split; apply (write_then_advance_out_of_range v 2 z le 2 H).
  - split; [|split]; apply (write_then_advance_out_of_range v 4 z le 4 H).
  - split; [|split; [|split; [|split]]];
      apply (write_then_advance_out_of_range v 8 z le 8 H).
  - split; reflexivity.
Qed.

Lemma failed_fixed_width_writes_witness :
  out_of_range view_at_end 1 /\
  writeUint8 7 view_at_end
  = (Throw RangeError_bounds, with_cursor view_at_end 5) /\
  writeInt32 7 true view_at_end = (Throw RangeError_bounds, view_at_end).
Proof.
  assert (H1 : out_of_range view_at_end 1) by (right; cbn; lia).
  assert (H4 : out_of_range view_at_end 4) by (right; cbn; lia).
  destruct (failed_fixed_width_writes view_at_end 7 true true)
    as (K1 & _ & K4 & _).
  split; [exact H1|]. split.
  - exact (proj2 (proj2 (K1 H1))).
  - exact (proj1 (K4 H4)).
Defined.

(** ** When a fixed-width read or write returns *)

Lemma returns_GetViewValue off size v :
  returns (GetViewValue off size) v
  <-> 0 <= off /\ off + Z.of_nat size <= byteLength v.
Proof.
  unfold returns, GetViewValue.
  destruct ((off <? 0) || _) eqn:E; split.
  - intros (x & v' & H). discriminate.
  - lia.
  - lia.
  - intros _. eexists _, _. reflexivity.
Qed.

Lemma returns_SetViewValue off bs v :
  returns (SetViewValue off bs) v
  <-> 0 <= off /\ off + Z.of_nat (length bs) <= byteLength v.
Proof.
  unfold returns, SetViewValue.
  destruct ((off <? 0) || _) eqn:E; split.
  - intros (x & v' & H). discriminate.
  - lia.
  - lia.
  - intros _. eexists _, _. reflexivity.
Qed.

(** A step that cannot throw does not change whether the whole returns. *)
Lemma returns_bind_total {A B} (m : M A) (k : A -> M B) v :
  (forall a w, returns (k a) w) -> (returns (bind m k) v <-> returns m v).
Proof.
  intros Hk. unfold returns, bind. split.
  - intros (x & v' & H). destruct (m v) as [[a|e] v1]; [|discriminate].
    eexists _, _. reflexivity.
  - intros (a & v1 & H). rewrite H. apply Hk.
Qed.

Lemma returns_getUint size off le v :
  returns (DataView.getUint size off le) v
  <-> 0 <= off /\ off + Z.of_nat size <= byteLength v.
Proof.
  unfold DataView.getUint. rewrite returns_bind_total.
  - apply returns_GetViewValue.
  - intros a w. eexists _, _. reflexivity.
Qed.

Lemma returns_getInt size off le v :
  returns (DataView.getInt size off le) v
  <-> 0 <= off /\ off + Z.of_nat size <= byteLength v.
Proof.
  unfold DataView.getInt. rewrite returns_bind_total.
  - apply returns_getUint.
  - intros a w. eexists _, _. reflexivity.
Qed.

Lemma returns_setInt size off z le v :
  returns (DataView.setInt size off z le) v
  <-> 0 <= off /\ off + Z.of_nat size <= byteLength v.
Proof.
  unfold DataView.setInt. rewrite returns_SetViewValue.
  now rewrite length_NumericToRawBytes.
Qed.

Lemma returns_after_cursor {A} (op : Z -> M A) v :
  returns (off <- cursor ;; op off) v <-> returns (op (priv_byteOffset v)) v.
Proof. reflexivity. Qed.

Lemma returns_after_post_incr {A} (op : Z -> M A) (W : Z) v :
  (forall w, byteLength w = byteLength v ->
     (returns (op (priv_byteOffset v)) w <-> fits v W)) ->
  (returns (off <- cursor_post_incr ;; op off) v <-> fits v W).
Proof.
  intros H. unfold returns, bind at 1, cursor_post_incr.
  apply (H (with_cursor v (priv_byteOffset v + 1))). reflexivity.
Qed.

Lemma returns_read_then_advance {A} (get : Z -> M A) (W : Z) v :
  (returns (get (priv_byteOffset v)) v <-> fits v W) ->
  (returns (read_then_advance get W) v <-> fits v W).
Proof.
  intros H. unfold read_then_advance. rewrite returns_after_cursor.
  rewrite returns_bind_total; [exact H|].
  intros a w. eexists _, _. reflexivity.
Qed.

Lemma returns_write_then_advance (set : Z -> M unit) (W : Z) v :
  (returns (set (priv_byteOffset v)) v <-> fits v W) ->
  (returns (write_then_advance set W) v <-> fits v W).
Proof.
  intros H. unfold write_then_advance. rewrite returns_after_cursor.
  rewrite returns_bind_total; [exact H|].
  intros a w. eexists _, _. reflexivity.
Qed.

Lemma fits_iff v (size : nat) w :
  byteLength w = byteLength v ->
  (0 <= priv_byteOffset v
   /\ priv_byteOffset v + Z.of_nat size <= byteLength w)
  <-> fits v (Z.of_nat size).
Proof. intros ->. unfold fits, byteOffset, bytesRemaining. lia. Qed.

Ltac returns_fixed v :=
  first
    [ apply returns_read_then_advance
    | apply returns_write_then_advance
    | apply returns_after_post_incr; intros w Hw ];
  repeat (rewrite returns_bind_total;
          [|intros ? ?; eexists _, _; reflexivity]);
  first
    [ rewrite returns_getInt | rewrite returns_getUint
    | rewrite returns_setInt ];
  first
    [ apply (fits_iff v 1); solve [reflexivity | assumption]
    | apply (fits_iff v 2); solve [reflexivity | assumption]
    | apply (fits_iff v 4); solve [reflexivity | assumption]
    | apply (fits_iff v 8); solve [reflexivity | assumption] ].

(** X11.  A fixed-width streaming read or write returns exactly when the
    cursor, as [byteOffset] gives it, is not negative and [bytesRemaining]
    is at least the width of the type; otherwise it throws.  [skip] moves
    the cursor without any check, so [bytesRemaining] goes down by the
    amount skipped, below zero if the skip runs past the end. *)
Theorem fixed_width_streaming_returns_iff_it_fits (v : ByteBuf) (z n : Z)
    (le b : bool) :
  ((returns readBool v <-> fits v 1) /\ (returns readInt8 v <-> fits v 1) /\
   (returns readUint8 v <-> fits v 1) /\
   (returns (writeBool b) v <-> fits v 1) /\
   (returns (writeInt8 z) v <-> fits v 1) /\
   (returns (writeUint8 z) v <-> fits v 1)) /\
  ((returns (readInt16 le) v <-> fits v 2) /\
   (returns (readUint16 le) v <-> fits v 2) /\
   (returns (writeInt16 z le) v <-> fits v 2) /\
   (returns (writeUint16 z le) v <-> fits v 2)) /\
  ((returns (readInt32 le) v <-> fits v 4) /\
   (returns (readUint32 le) v <-> fits v 4) /\
   (returns (readFloat32 le) v <-> fits v 4) /\
   (returns (writeInt32 z le) v <-> fits v 4) /\
   (returns (writeUint32 z le) v <-> fits v 4) /\
   (returns (writeFloat32 z le) v <-> fits v 4)) /\
  ((returns (readFloat64 le) v <-> fits v 8) /\
   (returns (readBigInt64 le) v <-> fits v 8) /\
   (returns (readBigUint64 le) v <-> fits v 8) /\
   (returns (readInt64 le) v <-> fits v 8) /\
   (returns (readUint64 le) v <-> fits v 8) /\
   (returns (writeFloat64 z le) v <-> fits v 8) /\
   (returns (writeBigInt64 z le) v <-> fits v 8) /\
   (returns (writeBigUint64 z le) v <-> fits v 8) /\
   (returns (writeInt64 (Integer z) le) v <-> fits v 8) /\
   (returns (writeUint64 (Integer z) le) v <-> fits v 8)) /\
  (returns (skip n) v /\
   bytesRemaining (snd (skip n v)) = bytesRemaining v - n).
Proof.
  repeat match goal with |- _ /\ _ => split end;
    try (unfold readBool, readInt8, readUint8, writeBool, writeInt8,
           writeUint8, readInt16, readUint16, writeInt16, writeUint16,
           readInt32, readUint32, readFloat32, writeInt32, writeUint32,
           writeFloat32, readFloat64, readBigInt64, readBigUint64,
           readInt64, readUint64, writeFloat64, writeBigInt64,
           writeBigUint64, writeInt64, writeUint64;
         unfold getInt8, getUint8, setInt8, setUint8, getInt16, getUint16,
           setInt16, setUint16, getInt32, getUint32, getFloat32, setInt32,
           setUint32, setFloat32, getFloat64, getBigInt64, getBigUint64,
           getInt64, getUint64, setFloat64, setBigInt64, setBigUint64;
         unfold getBigInt64, getBigUint64, setBigInt64, setBigUint64;
         solve [returns_fixed v]).
  - unfold writeInt64. apply returns_write_then_advance.
    change (returns (DataView.setInt 8 (priv_byteOffset v) z le) v
            <-> fits v 8).
    rewrite returns_setInt. apply (fits_iff v 8). reflexivity.
  - unfold writeUint64. apply returns_write_then_advance.
    change (returns (DataView.setInt 8 (priv_byteOffset v) z le) v
            <-> fits v 8).
    rewrite returns_setInt. apply (fits_iff v 8). reflexivity.
  - eexists _, _. reflexivity.
  - unfold skip, cursor_add, bytesRemaining. cbn. lia.
Qed.

Lemma fixed_width_streaming_returns_iff_it_fits_witness :
  (returns (readInt32 true) view_8 <-> fits view_8 4) /\
  (returns (writeUint8 7) view_at_end <-> fits view_at_end 1) /\
  bytesRemaining (snd (skip 6 view_at_end)) = bytesRemaining view_at_end - 6.
Proof.
  destruct (fixed_width_streaming_returns_iff_it_fits view_8 0 0 true true)
    as (_ & _ & (K4 & _) & _).
  destruct (fixed_width_streaming_returns_iff_it_fits view_at_end 7 6 true
              true) as ((_ & _ & _ & _ & _ & K1) & _ & _ & _ & _ & K).
  exact (conj K4 (conj K1 K)).
Defined.

(** ** The invariant of the object *)

Lemma pwf_ret {A} (a : A) : preserves_wf (ret a).
Proof. intros v H. exact H. Qed.

Lemma pwf_throw {A} e : preserves_wf (@throw A e).
Proof. intros v H. exact H. Qed.

Lemma pwf_bind {A B} (m : M A) (k : A -> M B) :
  preserves_wf m -> (forall a, preserves_wf (k a)) -> preserves_wf (bind m k).
Proof.
  intros Hm Hk v Hv. unfold bind. specialize (Hm v Hv).
  destruct (m v) as [[a|e] v1]; cbn [snd] in *; [|exact Hm].
  apply Hk. exact Hm.
Qed.

Lemma pwf_reads {A} (m : M A) : reads_only m -> preserves_wf m.
Proof. intros Hm v Hv. rewrite Hm. exact Hv. Qed.

(** A step after a read sees the object the read saw. *)
Lemma pwf_bind_read {A B} (m : M A) (k : A -> M B) :
  reads_only m ->
  (forall v a, wf v -> m v = (Ok a, v) -> wf (snd (k a v))) ->
  preserves_wf (bind m k).
Proof.
  intros Hm Hk v Hv. unfold bind. pose proof (Hm v) as Hs.
  destruct (m v) as [[a|e] v1] eqn:E; cbn [snd] in *; subst v1;
    [|exact Hv].
  apply Hk; [exact Hv | exact E].
Qed.

Lemma pwf_cursor_post_incr : preserves_wf cursor_post_incr.
Proof. intros v H. exact H. Qed.

Lemma pwf_cursor_add n : preserves_wf (cursor_add n).
Proof. intros v H. exact H. Qed.

Lemma pwf_cursor_set n : preserves_wf (cursor_set n).
Proof. intros v H. exact H. Qed.

Lemma wf_store v pos bs :
  wf v -> Forall is_byte bs ->
  (pos + length bs <= length (buffer v))%nat ->
  wf (with_buffer v (store pos bs (buffer v))).
Proof.
  intros (Hb & Hl & Hf & Hbytes) Hbs Hpos. unfold wf. cbn.
  rewrite length_store by exact Hpos.
  repeat split; try assumption. apply Forall_store; assumption.
Qed.

Lemma pwf_SetViewValue off bs :
  Forall is_byte bs -> preserves_wf (SetViewValue off bs).
Proof.
  intros Hbs v Hv. unfold SetViewValue.
  destruct ((off <? 0) || _) eqn:E; cbn [snd]; [exact Hv|].
  apply wf_store; [exact Hv | exact Hbs |].
  destruct Hv as (Hb & Hl & Hf & _). lia.
Qed.

Lemma bytes_le_bytes n : forall z, Forall is_byte (le_bytes n z).
Proof.
  induction n as [|n IH]; intros z; cbn [le_bytes]; constructor.
  - unfold is_byte. apply Z.mod_pos_bound. lia.
  - apply IH.
Qed.

Lemma bytes_NumericToRawBytes size z le :
  Forall is_byte (NumericToRawBytes size z le).
Proof.
  unfold NumericToRawBytes. destruct le;
    [|apply Forall_rev]; apply bytes_le_bytes.
Qed.

Lemma pwf_setInt size off z le : preserves_wf (DataView.setInt size off z le).
Proof. apply pwf_SetViewValue, bytes_NumericToRawBytes. Qed.

Lemma pwf_setVarInt_loop n : forall off value mx k,
  preserves_wf (setVarInt_loop n off value mx k).
Proof.
  induction n as [|n IH]; intros; cbn [setVarInt_loop]; [apply pwf_throw|].
  apply pwf_bind; [apply pwf_setInt|]. intros _.
  destruct (JS.shr value 7 =? 0); [apply pwf_ret | apply IH].
Qed.

Lemma pwf_setVarInt off value mx : preserves_wf (setVarInt off value mx).
Proof. apply pwf_setVarInt_loop. Qed.

(** A typed array that was constructed lies inside the buffer. *)
Lemma new_TypedArray_inside es off len v a v' :
  0 < es -> new_TypedArray es off len v = (Ok a, v') ->
  v' = v /\ TypedArray.byteOffset a = off /\
  0 <= off /\ 0 <= TypedArray.byteLength a /\
  off + TypedArray.byteLength a <= Z.of_nat (length (buffer v)).
Proof.
  intros Hes. unfold new_TypedArray.
  destruct ((off <? 0) || _) eqn:E0; [discriminate|].
  destruct len as [n|].
  - destruct ((n <? 0) || _) eqn:E1; [discriminate|].
    intros H; inversion H; subst; cbn. repeat split; try lia; nia.
  - destruct (negb _ || _) eqn:E1; [discriminate|].
    intros H; inversion H; subst; cbn. repeat split; lia.
Qed.

Lemma getUint8Array_inside off len v a v' :
  getUint8Array off len v = (Ok a, v') ->
  v' = v /\ TypedArray.byteOffset a = super_byteOffset v + off /\
  0 <= super_byteOffset v + off /\ 0 <= TypedArray.byteLength a /\
  super_byteOffset v + off + TypedArray.byteLength a
  <= Z.of_nat (length (buffer v)).
Proof.
  unfold getUint8Array, bind, super_offset. intros H.
  apply new_TypedArray_inside in H; [exact H | lia].
Qed.

Lemma getUint16Array_inside off len v a v' :
  getUint16Array off len v = (Ok a, v') ->
  v' = v /\ TypedArray.byteOffset a = super_byteOffset v + off /\
  0 <= super_byteOffset v + off /\ 0 <= TypedArray.byteLength a /\
  super_byteOffset v + off + TypedArray.byteLength a
  <= Z.of_nat (length (buffer v)).
Proof.
  unfold getUint16Array, bind, super_offset. intros H.
  apply new_TypedArray_inside in H; [exact H | lia].
Qed.

Lemma wf_TypedArray_set a bs v :
  wf v -> Forall is_byte bs ->
  0 <= TypedArray.byteOffset a ->
  TypedArray.byteOffset a + TypedArray.byteLength a
  <= Z.of_nat (length (buffer v)) ->
  wf (snd (TypedArray_set a bs v)).
Proof.
  intros Hv Hbs H0 H1. unfold TypedArray_set.
  destruct (_ <? _) eqn:E; cbn [snd]; [exact Hv|].
  apply wf_store; [exact Hv | exact Hbs | lia].
Qed.

Lemma pwf_setUint8Array off value :
  Forall is_byte value -> preserves_wf (setUint8Array off value).
Proof.
  intros Hb. unfold setUint8Array.
  apply pwf_bind_read; [unfold getUint8Array; reads|].
  intros v a Hv Ha. apply getUint8Array_inside in Ha.
  apply wf_TypedArray_set; [exact Hv | exact Hb | lia | lia].
Qed.

Lemma pwf_setUint16Array off value : preserves_wf (setUint16Array off value).
Proof.
  unfold setUint16Array.
  apply pwf_bind_read; [unfold getUint16Array; reads|].
  intros v a Hv Ha. apply getUint16Array_inside in Ha.
  apply wf_TypedArray_set; [exact Hv | | lia | lia].
  apply Forall_flat_map, Forall_forall. intros x _. apply bytes_le_bytes.
Qed.

Lemma bytes_zeros n : Forall is_byte (zeros n).
Proof.
  unfold zeros. induction n as [|n IH]; cbn [repeat]; constructor;
    [unfold is_byte; lia | exact IH].
Qed.

Lemma pwf_clear : preserves_wf clear.
Proof.
  unfold clear.
  apply pwf_bind_read; [unfold getUint8Array; reads|].
  intros v a Hv Ha. apply getUint8Array_inside in Ha.
  apply wf_TypedArray_set; [exact Hv | apply bytes_zeros | lia | lia].
Qed.

(** *** The bytes of UTF-8 *)

Ltac Zify.zify_post_hook ::= Z.to_euclidean_division_equations.

Lemma bytes_utf8 cp : 0 <= cp < 1114112 -> Forall is_byte (UTF.utf8 cp).
Proof.
  intros H. unfold UTF.utf8, is_byte.
  destruct (cp <? 128) eqn:E1; [repeat constructor; lia|].
  destruct (cp <? 2048) eqn:E2; [repeat constructor; lia|].
  destruct (cp <? 65536) eqn:E3; repeat constructor; lia.
Qed.

Ltac Zify.zify_post_hook ::= idtac.

Lemma scalar_values_range_n n : forall s,
  (length s <= n)%nat -> Forall is_code_unit s ->
  Forall (fun cp => 0 <= cp < 1114112) (UTF.scalar_values s).
Proof.
  induction n as [|n IH]; intros s Hn Hs.
  - destruct s; [constructor | cbn in Hn; lia].
  - destruct s as [|c s]; [constructor|].
    inversion Hs as [|? ? Hc Hs']; subst. cbn [length] in Hn.
    cbn [UTF.scalar_values]. unfold is_code_unit in Hc.
    destruct (UTF.is_lead c) eqn:El.
    + destruct s as [|d s]; [repeat constructor; lia|].
      inversion Hs' as [|? ? Hd Hs'']; subst. unfold is_code_unit in Hd.
      cbn [length] in Hn.
      destruct (UTF.is_trail d) eqn:Et.
      * constructor; [|apply IH; [lia | exact Hs'']].
        unfold UTF.is_lead, UTF.is_trail in *. lia.
      * constructor; [lia | apply IH; [cbn [length]; lia | exact Hs']].
    + destruct (UTF.is_trail c);
        (constructor; [lia | apply IH; [lia | exact Hs']]).
Qed.

Lemma scalar_values_range s :
  Forall is_code_unit s ->
  Forall (fun cp => 0 <= cp < 1114112) (UTF.scalar_values s).
Proof. apply (scalar_values_range_n (length s)). lia. Qed.

Lemma bytes_fill cps : forall room,
  Forall (fun cp => 0 <= cp < 1114112) cps ->
  Forall is_byte (UTF.fill cps room).
Proof.
  induction cps as [|cp cps IH]; intros room H; cbn [UTF.fill];
    [constructor|].
  inversion H; subst.
  destruct (_ <=? _)%nat; [|constructor].
  apply Forall_app.
  split; [apply bytes_utf8; assumption | apply IH; assumption].
Qed.

Lemma bytes_encode s : Forall is_code_unit s -> Forall is_byte (UTF.encode s).
Proof.
  intros H. unfold UTF.encode.
  apply Forall_flat_map. eapply Forall_impl; [apply scalar_values_range, H|].
  intros cp Hcp. apply bytes_utf8, Hcp.
Qed.

Lemma pwf_setString off value enc :
  Forall is_code_unit value -> preserves_wf (setString off value enc).
Proof.
  intros Hs. unfold setString.
  apply pwf_bind; [apply pwf_reads; reads|]. intros _.
  apply pwf_bind; [apply pwf_reads; reads|]. intros total.
  apply pwf_bind_read; [unfold getUint8Array; reads|].
  intros v a Hv Ha. apply getUint8Array_inside in Ha.
  unfold encodeInto, bind.
  pose proof (wf_TypedArray_set a
                (UTF.fill (UTF.scalar_values value)
                   (Z.to_nat (TypedArray.byteLength a))) v Hv
                (bytes_fill _ _ (scalar_values_range _ Hs))
                ltac:(lia) ltac:(lia)) as K.
  destruct (TypedArray_set _ _ v) as [[u|e] v1]; exact K.
Qed.

Lemma pwf_setVarString off value :
  Forall is_code_unit value -> preserves_wf (setVarString off value).
Proof.
  intros Hs. unfold setVarString.
  apply pwf_bind; [apply pwf_setVarInt|]. intros d.
  apply pwf_bind; [apply pwf_setUint8Array, bytes_encode, Hs|]. intros _.
  apply pwf_ret.
Qed.

Create HintDb pwf.
#[local] Hint Resolve pwf_ret pwf_throw pwf_cursor_post_incr pwf_cursor_add
  pwf_cursor_set pwf_setInt pwf_setVarInt pwf_setUint16Array pwf_clear
  : pwf.

Ltac pwf :=
  repeat first
    [ solve [auto with pwf]
    | solve [apply pwf_reads; reads]
    | apply pwf_bind; [|intros ?]
    | match goal with
      | |- preserves_wf (match ?x with _ => _ end) => destruct x
      end ].

(** X12.  No method takes the object out of its invariant: after any set or
    write, after [skip], [reset] or [clear], returning or throwing, the view
    is still inside its buffer and the buffer still holds bytes.  The arrays
    and strings given to a method hold bytes and code units. *)
Theorem sets_and_writes_preserve_wf
    (off z : Z) (le b : bool) (n : number) (maxLen : option Z)
    (enc : option string) (bs : list Z) (us : list Z) (s : jsstring) :
  Forall is_byte bs -> Forall is_code_unit s ->
  (preserves_wf (setBool off b) /\ preserves_wf (writeBool b) /\
   preserves_wf (setInt8 off z) /\ preserves_wf (writeInt8 z) /\
   preserves_wf (setUint8 off z) /\ preserves_wf (writeUint8 z)) /\
  (preserves_wf (setInt16 off z le) /\ preserves_wf (writeInt16 z le) /\
   preserves_wf (setUint16 off z le) /\ preserves_wf (writeUint16 z le) /\
   preserves_wf (setInt32 off z le) /\ preserves_wf (writeInt32 z le) /\
   preserves_wf (setUint32 off z le) /\ preserves_wf (writeUint32 z le) /\
   preserves_wf (setFloat32 off z le) /\ preserves_wf (writeFloat32 z le) /\
   preserves_wf (setFloat64 off z le) /\ preserves_wf (writeFloat64 z le)) /\
  (preserves_wf (setBigInt64 off z le) /\ preserves_wf (writeBigInt64 z le) /\
   preserves_wf (setBigUint64 off z le) /\
   preserves_wf (writeBigUint64 z le) /\
   preserves_wf (setInt64 off n le) /\ preserves_wf (writeInt64 n le) /\
   preserves_wf (setUint64 off n le) /\ preserves_wf (writeUint64 n le)) /\
  (preserves_wf (setVarInt off z maxLen) /\
   preserves_wf (writeVarInt z maxLen) /\
   preserves_wf (setVarUint off z maxLen) /\
   preserves_wf (writeVarUint z maxLen) /\
   preserves_wf (setVarZint off z maxLen) /\
   preserves_wf (writeVarZint z maxLen)) /\
  (preserves_wf (setUint8Array off bs) /\ preserves_wf (writeUint8Array bs) /\
   preserves_wf (setUint16Array off us) /\
   preserves_wf (writeUint16Array us) /\
   preserves_wf (setString off s enc) /\ preserves_wf (writeString s enc) /\
   preserves_wf (setVarString off s) /\ preserves_wf (writeVarString s)) /\
  (preserves_wf (skip z) /\ preserves_wf reset /\ preserves_wf clear).
Proof.
  intros Hbs Hs.
  pose proof (fun o => pwf_setUint8Array o bs Hbs) as K8.
  pose proof (fun o e => pwf_setString o s e Hs) as KS.
  pose proof (fun o => pwf_setVarString o s Hs) as KV.
  repeat match goal with |- _ /\ _ => split end;
    repeat (progress unfold setBool, writeBool, setInt8, writeInt8, setUint8,
      writeUint8, setInt16, writeInt16, setUint16, writeUint16, setInt32,
      writeInt32, setUint32, writeUint32, setFloat32, writeFloat32,
      setFloat64, writeFloat64, setBigInt64, writeBigInt64, setBigUint64,
      writeBigUint64, setInt64, writeInt64, setUint64, writeUint64,
      writeVarInt, setVarUint, writeVarUint, setVarZint, writeVarZint,
      writeUint8Array, writeUint16Array, writeString, writeVarString,
      write_then_advance, BigInt, skip);
    try (intros v Hv; exact Hv);
    pwf.
Qed.

Lemma sets_and_writes_preserve_wf_witness :
  Forall is_byte [1; 255] /\ Forall is_code_unit [104; 8364] /\
  preserves_wf (writeUint8Array [1; 255]) /\
  preserves_wf (setVarString 0 [104; 8364]).
Proof.
  assert (Hb : Forall is_byte [1; 255])
    by (repeat constructor; unfold is_byte; lia).
  assert (Hs : Forall is_code_unit [104; 8364])
    by (repeat constructor; unfold is_code_unit; lia).
  destruct (sets_and_writes_preserve_wf 0 0 true true NotInteger None None
              [1; 255] [] [104; 8364] Hb Hs)
    as (_ & _ & _ & _ & (_ & K1 & _ & _ & _ & _ & K2 & _) & _).
  exact (conj Hb (conj Hs (conj K1 K2))).
Defined.

(** ** The bytes a positional set can touch *)

Lemma lookup_store_outside pos bs buf (i : nat) :
  (pos + length bs <= length buf)%nat ->
  (i < pos \/ pos + length bs <= i)%nat ->
  store pos bs buf !! i = buf !! i.
Proof.
  intros Hlen Hi. unfold store.
  assert (Hp : length (take pos buf) = pos) by (rewrite length_take; lia).
  destruct Hi as [Hi|Hi].
  - rewrite lookup_app_l by lia. rewrite lookup_take.
    destruct (decide (i < pos)%nat); [reflexivity | lia].
  - rewrite lookup_app_r by lia. rewrite lookup_app_r by lia.
    rewrite lookup_drop, Hp. f_equal. lia.
Qed.

Lemma changes_only_refl v off len : changes_only v v off len.
Proof. unfold changes_only. repeat split; reflexivity. Qed.

Lemma changes_only_weaken v v' o1 l1 o l :
  changes_only v v' o1 l1 -> o <= o1 -> o1 + l1 <= o + l ->
  changes_only v v' o l.
Proof.
  intros (H1 & H2 & H3 & H4 & H5) Ho Hl. unfold changes_only.
  repeat split; try assumption. intros i Hi. apply H5. lia.
Qed.

Lemma changes_only_trans v v1 v2 o l :
  changes_only v v1 o l -> changes_only v1 v2 o l -> changes_only v v2 o l.
Proof.
  intros (H1 & H2 & H3 & H4 & H5) (K1 & K2 & K3 & K4 & K5).
  unfold changes_only. repeat split; try congruence.
  intros i Hi. rewrite K5 by (rewrite H1; exact Hi). apply H5, Hi.
Qed.

Lemma changes_only_written v off bs :
  0 <= super_byteOffset v + off ->
  super_byteOffset v + off + Z.of_nat (length bs)
  <= Z.of_nat (length (buffer v)) ->
  changes_only v (written v off bs) off (Z.of_nat (length bs)).
Proof.
  intros H0 H1. unfold changes_only, written. cbn.
  repeat split; try reflexivity.
  - apply length_store. lia.
  - intros i Hi. apply lookup_store_outside; lia.
Qed.

Lemma sets_only_SetViewValue off bs :
  sets_only (SetViewValue off bs) off (Z.of_nat (length bs)).
Proof.
  intros v (Hb & Hl & Hf & _). unfold SetViewValue.
  destruct ((off <? 0) || _) eqn:E; cbn [snd];
    [apply changes_only_refl|].
  apply (changes_only_written v off bs); lia.
Qed.

Lemma sets_only_setInt size off z le :
  sets_only (DataView.setInt size off z le) off (Z.of_nat size).
Proof.
  unfold DataView.setInt.
  rewrite <- (length_NumericToRawBytes size z le) at 2.
  apply sets_only_SetViewValue.
Qed.

Lemma setVarInt_loop_frame n : forall off value mx k v r v',
  wf v -> setVarInt_loop n off value mx k v = (r, v') ->
  match r with
  | Ok k' => k <= k' /\ changes_only v v' off (k' - k + 1)
  | Throw _ => changes_only v v' off (Z.of_nat n)
  end.
Proof.
  induction n as [|n IH]; intros off value mx k v r v' Hv H.
  - cbn in H. inversion H; subst. apply changes_only_refl.
  - cbn [setVarInt_loop] in H. unfold bind in H.
    pose proof (sets_only_setInt 1 off
                  (if negb (JS.shr value 7 =? 0)
                   then JS.or (JS.and value 127) 128
                   else JS.and value 127) false v Hv) as H1.
    pose proof (pwf_setInt 1 off
                  (if negb (JS.shr value 7 =? 0)
                   then JS.or (JS.and value 127) 128
                   else JS.and value 127) false v Hv) as Hv1.
    unfold setUint8 in H.
    destruct (DataView.setInt 1 off _ false v) as [[[]|e] v1];
      cbn [snd] in H1, Hv1.
    + destruct (JS.shr value 7 =? 0).
      * inversion H; subst. split; [lia|].
        apply (changes_only_weaken _ _ _ _ _ _ H1); lia.
      * specialize (IH _ _ _ _ _ _ _ Hv1 H). destruct r as [k'|e].
        -- destruct IH as [Hk IH]. split; [lia|].
           eapply changes_only_trans.
           ++ apply (changes_only_weaken _ _ _ _ off (k' - k + 1) H1); lia.
           ++ apply (changes_only_weaken _ _ _ _ off (k' - k + 1) IH); lia.
        -- eapply changes_only_trans.
           ++ apply (changes_only_weaken _ _ _ _ off (Z.of_nat (S n)) H1);
                lia.
           ++ apply (changes_only_weaken _ _ _ _ off (Z.of_nat (S n)) IH);
                lia.
    + inversion H; subst. apply (changes_only_weaken _ _ _ _ _ _ H1); lia.
Qed.

Lemma returns_setVarInt off value mx :
  sets_what_it_returns (setVarInt off value mx) off.
Proof.
  intros v k v' Hv H. unfold setVarInt in H.
  apply setVarInt_loop_frame in H; [|exact Hv]. destruct H as [Hk H].
  apply (changes_only_weaken _ _ _ _ _ _ H); lia.
Qed.

Lemma setVarInt_returns_positive off value mx v k v' :
  wf v -> setVarInt off value mx v = (Ok k, v') -> 1 <= k.
Proof.
  intros Hv H. unfold setVarInt in H.
  apply setVarInt_loop_frame in H; [|exact Hv]. apply H.
Qed.

Lemma changes_only_TypedArray_set a bs v off :
  TypedArray.byteOffset a = super_byteOffset v + off ->
  0 <= super_byteOffset v + off ->
  super_byteOffset v + off + TypedArray.byteLength a
  <= Z.of_nat (length (buffer v)) ->
  changes_only v (snd (TypedArray_set a bs v)) off (Z.of_nat (length bs)).
Proof.
  intros Ha H0 H1. unfold TypedArray_set.
  destruct (_ <? _) eqn:E; cbn [snd]; [apply changes_only_refl|].
  rewrite Ha. apply (changes_only_written v off bs); lia.
Qed.

Lemma sets_only_setUint8Array off value :
  sets_only (setUint8Array off value) off (Z.of_nat (length value)).
Proof.
  intros v Hv. unfold setUint8Array, bind.
  destruct (getUint8Array off _ v) as [[a|e] v1] eqn:E; cbn [snd].
  - apply getUint8Array_inside in E. destruct E as (-> & Ha & H0 & _ & H1).
    apply changes_only_TypedArray_set; assumption.
  - pose proof (reads_bind _ _ reads_super_offset
                  (fun base => reads_new_TypedArray 1 (base + off)
                     (Some (Z.of_nat (length value)))) v) as K.
    fold (getUint8Array off (Some (Z.of_nat (length value)))) in K.
    rewrite E in K. cbn [snd] in K. subst v1. apply changes_only_refl.
Qed.

Lemma length_flat_map_le_bytes us :
  length (flat_map (le_bytes 2) us) = (2 * length us)%nat.
Proof.
  induction us as [|u us IH]; [reflexivity|].
  cbn [flat_map]. rewrite length_app, IH. cbn [le_bytes length]. lia.
Qed.

Lemma sets_only_setUint16Array off value :
  sets_only (setUint16Array off value) off (2 * Z.of_nat (length value)).
Proof.
  intros v Hv. unfold setUint16Array, bind.
  destruct (getUint16Array off _ v) as [[a|e] v1] eqn:E; cbn [snd].
  - apply getUint16Array_inside in E. destruct E as (-> & Ha & H0 & _ & H1).
    replace (2 * Z.of_nat (length value))
      with (Z.of_nat (length (flat_map (le_bytes 2) value)))
      by (rewrite length_flat_map_le_bytes; lia).
    apply changes_only_TypedArray_set; assumption.
  - pose proof (reads_bind _ _ reads_super_offset
                  (fun base => reads_new_TypedArray 2 (base + off)
                     (Some (2 * Z.of_nat (length value) / 2))) v) as K.
    fold (getUint16Array off (Some (2 * Z.of_nat (length value)))) in K.
    rewrite E in K. cbn [snd] in K. subst v1. apply changes_only_refl.
Qed.

Lemma returns_setString off value enc :
  sets_what_it_returns (setString off value enc) off.
Proof.
  intros v k v' Hv. unfold setString. unfold bind at 1.
  destruct (match enc with
            | Some (String a s) =>
                if negb (String.eqb (String a s) "utf-8")
                then throw (TypeError_encoding (String a s))
                else ret tt
            | _ => ret tt
            end v) as [[[]|e] v0] eqn:E0; [|discriminate].
  assert (v0 = v) as ->.
  { destruct enc as [[|a s]|]; cbn in E0; try (inversion E0; reflexivity).
    destruct (negb _); inversion E0; reflexivity. }
  unfold bind at 1. unfold this_byteLength. unfold bind at 1.
  destruct (getUint8Array off _ v) as [[a|e] v1] eqn:E; [|discriminate].
  apply getUint8Array_inside in E. destruct E as (-> & Ha & H0 & _ & H1).
  unfold encodeInto. unfold bind.
  set (bs := UTF.fill _ _).
  pose proof (changes_only_TypedArray_set a bs v off Ha H0 H1) as K.
  destruct (TypedArray_set a bs v) as [[[]|e] v1]; [|discriminate].
  unfold ret. intros H. inversion H; subst. cbn [snd] in K.
  unfold JS.number_or.
  destruct (Z.of_nat (length bs) =? 0) eqn:E0'; [|exact K].
  apply (changes_only_weaken _ _ _ _ _ _ K); lia.
Qed.

Lemma returns_setVarString off value :
  sets_what_it_returns (setVarString off value) off.
Proof.
  intros v k v' Hv. unfold setVarString. unfold bind at 1.
  destruct (setVarInt off _ None v) as [[d|e] v1] eqn:E; [|discriminate].
  pose proof (returns_setVarInt _ _ _ _ _ _ Hv E) as K1.
  pose proof (setVarInt_returns_positive _ _ _ _ _ _ Hv E) as Hd.
  pose proof (pwf_setVarInt off (Z.of_nat (length (UTF.encode value))) None
                v Hv) as Hv1.
  rewrite E in Hv1. cbn [snd] in Hv1.
  pose proof (sets_only_setUint8Array (off + d) (UTF.encode value) v1 Hv1)
    as K2.
  unfold bind.
  destruct (setUint8Array (off + d) (UTF.encode value) v1)
    as [[[]|e] v2]; [|discriminate].
  unfold ret. intros H. inversion H; subst. cbn [snd] in K2.
  eapply changes_only_trans.
  - apply (changes_only_weaken _ _ _ _ off
             (d + Z.of_nat (length (UTF.encode value))) K1); lia.
  - apply (changes_only_weaken _ _ _ _ off
             (d + Z.of_nat (length (UTF.encode value))) K2); lia.
Qed.

(** X13.  A positional set changes nothing but the bytes it is meant to
    write: not the cursor, not the extent of the view, not the size of the
    buffer and no byte outside [off, off+W), where [W] is the width of the
    type, the length of the array given or, for the variable-length setters,
    the byte length returned.  For the fixed-width and array setters this
    holds also when they throw. *)
Theorem positional_sets_touch_only_their_bytes
    (off z : Z) (le b : bool) (n : number) (maxLen : option Z)
    (enc : option string) (bs : list Z) (us : list Z) (s : jsstring) :
  (sets_only (setBool off b) off 1 /\ sets_only (setInt8 off z) off 1 /\
   sets_only (setUint8 off z) off 1) /\
  (sets_only (setInt16 off z le) off 2 /\
   sets_only (setUint16 off z le) off 2) /\
  (sets_only (setInt32 off z le) off 4 /\
   sets_only (setUint32 off z le) off 4 /\
   sets_only (setFloat32 off z le) off 4) /\
  (sets_only (setFloat64 off z le) off 8 /\
   sets_only (setBigInt64 off z le) off 8 /\
   sets_only (setBigUint64 off z le) off 8 /\
   sets_only (setInt64 off n le) off 8 /\
   sets_only (setUint64 off n le) off 8) /\
  (sets_only (setUint8Array off bs) off (Z.of_nat (length bs)) /\
   sets_only (setUint16Array off us) off (2 * Z.of_nat (length us))) /\
  (sets_what_it_returns (setVarInt off z maxLen) off /\
   sets_what_it_returns (setVarUint off z maxLen) off /\
   sets_what_it_returns (setVarZint off z maxLen) off /\
   sets_what_it_returns (setString off s enc) off /\
   sets_what_it_returns (setVarString off s) off).
Proof.
  repeat match goal with |- _ /\ _ => split end;
    try apply sets_only_setUint8Array;
    try apply sets_only_setUint16Array;
    try apply returns_setString;
    try apply returns_setVarString;
    try apply returns_setVarInt;
    try (apply (sets_only_setInt 1));
    try (apply (sets_only_setInt 2));
    try (apply (sets_only_setInt 4));
    try (apply (sets_only_setInt 8)).
  - intros v Hv. unfold setInt64, BigInt. destruct n as [x|].
    + apply (sets_only_setInt 8 off x le v Hv).
    + apply changes_only_refl.
  - intros v Hv. unfold setUint64, BigInt. destruct n as [x|].
    + apply (sets_only_setInt 8 off x le v Hv).
    + apply changes_only_refl.
Qed.

(** ** [clear] *)

Lemma length_zeros n : length (zeros n) = n.
Proof. apply repeat_length. Qed.

(** X14.  [clear()] zeroes every byte from the start of the view to the end
    of the buffer, the bytes after the end of the view included; it keeps
    the bytes before the view and the cursor, and never throws. *)
Theorem clear_zeroes_to_the_end_of_the_buffer (v : ByteBuf) :
  wf v ->
  let base := Z.to_nat (super_byteOffset v) in
  clear v =
    (Ok tt,
     with_buffer v
       (take base (buffer v) ++ zeros (length (buffer v) - base))).
Proof.
  intros (Hb & Hl & Hf & _) base. unfold clear.
  rewrite (bind_Ok _ _ _ _ _ (getUint8Array_to_buffer_end v 0 ltac:(lia))).
  unfold TypedArray_set. cbn [TypedArray.byteLength TypedArray.byteOffset].
  rewrite length_zeros.
  destruct (_ <? _) eqn:E; [lia|].
  do 2 f_equal. unfold store. rewrite length_zeros.
  replace (Z.to_nat (super_byteOffset v + 0)) with base by (subst base; lia).
  replace (Z.to_nat (Z.of_nat (length (buffer v)) - (super_byteOffset v + 0)))
    with (length (buffer v) - base)%nat by (subst base; lia).
  rewrite drop_ge by lia. rewrite app_nil_r. reflexivity.
Qed.

Lemma clear_zeroes_to_the_end_of_the_buffer_witness :
  wf view_2_2 /\
  clear view_2_2 = (Ok tt, with_buffer view_2_2 [1; 2; 0; 0; 0; 0]).
Proof.
  assert (Hwf : wf view_2_2) by (apply wfb_wf; reflexivity).
  split; [exact Hwf|].
  exact (clear_zeroes_to_the_end_of_the_buffer view_2_2 Hwf).
Defined.

(** ** Typed-array views *)

Lemma getUint8Array_given_length v off len :
  0 <= super_byteOffset v + off -> 0 <= len ->
  super_byteOffset v + off + len <= Z.of_nat (length (buffer v)) ->
  getUint8Array off (Some len) v =
    (Ok {| TypedArray.byteOffset := super_byteOffset v + off;
           TypedArray.byteLength := len |}, v).
Proof.
  intros H0 Hl H1. unfold getUint8Array, super_offset, bind, new_TypedArray.
  rewrite Z.mod_1_r. cbn [Z.eqb negb orb].
  destruct (super_byteOffset v + off <? 0) eqn:E0; [lia|].
  rewrite Z.mul_1_r.
  destruct ((len <? 0) || _) eqn:E1; [lia|]. reflexivity.
Qed.

Lemma getUint8Array_outside_buffer v off len :
  super_byteOffset v + off < 0 \/ len < 0
  \/ Z.of_nat (length (buffer v)) < super_byteOffset v + off + len ->
  getUint8Array off (Some len) v = (Throw RangeError_bounds, v).
Proof.
  intros H. unfold getUint8Array, super_offset, bind, new_TypedArray.
  rewrite Z.mod_1_r. cbn [Z.eqb negb orb].
  destruct (super_byteOffset v + off <? 0) eqn:E0; [reflexivity|].
  rewrite Z.mul_1_r.
  destruct ((len <? 0) || _) eqn:E1; [reflexivity | lia].
Qed.

Lemma setUint8Array_in_buffer v off bs :
  0 <= super_byteOffset v + off ->
  super_byteOffset v + off + Z.of_nat (length bs)
  <= Z.of_nat (length (buffer v)) ->
  setUint8Array off bs v = (Ok tt, written v off bs).
Proof.
  intros H0 H1. unfold setUint8Array.
  rewrite (bind_Ok _ _ _ _ _
             (getUint8Array_given_length v off (Z.of_nat (length bs)) H0
                ltac:(lia) H1)).
  unfold TypedArray_set. cbn [TypedArray.byteLength TypedArray.byteOffset].
  destruct (_ <? _) eqn:E; [lia | reflexivity].
Qed.

(** X15.  [getUint8Array] and [setUint8Array] check their range against the
    buffer, not against the view: any range of the buffer is accepted, a
    negative offset or a range past the end of the view included, and only a
    range that leaves the buffer throws.  What [setUint8Array] writes,
    [getUint8Array] with the same offset and length covers. *)
Theorem uint8Array_range_is_the_buffers (v : ByteBuf) (off : Z)
    (bs : list Z) :
  let len := Z.of_nat (length bs) in
  let a := {| TypedArray.byteOffset := super_byteOffset v + off;
              TypedArray.byteLength := len |} in
  (0 <= super_byteOffset v + off ->
   super_byteOffset v + off + len <= Z.of_nat (length (buffer v)) ->
   setUint8Array off bs v = (Ok tt, written v off bs) /\
   getUint8Array off (Some len) (written v off bs)
   = (Ok a, written v off bs) /\
   contents a (written v off bs) = (Ok bs, written v off bs)) /\
  (super_byteOffset v + off < 0
   \/ Z.of_nat (length (buffer v)) < super_byteOffset v + off + len ->
   setUint8Array off bs v = (Throw RangeError_bounds, v) /\
   getUint8Array off (Some len) v = (Throw RangeError_bounds, v)).
Proof.
  intros len a. split.
  - intros H0 H1.
    assert (Hlen : length (buffer (written v off bs)) = length (buffer v)).
    { unfold written. cbn. apply length_store. lia. }
    split; [|split].
    + apply setUint8Array_in_buffer; assumption.
    + apply getUint8Array_given_length; [exact H0 | lia |].
      rewrite Hlen. exact H1.
    + unfold contents, written. cbn. do 2 f_equal.
      subst len. rewrite Nat2Z.id. apply slice_store. lia.
  - intros H.
    assert (K : getUint8Array off (Some len) v = (Throw RangeError_bounds, v))
      by (apply getUint8Array_outside_buffer; lia).
    split; [|exact K].
    unfold setUint8Array. apply (bind_Throw _ _ _ _ _ K).
Qed.

Lemma uint8Array_range_is_the_buffers_witness :
  setUint8Array (-2) [9; 9; 9; 9; 9; 9] view_2_2
  = (Ok tt, with_buffer view_2_2 [9; 9; 9; 9; 9; 9]) /\
  setUint8Array 0 [9; 9; 9; 9; 9] view_2_2
  = (Throw RangeError_bounds, view_2_2).
Proof.
  split.
  - exact (proj1 (proj1 (uint8Array_range_is_the_buffers view_2_2 (-2)
                           [9; 9; 9; 9; 9; 9])
                    ltac:(cbn; lia) ltac:(cbn; lia))).
  - exact (proj1 (proj2 (uint8Array_range_is_the_buffers view_2_2 0
                           [9; 9; 9; 9; 9])
                    ltac:(cbn; lia))).
Defined.

Ltac Zify.zify_post_hook ::= Z.to_euclidean_division_equations.

Lemma getUint16Array_even v off n :
  (super_byteOffset v + off) mod 2 = 0 ->
  0 <= super_byteOffset v + off -> 0 <= n ->
  super_byteOffset v + off + 2 * (n / 2) <= Z.of_nat (length (buffer v)) ->
  getUint16Array off (Some n) v =
    (Ok {| TypedArray.byteOffset := super_byteOffset v + off;
           TypedArray.byteLength := 2 * (n / 2) |}, v).
Proof.
  intros Heven H0 Hn H1.
  unfold getUint16Array, super_offset, bind, new_TypedArray.
  destruct ((super_byteOffset v + off <? 0) || _) eqn:E; [lia|].
  destruct ((n / 2 <? 0) || _) eqn:E1; [lia|].
  do 2 f_equal. f_equal. lia.
Qed.

(** X16.  [getUint16Array] needs an even position in the buffer: at an odd
    one it throws, whatever the length.  At an even one, a byte length [n]
    is rounded down to whole elements: when these lie inside the buffer the
    array covers [2 * (n / 2)] bytes, and that is how far [readUint16Array]
    moves the cursor. *)
Theorem getUint16Array_alignment_and_length (v : ByteBuf) (off n : Z)
    (len : option Z) :
  ((super_byteOffset v + off) mod 2 = 1 ->
   getUint16Array off len v = (Throw RangeError_bounds, v)) /\
  ((super_byteOffset v + off) mod 2 = 0 ->
   0 <= super_byteOffset v + off -> 0 <= n ->
   super_byteOffset v + off + 2 * (n / 2) <= Z.of_nat (length (buffer v)) ->
   getUint16Array off (Some n) v =
     (Ok {| TypedArray.byteOffset := super_byteOffset v + off;
            TypedArray.byteLength := 2 * (n / 2) |}, v) /\
   (off = priv_byteOffset v ->
    snd (readUint16Array (Some n) v)
    = with_cursor v (priv_byteOffset v + 2 * (n / 2)))).
Proof.
  split.
  - intros Hodd. unfold getUint16Array, super_offset, bind, new_TypedArray.
    destruct ((super_byteOffset v + off <? 0) || _) eqn:E; [reflexivity|].
    lia.
  - intros Heven H0 Hn H1.
    pose proof (getUint16Array_even v off n Heven H0 Hn H1) as K.
    split; [exact K|]. intros ->.
    unfold readUint16Array. unfold bind at 1. unfold cursor.
    rewrite (bind_Ok _ _ _ _ _ K). reflexivity.
Qed.

Ltac Zify.zify_post_hook ::= idtac.

Lemma getUint16Array_alignment_and_length_witness :
  getUint16Array 0 (Some 4) view_3_5 = (Throw RangeError_bounds, view_3_5) /\
  getUint16Array 0 (Some 3) view_2_2 =
    (Ok {| TypedArray.byteOffset := 2; TypedArray.byteLength := 2 |},
     view_2_2) /\
  snd (readUint16Array (Some 3) view_2_2) = with_cursor view_2_2 2.
Proof.
  split.
  - exact (proj1 (getUint16Array_alignment_and_length view_3_5 0 0 (Some 4))
             eq_refl).
  - pose proof (proj2 (getUint16Array_alignment_and_length view_2_2 0 3 None)
                  eq_refl ltac:(cbn; lia) ltac:(lia)
                  ltac:(apply Z.leb_le; reflexivity))
      as [K1 K2].
    split; [exact K1 | exact (K2 eq_refl)].
Defined.

(** *** Sixteen-bit elements and the byte order of [getUint16] *)

Lemma slice_store_inside p bs buf i n :
  (p + length bs <= length buf)%nat -> (i + n <= length bs)%nat ->
  slice (p + i) n (store p bs buf) = slice i n bs.
Proof.
  intros Hp Hi. unfold slice, store.
  rewrite drop_app_add' by (rewrite length_take; lia).
  rewrite drop_app_le by lia.
  apply take_app_le. rewrite length_drop. lia.
Qed.

Lemma slice_flat_map_le_bytes us : forall (i : nat) x,
  us !! i = Some x ->
  slice (2 * i) 2 (flat_map (le_bytes 2) us) = le_bytes 2 x.
Proof.
  induction us as [|y us IH]; intros i x Hi; [discriminate|].
  destruct i as [|i].
  - inversion Hi; subst. reflexivity.
  - cbn [lookup list_lookup] in Hi.
    replace (2 * S i)%nat with (S (S (2 * i))) by lia.
    cbn [flat_map le_bytes app]. unfold slice. cbn [drop].
    apply (IH i x Hi).
Qed.

Ltac Zify.zify_post_hook ::= Z.to_euclidean_division_equations.

(** X17.  [setUint16Array] stores each element least significant byte first,
    as the platform does.  An element is therefore read back by [getUint16]
    asked for little-endian order; asked for big-endian order, which is what
    [getUint16] does when its flag is omitted, the two bytes come back
    swapped. *)
Theorem setUint16Array_is_little_endian (v : ByteBuf) (off : Z)
    (us : list Z) (i : nat) (x : Z) :
  let v' := written v off (flat_map (le_bytes 2) us) in
  wf v -> 0 <= off -> (super_byteOffset v + off) mod 2 = 0 ->
  off + 2 * Z.of_nat (length us) <= byteLength v ->
  us !! i = Some x -> 0 <= x < 65536 ->
  setUint16Array off us v = (Ok tt, v') /\
  getUint16 (off + 2 * Z.of_nat i) true v' = (Ok x, v') /\
  getUint16 (off + 2 * Z.of_nat i) false v'
  = (Ok (x mod 256 * 256 + x / 256), v').
Proof.
  intros v' (Hb & Hl & Hf & _) H0 Heven Hfit Hi Hx.
  pose proof (length_flat_map_le_bytes us) as Hlen.
  pose proof (lookup_lt_Some _ _ _ Hi) as Hlt.
  assert (Hslice : slice (Z.to_nat (super_byteOffset v
                                    + (off + 2 * Z.of_nat i))) 2
                     (buffer v') = le_bytes 2 x).
  { unfold v', written. cbn [buffer with_buffer].
    replace (Z.to_nat (super_byteOffset v + (off + 2 * Z.of_nat i)))
      with (Z.to_nat (super_byteOffset v + off) + 2 * i)%nat by lia.
    rewrite slice_store_inside by lia.
    apply slice_flat_map_le_bytes, Hi. }
  assert (Hget : forall le,
            getUint16 (off + 2 * Z.of_nat i) le v'
            = (Ok (RawBytesToNumeric (le_bytes 2 x) le), v')).
  { intros le. unfold getUint16, DataView.getUint, bind, GetViewValue.
    change (byteLength v') with (byteLength v).
    change (super_byteOffset v') with (super_byteOffset v).
    destruct ((off + 2 * Z.of_nat i <? 0) || _) eqn:E; [lia|].
    rewrite Hslice. reflexivity. }
  split; [|split].
  - unfold setUint16Array.
    rewrite (bind_Ok _ _ _ _ _
               (getUint16Array_even v off (2 * Z.of_nat (length us)) Heven
                  ltac:(lia) ltac:(lia) ltac:(lia))).
    unfold TypedArray_set.
    cbn [TypedArray.byteLength TypedArray.byteOffset].
    destruct (2 * (2 * Z.of_nat (length us) / 2)
              <? Z.of_nat (length (flat_map (le_bytes 2) us))) eqn:E;
      [lia | reflexivity].
  - rewrite Hget. unfold RawBytesToNumeric.
    rewrite be_value_rev_le_bytes. do 2 f_equal.
    change (256 ^ Z.of_nat 2) with 65536. lia.
  - rewrite Hget. unfold RawBytesToNumeric. cbn [le_bytes be_value].
    do 2 f_equal. lia.
Qed.

Ltac Zify.zify_post_hook ::= idtac.

Lemma setUint16Array_is_little_endian_witness :
  setUint16Array 0 [258; 772] view_8
  = (Ok tt, with_buffer view_8 [2; 1; 4; 3; 0; 0; 0; 0]) /\
  getUint16 2 true (with_buffer view_8 [2; 1; 4; 3; 0; 0; 0; 0])
  = (Ok 772, with_buffer view_8 [2; 1; 4; 3; 0; 0; 0; 0]) /\
  getUint16 2 false (with_buffer view_8 [2; 1; 4; 3; 0; 0; 0; 0])
  = (Ok 1027, with_buffer view_8 [2; 1; 4; 3; 0; 0; 0; 0]).
Proof.
  exact (setUint16Array_is_little_endian view_8 0 [258; 772] 1 772
           ltac:(apply wfb_wf; reflexivity) ltac:(lia) eq_refl
           ltac:(cbn; lia) eq_refl ltac:(lia)).
Defined.

(** ** Strings *)

(** *** What [encodeInto] writes *)

Lemma length_utf8 cp : (1 <= length (UTF.utf8 cp) <= 4)%nat.
Proof.
  unfold UTF.utf8.
  destruct (cp <? 128); [cbn; lia|].
  destruct (cp <? 2048); [cbn; lia|].
  destruct (cp <? 65536); cbn; lia.
Qed.

Lemma length_fill_le cps : forall room,
  (length (UTF.fill cps room) <= room)%nat.
Proof.
  induction cps as [|cp cps IH]; intros room; cbn [UTF.fill];
    [cbn; lia|].
  destruct (length (UTF.utf8 cp) <=? room)%nat eqn:E; [|cbn; lia].
  rewrite length_app. specialize (IH (room - length (UTF.utf8 cp))%nat).
  apply Nat.leb_le in E. lia.
Qed.

Lemma fill_all cps : forall room,
  (length (flat_map UTF.utf8 cps) <= room)%nat ->
  UTF.fill cps room = flat_map UTF.utf8 cps.
Proof.
  induction cps as [|cp cps IH]; intros room H; [reflexivity|].
  cbn [UTF.fill flat_map] in *. rewrite length_app in H.
  destruct (length (UTF.utf8 cp) <=? room)%nat eqn:E.
  - rewrite IH by lia. reflexivity.
  - apply Nat.leb_gt in E. lia.
Qed.

Lemma fill_whole_code_points cps : forall room,
  exists k, UTF.fill cps room = flat_map UTF.utf8 (take k cps).
Proof.
  induction cps as [|cp cps IH]; intros room; [exists 0%nat; reflexivity|].
  cbn [UTF.fill].
  destruct (length (UTF.utf8 cp) <=? room)%nat.
  - destruct (IH (room - length (UTF.utf8 cp))%nat) as [k Hk].
    exists (S k). cbn [take flat_map]. now rewrite Hk.
  - exists 0%nat. reflexivity.
Qed.

Lemma length_scalar_values_n n : forall s,
  (length s <= n)%nat -> (length (UTF.scalar_values s) <= length s)%nat.
Proof.
  induction n as [|n IH]; intros s Hn.
  - destruct s; [cbn; lia | cbn in Hn; lia].
  - destruct s as [|c s]; [cbn; lia|].
    cbn [length] in Hn. cbn [UTF.scalar_values].
    destruct (UTF.is_lead c).
    + destruct s as [|d s]; [cbn; lia|]. cbn [length] in Hn.
      destruct (UTF.is_trail d); cbn [length].
      * specialize (IH s). lia.
      * specialize (IH (d :: s)). cbn [length] in IH. lia.
    + destruct (UTF.is_trail c); cbn [length]; specialize (IH s); lia.
Qed.

Lemma length_flat_map_utf8 cps :
  (length (flat_map UTF.utf8 cps) <= 4 * length cps)%nat.
Proof.
  induction cps as [|cp cps IH]; [cbn; lia|].
  cbn [flat_map length]. rewrite length_app.
  pose proof (length_utf8 cp). lia.
Qed.

(** The encoding of a string takes at most four bytes for each code
    unit. *)
Lemma length_encode_le s : (length (UTF.encode s) <= 4 * length s)%nat.
Proof.
  unfold UTF.encode.
  pose proof (length_flat_map_utf8 (UTF.scalar_values s)).
  pose proof (length_scalar_values_n (length s) s ltac:(lia)). lia.
Qed.

Lemma guard_requests_utf8 enc v :
  requests_utf8 enc ->
  match enc with
  | Some (String a s) =>
      if negb (String.eqb (String a s) "utf-8")
      then throw (TypeError_encoding (String a s))
      else ret tt
  | _ => ret tt
  end v = (Ok tt, v).
Proof. intros [-> | [-> | ->]]; reflexivity. Qed.

(** What [setString] does when the encoding is accepted. *)
Lemma setString_fills v off s enc :
  let room := Z.min (byteLength v - off) (Z.of_nat (length s) * 4) in
  let bs := UTF.fill (UTF.scalar_values s) (Z.to_nat room) in
  wf v -> 0 <= off <= byteLength v -> requests_utf8 enc ->
  setString off s enc v = (Ok (Z.of_nat (length bs)), written v off bs).
Proof.
  intros room bs (Hb & Hl & Hf & _) Hoff Henc.
  pose proof (length_fill_le (UTF.scalar_values s) (Z.to_nat room)) as Hle.
  fold bs in Hle.
  assert (Hroom : 0 <= room) by (subst room; lia).
  unfold setString.
  rewrite (bind_Ok _ _ _ _ _ (guard_requests_utf8 enc v Henc)).
  unfold bind at 1. unfold this_byteLength. fold room.
  rewrite (bind_Ok _ _ _ _ _
             (getUint8Array_given_length v off room ltac:(lia) Hroom
                ltac:(subst room; lia))).
  unfold encodeInto. cbn [TypedArray.byteLength]. fold bs.
  unfold bind, TypedArray_set.
  cbn [TypedArray.byteLength TypedArray.byteOffset].
  destruct (room <? Z.of_nat (length bs)) eqn:E; [lia|].
  unfold ret, JS.number_or.
  destruct (Z.of_nat (length bs) =? 0) eqn:E0; [|reflexivity].
  do 2 f_equal. lia.
Qed.

(** X18.  [setString] at an offset of the view writes the UTF-8 encoding of
    the string as far as the view has room and returns the number of bytes
    written.  It never throws for lack of room: it stops before the first
    code point that does not fit, so it writes whole code points only, and a
    string that fits is written in full. *)
Theorem setString_writes_what_fits (v : ByteBuf) (off : Z) (s : jsstring)
    (enc : option string) :
  let room := Z.min (byteLength v - off) (Z.of_nat (length s) * 4) in
  let bs := UTF.fill (UTF.scalar_values s) (Z.to_nat room) in
  wf v -> 0 <= off <= byteLength v -> requests_utf8 enc ->
  setString off s enc v = (Ok (Z.of_nat (length bs)), written v off bs) /\
  off + Z.of_nat (length bs) <= byteLength v /\
  (exists k, bs = flat_map UTF.utf8 (take k (UTF.scalar_values s))) /\
  (off + Z.of_nat (length (UTF.encode s)) <= byteLength v ->
   bs = UTF.encode s).
Proof.
  intros room bs Hwf Hoff Henc.
  pose proof (length_fill_le (UTF.scalar_values s) (Z.to_nat room)) as Hle.
  fold bs in Hle.
  split; [|split; [|split]].
  - apply setString_fills; assumption.
  - subst room. lia.
  - apply fill_whole_code_points.
  - intros Hfit. apply fill_all. fold (UTF.encode s).
    pose proof (length_encode_le s). subst room. lia.
Qed.

Lemma setString_writes_what_fits_witness :
  setString 1 [104; 233; 8364] None view_3_5
  = (Ok 3, with_buffer view_3_5 [0; 0; 0; 0; 104; 195; 169; 0]).
Proof.
  assert (Hwf : wf view_3_5) by (apply wfb_wf; reflexivity).
  exact (proj1 (setString_writes_what_fits view_3_5 1 [104; 233; 8364] None
                  Hwf ltac:(cbn; lia) (or_introl eq_refl))).
Defined.

(** *** Strings with a length prefix *)

Lemma slice_store_prefix pos a b buf :
  (pos + length a + length b <= length buf)%nat ->
  slice pos (length a) (store pos (a ++ b) buf) = a.
Proof.
  intros H. unfold slice, store.
  rewrite drop_app_length' by (rewrite length_take; lia).
  rewrite <- app_assoc. apply take_app_length.
Qed.

Lemma slice_store_suffix pos a b buf :
  (pos + length a + length b <= length buf)%nat ->
  slice (pos + length a) (length b) (store pos (a ++ b) buf) = b.
Proof.
  intros H. unfold slice, store.
  rewrite <- (app_assoc a b), (app_assoc (take pos buf) a).
  rewrite drop_app_length'
    by (rewrite length_app, length_take; lia).
  apply take_app_length.
Qed.

Ltac view_fields :=
  cbn [buffer super_byteOffset byteLength with_buffer].

Section VarStrings.

Variable TextDecoder : string -> option (list Z -> jsstring).
Variable decode : list Z -> jsstring.
Hypothesis utf8_known : TextDecoder "utf-8" = Some decode.

(** What [setVarString] writes, and what the two steps of [getVarString]
    read from it. *)
Lemma setVarString_then_getString (v : ByteBuf) (off : Z)
    (s : jsstring) :
  let bs := UTF.encode s in
  let len := Z.of_nat (length bs) in
  let g := spec_base128_groups 10 len in
  let k := Z.of_nat (length g) in
  let v' := written v off (g ++ bs) in
  wf v -> 0 <= off -> len < 2 ^ 32 -> off + k + len <= byteLength v ->
  setVarString off s v = (Ok (k + len), v') /\
  getVarUint off None v' =
    (Ok {| IntResult.value := len; IntResult.byteLength := k |}, v') /\
  getString TextDecoder (off + k) (Some len) None v' = (Ok (decode bs), v').
Proof.
  intros bs len g k v' Hwf H0 Hlen Hfit.
  pose proof Hwf as (Hb & Hl & Hf & _).
  assert (Hk : k = Z.of_nat (length g)) by reflexivity.
  assert (Hn : len = Z.of_nat (length bs)) by reflexivity.
  assert (Hu : JS.ToUint32 len = len).
  { unfold JS.ToUint32. apply Z.mod_small. lia. }
  assert (Hg : getVarUint off None v' =
                 (Ok {| IntResult.value := len;
                        IntResult.byteLength := k |}, v')).
  { apply getVarUint_reads_groups.
    - lia.
    - exact Hb.
    - exact H0.
    - fold g. fold k. unfold v', written.
      view_fields. lia.
    - fold g. unfold bytes_at, v', written. view_fields. rewrite Nat2Z.id.
      apply slice_store_prefix. lia. }
  assert (Hstr : getString TextDecoder (off + k) (Some len) None v' =
                   (Ok (decode bs), v')).
  { unfold getString, new_TextDecoder. cbn [JS.string_or].
    rewrite utf8_known. cbv iota.
    rewrite (bind_Ok (ret decode) _ _ _ _ eq_refl).
    assert (Hlen' : length (buffer v') = length (buffer v)).
    { unfold v', written. view_fields. apply length_store.
      rewrite length_app. lia. }
    rewrite (bind_Ok _ _ _ _ _
               (getUint8Array_given_length v' (off + k) len
                  ltac:(unfold v', written; view_fields; lia) ltac:(lia)
                  ltac:(rewrite Hlen'; unfold v', written;
                        view_fields; lia))).
    unfold bind, contents, ret.
    cbn [TypedArray.byteOffset TypedArray.byteLength].
    do 2 f_equal. unfold v', written.
    view_fields.
    replace (Z.to_nat (super_byteOffset v + (off + k)))
      with (Z.to_nat (super_byteOffset v + off) + length g)%nat
      by (subst k; lia).
    unfold len. rewrite Nat2Z.id. f_equal. apply slice_store_suffix. lia. }
  split; [|split; [exact Hg | exact Hstr]].
  - unfold setVarString. fold bs. fold len.
    destruct (setVarInt_encodes v off len Hwf H0) as (_ & Hset).
    { rewrite Hu. fold g. lia. }
    rewrite Hu in Hset. fold g in Hset. fold k in Hset.
    rewrite (bind_Ok _ _ _ _ _ Hset).
    assert (Hlen1 : length (buffer (written v off g)) = length (buffer v)).
    { unfold written. view_fields.
      apply length_store. lia. }
    rewrite (bind_Ok _ _ _ _ _
               (setUint8Array_in_buffer (written v off g) (off + k) bs
                  ltac:(unfold written;
                        view_fields;
                        lia)
                  ltac:(rewrite Hlen1; unfold written;
                        view_fields;
                        lia))).
    unfold ret. f_equal. unfold v', k.
    apply written_written_adjacent; lia.
Qed.

Lemma setVarString_then_getVarString_gen (v : ByteBuf) (off : Z)
    (s : jsstring) :
  let bs := UTF.encode s in
  let len := Z.of_nat (length bs) in
  let g := spec_base128_groups 10 len in
  let k := Z.of_nat (length g) in
  let v' := written v off (g ++ bs) in
  wf v -> 0 <= off -> len < 2 ^ 32 -> off + k + len <= byteLength v ->
  setVarString off s v = (Ok (k + len), v') /\
  getVarString TextDecoder off None v' =
    (Ok {| StringResult.value := decode bs;
           StringResult.byteLength := len + k |}, v').
Proof.
  intros bs len g k v' Hwf H0 Hlen Hfit.
  destruct (setVarString_then_getString v off s Hwf H0 Hlen Hfit)
    as (Hset & Hg & Hstr).
  fold bs in Hset, Hg, Hstr. fold len in Hset, Hg, Hstr.
  fold g in Hset, Hg, Hstr. fold k in Hset, Hg, Hstr.
  fold v' in Hset, Hg, Hstr.
  split; [exact Hset|].
  unfold getVarString. rewrite (bind_Ok _ _ _ _ _ Hg).
  cbn [IntResult.value IntResult.byteLength].
  rewrite (bind_Ok (ret tt) _ _ _ _ eq_refl).
  rewrite (bind_Ok _ _ _ _ _ Hstr). reflexivity.
Qed.

(** X19.  [setVarString] writes the byte length of the UTF-8 encoding as
    base-128 groups, then the encoding, and returns the length of both.
    [getVarString] at the same offset reads the length, decodes exactly that
    many bytes and returns the same total length.  Given a maximum that the
    encoded length exceeds, it throws the VarString error instead; the
    maximum bounds the string's bytes, not the prefix. *)
Theorem setVarString_then_getVarString (v : ByteBuf) (off : Z)
    (s : jsstring) :
  let bs := UTF.encode s in
  let len := Z.of_nat (length bs) in
  let g := spec_base128_groups 10 len in
  let k := Z.of_nat (length g) in
  let v' := written v off (g ++ bs) in
  wf v -> 0 <= off -> len < 2 ^ 32 -> off + k + len <= byteLength v ->
  setVarString off s v = (Ok (k + len), v') /\
  getVarString TextDecoder off None v' =
    (Ok {| StringResult.value := decode bs;
           StringResult.byteLength := len + k |}, v') /\
  (forall m, len <= m ->
     getVarString TextDecoder off (Some m) v' =
       (Ok {| StringResult.value := decode bs;
              StringResult.byteLength := len + k |}, v')) /\
  (forall m, m < len ->
     getVarString TextDecoder off (Some m) v' =
       (Throw (RangeError_VarString m), v')).
Proof.
  intros bs len g k v' Hwf H0 Hlen Hfit.
  destruct (setVarString_then_getString v off s Hwf H0 Hlen Hfit)
    as (Hset & Hg & Hstr).
  fold bs in Hset, Hg, Hstr. fold len in Hset, Hg, Hstr.
  fold g in Hset, Hg, Hstr. fold k in Hset, Hg, Hstr.
  fold v' in Hset, Hg, Hstr.
  split; [exact Hset|]. split; [|split].
  - unfold getVarString. rewrite (bind_Ok _ _ _ _ _ Hg).
    cbn [IntResult.value IntResult.byteLength].
    rewrite (bind_Ok (ret tt) _ _ _ _ eq_refl).
    rewrite (bind_Ok _ _ _ _ _ Hstr). reflexivity.
  - intros m Hm. unfold getVarString. rewrite (bind_Ok _ _ _ _ _ Hg).
    cbn [IntResult.value IntResult.byteLength].
    destruct (m <? len) eqn:E; [lia|].
    rewrite (bind_Ok (ret tt) _ _ _ _ eq_refl).
    rewrite (bind_Ok _ _ _ _ _ Hstr). reflexivity.
  - intros m Hm. unfold getVarString. rewrite (bind_Ok _ _ _ _ _ Hg).
    cbn [IntResult.value IntResult.byteLength].
    destruct (m <? len) eqn:E; [reflexivity | lia].
Qed.

End VarStrings.

Lemma setVarString_then_getVarString_witness :
  setVarString 1 [104; 105] view_8
  = (Ok 3, with_buffer view_8 [0; 2; 104; 105; 0; 0; 0; 0]) /\
  getVarString Encoding.TextDecoder 1 None
    (with_buffer view_8 [0; 2; 104; 105; 0; 0; 0; 0])
  = (Ok {| StringResult.value := [104; 105];
           StringResult.byteLength := 3 |},
     with_buffer view_8 [0; 2; 104; 105; 0; 0; 0; 0]).
Proof.
  assert (Hwf : wf view_8) by (apply wfb_wf; reflexivity).
  destruct (setVarString_then_getVarString Encoding.TextDecoder
              Encoding.utf8_decode eq_refl view_8 1 [104; 105] Hwf
              ltac:(lia) ltac:(vm_compute; reflexivity)
              ltac:(vm_compute; congruence))
    as (Hs & Hg & _).
  exact (conj Hs Hg).
Defined.

(** ** Strings through the Encoding Standard's UTF-8 decoder *)

Ltac Zify.zify_post_hook ::= Z.to_euclidean_division_equations.

(** *** Code units and scalar values *)

Lemma well_formed_scalars_n n : forall s,
  (length s <= n)%nat -> well_formed s = true ->
  Forall is_scalar (UTF.scalar_values s)
  /\ UTF.code_units (UTF.scalar_values s) = s
  /\ (hd 0 (UTF.scalar_values s) = BOM <-> hd 0 s = BOM).
Proof.
  induction n as [|n IH]; intros s Hn Hs.
  - destruct s; [|cbn in Hn; lia].
    cbn. split; [constructor|]. split; [reflexivity | tauto].
  - destruct s as [|c s].
    { cbn. split; [constructor|]. split; [reflexivity | tauto]. }
    cbn [length] in Hn. cbn [well_formed] in Hs.
    apply andb_true_iff in Hs. destruct Hs as [Hc Hs].
    apply andb_true_iff in Hc. destruct Hc as [Hc0 Hc1].
    cbn [UTF.scalar_values].
    destruct (UTF.is_lead c) eqn:El.
    + destruct s as [|d s]; [discriminate|].
      apply andb_true_iff in Hs. destruct Hs as [Ht Hs].
      rewrite Ht. cbn [length] in Hn.
      destruct (IH s ltac:(lia) Hs) as (IH1 & IH2 & _).
      unfold UTF.is_lead, UTF.is_trail in *.
      split; [|split].
      * constructor; [unfold is_scalar; lia | exact IH1].
      * unfold UTF.code_units in *. cbn [flat_map].
        destruct (65536 + (c - 55296) * 1024 + (d - 56320) <? 65536) eqn:E;
          [lia|].
        cbn [app]. rewrite IH2. f_equal; [lia|]. f_equal. lia.
      * cbn [hd]. unfold BOM. lia.
    + apply andb_true_iff in Hs. destruct Hs as [Ht Hs].
      apply negb_true_iff in Ht. rewrite Ht.
      destruct (IH s ltac:(lia) Hs) as (IH1 & IH2 & _).
      unfold UTF.is_lead, UTF.is_trail in *.
      split; [|split].
      * constructor; [unfold is_scalar; lia | exact IH1].
      * unfold UTF.code_units in *. cbn [flat_map].
        destruct (c <? 65536) eqn:E; [|lia].
        cbn [app]. now rewrite IH2.
      * cbn [hd]. tauto.
Qed.

Lemma well_formed_scalars s :
  well_formed s = true ->
  Forall is_scalar (UTF.scalar_values s)
  /\ UTF.code_units (UTF.scalar_values s) = s
  /\ (hd 0 (UTF.scalar_values s) = BOM <-> hd 0 s = BOM).
Proof. apply (well_formed_scalars_n (length s)). lia. Qed.

(** *** The decoder on the encoding of one scalar value *)

Lemma utf8_run_utf8 cp rest :
  is_scalar cp ->
  Encoding.utf8_run (UTF.utf8 cp ++ rest) 0 0 128 191
  = cp :: Encoding.utf8_run rest 0 0 128 191.
Proof.
  intros [Hr Hs]. unfold UTF.utf8.
  destruct (cp <? 128) eqn:E1; [|destruct (cp <? 2048) eqn:E2;
    [|destruct (cp <? 65536) eqn:E3]].
  - cbn [app Encoding.utf8_run Z.eqb]. unfold Encoding.utf8_first.
    destruct (cp <=? 127) eqn:E; [reflexivity | lia].
  - cbn [app Encoding.utf8_run Z.eqb]. unfold Encoding.utf8_first.
    destruct (192 + cp / 64 <=? 127) eqn:Ea; [lia|].
    destruct ((194 <=? 192 + cp / 64) && (192 + cp / 64 <=? 223)) eqn:Eb;
      [|lia].
    cbn [app Encoding.utf8_run Z.eqb].
    destruct ((128 + cp mod 64 <? 128) || (191 <? 128 + cp mod 64)) eqn:Ec;
      [lia|].
    f_equal. lia.
  - cbn [app Encoding.utf8_run Z.eqb]. unfold Encoding.utf8_first.
    destruct (224 + cp / 4096 <=? 127) eqn:Ea; [lia|].
    destruct ((194 <=? 224 + cp / 4096) && (224 + cp / 4096 <=? 223)) eqn:Eb;
      [lia|].
    destruct ((224 <=? 224 + cp / 4096) && (224 + cp / 4096 <=? 239)) eqn:Ec;
      [|lia].
    cbn [app Encoding.utf8_run Z.eqb].
    destruct (224 + cp / 4096 =? 224) eqn:Ed;
      destruct (224 + cp / 4096 =? 237) eqn:Ee; try lia;
      match goal with
      | |- context [(?a <? ?lo) || (?hi <? ?a)] =>
          destruct ((a <? lo) || (hi <? a)) eqn:Ef; [lia|]
      end;
      cbn [Z.eqb Pos.eqb];
      destruct ((128 + cp mod 64 <? 128) || (191 <? 128 + cp mod 64)) eqn:Eg;
      try lia; f_equal; lia.
  - cbn [app Encoding.utf8_run Z.eqb]. unfold Encoding.utf8_first.
    destruct (240 + cp / 262144 <=? 127) eqn:Ea; [lia|].
    destruct ((194 <=? 240 + cp / 262144) && (240 + cp / 262144 <=? 223))
      eqn:Eb; [lia|].
    destruct ((224 <=? 240 + cp / 262144) && (240 + cp / 262144 <=? 239))
      eqn:Ec; [lia|].
    destruct ((240 <=? 240 + cp / 262144) && (240 + cp / 262144 <=? 244))
      eqn:Eh; [|lia].
    cbn [app Encoding.utf8_run Z.eqb].
    destruct (240 + cp / 262144 =? 240) eqn:Ed;
      destruct (240 + cp / 262144 =? 244) eqn:Ee; try lia;
      match goal with
      | |- context [(?a <? ?lo) || (?hi <? ?a)] =>
          destruct ((a <? lo) || (hi <? a)) eqn:Ef; [lia|]
      end;
      cbn [Z.eqb Pos.eqb];
      destruct ((128 + (cp / 64) mod 64 <? 128)
                || (191 <? 128 + (cp / 64) mod 64)) eqn:Eg; try lia;
      cbn [Z.eqb Pos.eqb Z.sub Z.add Z.pos_sub Z.opp Pos.pred_double];
      destruct ((128 + cp mod 64 <? 128) || (191 <? 128 + cp mod 64)) eqn:Ei;
      try lia; f_equal; lia.
Qed.

Lemma utf8_run_encode cps :
  Forall is_scalar cps ->
  Encoding.utf8_run (flat_map UTF.utf8 cps) 0 0 128 191 = cps.
Proof.
  induction 1 as [|cp cps Hcp _ IH]; [reflexivity|].
  cbn [flat_map]. rewrite utf8_run_utf8 by exact Hcp. now rewrite IH.
Qed.

(** *** The byte-order mark *)

Ltac other_byte b :=
  let p := fresh "p" in
  destruct b as [|p|p]; try reflexivity; try congruence;
  do 8 (try (destruct p as [p|p|]; try reflexivity; try congruence)).

Lemma keep_first b1 r :
  b1 <> 239 ->
  match b1 :: r with
  | 239 :: 187 :: 191 :: rest => rest
  | _ => b1 :: r
  end = b1 :: r.
Proof. intros H. other_byte b1. Qed.

Lemma keep_second b2 r :
  b2 <> 187 ->
  match 239 :: b2 :: r with
  | 239 :: 187 :: 191 :: rest => rest
  | _ => 239 :: b2 :: r
  end = 239 :: b2 :: r.
Proof. intros H. other_byte b2. Qed.

Lemma keep_third b3 r :
  b3 <> 191 ->
  match 239 :: 187 :: b3 :: r with
  | 239 :: 187 :: 191 :: rest => rest
  | _ => 239 :: 187 :: b3 :: r
  end = 239 :: 187 :: b3 :: r.
Proof. intros H. other_byte b3. Qed.

Lemma keep_three b1 b2 b3 r :
  ~ (b1 = 239 /\ b2 = 187 /\ b3 = 191) ->
  match b1 :: b2 :: b3 :: r with
  | 239 :: 187 :: 191 :: rest => rest
  | _ => b1 :: b2 :: b3 :: r
  end = b1 :: b2 :: b3 :: r.
Proof.
  intros H.
  destruct (Z.eq_dec b1 239) as [->|H1];
    [|exact (keep_first b1 (b2 :: b3 :: r) H1)].
  destruct (Z.eq_dec b2 187) as [->|H2];
    [|exact (keep_second b2 (b3 :: r) H2)].
  destruct (Z.eq_dec b3 191) as [->|H3]; [|exact (keep_third b3 r H3)].
  tauto.
Qed.

Lemma utf8_of_BOM : UTF.utf8 BOM = [239; 187; 191].
Proof. reflexivity. Qed.

(** Only U+FEFF is encoded as the three bytes of the mark. *)
Lemma encode_keeps_its_head cps :
  Forall is_scalar cps -> hd 0 cps <> BOM ->
  match flat_map UTF.utf8 cps with
  | 239 :: 187 :: 191 :: rest => rest
  | _ => flat_map UTF.utf8 cps
  end = flat_map UTF.utf8 cps.
Proof.
  intros Hs Hh. destruct cps as [|cp cps]; [reflexivity|].
  inversion Hs as [|? ? [Hr Hn] _]; subst. cbn [hd] in Hh. unfold BOM in Hh.
  cbn [flat_map].
  destruct (cp <? 128) eqn:E1; [|destruct (cp <? 2048) eqn:E2;
    [|destruct (cp <? 65536) eqn:E3]].
  - assert (Hu : UTF.utf8 cp = [cp])
      by (unfold UTF.utf8; rewrite E1; reflexivity).
    rewrite Hu. cbn [app].
    exact (keep_first cp (flat_map UTF.utf8 cps) ltac:(lia)).
  - assert (Hu : UTF.utf8 cp = [192 + cp / 64; 128 + cp mod 64])
      by (unfold UTF.utf8; rewrite E1, E2; reflexivity).
    rewrite Hu. cbn [app].
    exact (keep_first (192 + cp / 64)
             ((128 + cp mod 64) :: flat_map UTF.utf8 cps) ltac:(lia)).
  - assert (Hu : UTF.utf8 cp = [224 + cp / 4096; 128 + (cp / 64) mod 64;
                                128 + cp mod 64])
      by (unfold UTF.utf8; rewrite E1, E2, E3; reflexivity).
    rewrite Hu. cbn [app].
    exact (keep_three (224 + cp / 4096) (128 + (cp / 64) mod 64)
             (128 + cp mod 64) (flat_map UTF.utf8 cps) ltac:(lia)).
  - assert (Hu : UTF.utf8 cp = [240 + cp / 262144;
                                128 + (cp / 4096) mod 64;
                                128 + (cp / 64) mod 64; 128 + cp mod 64])
      by (unfold UTF.utf8; rewrite E1, E2, E3; reflexivity).
    rewrite Hu. cbn [app].
    exact (keep_first (240 + cp / 262144)
             ((128 + (cp / 4096) mod 64) :: (128 + (cp / 64) mod 64)
              :: (128 + cp mod 64) :: flat_map UTF.utf8 cps) ltac:(lia)).
Qed.

Ltac Zify.zify_post_hook ::= idtac.

(** Decoding the encoding of a well-formed string gives the string, unless
    it starts with U+FEFF: the decoder takes a leading mark away. *)
Lemma utf8_decode_encode s :
  well_formed s = true ->
  (hd 0 s <> BOM -> Encoding.utf8_decode (UTF.encode s) = s) /\
  Encoding.utf8_decode (UTF.encode (BOM :: s)) = s.
Proof.
  intros Hs. destruct (well_formed_scalars s Hs) as (Hsc & Hcu & Hbom).
  split.
  - intros Hh. unfold Encoding.utf8_decode, UTF.encode.
    rewrite encode_keeps_its_head by (try exact Hsc; tauto).
    rewrite utf8_run_encode by exact Hsc. exact Hcu.
  - unfold Encoding.utf8_decode, UTF.encode.
    assert (Hb : UTF.scalar_values (BOM :: s) = BOM :: UTF.scalar_values s)
      by reflexivity.
    rewrite Hb. cbn [flat_map]. rewrite utf8_of_BOM. cbn [app].
    rewrite utf8_run_encode by exact Hsc. exact Hcu.
Qed.

(** X20.  With the UTF-8 decoder of the Encoding Standard, a string in which
    every surrogate is paired comes back from [getVarString] as
    [setVarString] wrote it, unless it starts with the byte-order mark
    U+FEFF: then it comes back without that first character, although the
    byte length returned still counts the three bytes of the mark. *)
Theorem well_formed_strings_round_trip (v : ByteBuf) (off : Z)
    (s : jsstring) :
  let len (t : jsstring) := Z.of_nat (length (UTF.encode t)) in
  let k (t : jsstring) :=
    Z.of_nat (length (spec_base128_groups 10 (len t))) in
  let v' (t : jsstring) :=
    written v off (spec_base128_groups 10 (len t) ++ UTF.encode t) in
  wf v -> 0 <= off -> well_formed s = true ->
  (hd 0 s <> BOM -> len s < 2 ^ 32 -> off + k s + len s <= byteLength v ->
   setVarString off s v = (Ok (k s + len s), v' s) /\
   getVarString Encoding.TextDecoder off None (v' s) =
     (Ok {| StringResult.value := s;
            StringResult.byteLength := len s + k s |}, v' s)) /\
  (len (BOM :: s) < 2 ^ 32 ->
   off + k (BOM :: s) + len (BOM :: s) <= byteLength v ->
   setVarString off (BOM :: s) v
   = (Ok (k (BOM :: s) + len (BOM :: s)), v' (BOM :: s)) /\
   getVarString Encoding.TextDecoder off None (v' (BOM :: s)) =
     (Ok {| StringResult.value := s;
            StringResult.byteLength := len (BOM :: s) + k (BOM :: s) |},
      v' (BOM :: s))).
Proof.
  intros len k v' Hwf H0 Hs.
  destruct (utf8_decode_encode s Hs) as [Hplain Hmark].
  split.
  - intros Hh Hlen Hfit.
    destruct (setVarString_then_getVarString_gen Encoding.TextDecoder
                Encoding.utf8_decode eq_refl v off s Hwf H0 Hlen Hfit)
      as (Hset & Hget).
    rewrite (Hplain Hh) in Hget. split; [exact Hset | exact Hget].
  - intros Hlen Hfit.
    destruct (setVarString_then_getVarString_gen Encoding.TextDecoder
                Encoding.utf8_decode eq_refl v off (BOM :: s) Hwf H0 Hlen
                Hfit) as (Hset & Hget).
    rewrite Hmark in Hget. split; [exact Hset | exact Hget].
Qed.

Lemma well_formed_strings_round_trip_witness :
  getVarString Encoding.TextDecoder 0 None
    (with_buffer view_8 [5; 104; 240; 159; 152; 128; 0; 0])
  = (Ok {| StringResult.value := [104; 55357; 56832];
           StringResult.byteLength := 6 |},
     with_buffer view_8 [5; 104; 240; 159; 152; 128; 0; 0]) /\
  getVarString Encoding.TextDecoder 0 None
    (with_buffer view_8 [4; 239; 187; 191; 104; 0; 0; 0])
  = (Ok {| StringResult.value := [104];
           StringResult.byteLength := 5 |},
     with_buffer view_8 [4; 239; 187; 191; 104; 0; 0; 0]).
Proof.
  assert (Hwf : wf view_8) by (apply wfb_wf; reflexivity).
  split.
  - destruct (well_formed_strings_round_trip view_8 0 [104; 55357; 56832]
                Hwf ltac:(lia) eq_refl) as [K _].
    exact (proj2 (K ltac:(vm_compute; congruence)
                    ltac:(vm_compute; reflexivity)
                    ltac:(vm_compute; congruence))).
  - destruct (well_formed_strings_round_trip view_8 0 [104]
                Hwf ltac:(lia) eq_refl) as [_ K].
    exact (proj2 (K ltac:(vm_compute; reflexivity)
                    ltac:(vm_compute; congruence))).
Defined.

(** *** A string written and read at an offset *)

(** X21.  With the UTF-8 decoder of the Encoding Standard, a string in which
    every surrogate is paired, which does not start with U+FEFF and whose
    encoding fits in the view at the offset is written in full by
    [setString], which returns the byte length of the encoding, and is
    returned by [getString] and by [readString] when they are given that
    byte length; [readString] moves the cursor by it. *)
Theorem setString_then_getString (v : ByteBuf) (off : Z) (s : jsstring)
    (enc enc' : option string) :
  let bs := UTF.encode s in
  let len := Z.of_nat (length bs) in
  let v' := written v off bs in
  wf v -> 0 <= off -> off + len <= byteLength v ->
  requests_utf8 enc -> requests_utf8 enc' ->
  well_formed s = true -> hd 0 s <> BOM ->
  setString off s enc v = (Ok len, v') /\
  getString Encoding.TextDecoder off (Some len) enc' v' = (Ok s, v') /\
  (off = priv_byteOffset v ->
   readString Encoding.TextDecoder (Some len) enc' v'
   = (Ok s, with_cursor v' (off + len))).
Proof.
  intros bs len v' Hwf H0 Hfit Henc Henc' Hs Hh.
  pose proof Hwf as (Hb & Hl & Hf & _).
  assert (Hlen : len = Z.of_nat (length bs)) by reflexivity.
  assert (Hall : UTF.fill (UTF.scalar_values s)
                   (Z.to_nat (Z.min (byteLength v - off)
                                (Z.of_nat (length s) * 4))) = bs).
  { apply fill_all. fold (UTF.encode s). fold bs.
    pose proof (length_encode_le s). fold bs in H. lia. }
  assert (Hget : getString Encoding.TextDecoder off (Some len) enc' v'
                 = (Ok s, v')).
  { unfold getString.
    assert (Hdec : new_TextDecoder Encoding.TextDecoder
                     (JS.string_or enc' "utf-8") v'
                   = (Ok Encoding.utf8_decode, v'))
      by (destruct Henc' as [-> | [-> | ->]]; reflexivity).
    rewrite (bind_Ok _ _ _ _ _ Hdec).
    assert (Hlen' : length (buffer v') = length (buffer v)).
    { unfold v', written. cbn [buffer with_buffer]. apply length_store. lia. }
    rewrite (bind_Ok _ _ _ _ _
               (getUint8Array_given_length v' off len
                  ltac:(unfold v', written;
                        cbn [super_byteOffset with_buffer]; lia)
                  ltac:(lia)
                  ltac:(rewrite Hlen'; unfold v', written;
                        cbn [super_byteOffset with_buffer]; lia))).
    unfold bind, contents, ret.
    cbn [TypedArray.byteOffset TypedArray.byteLength].
    do 2 f_equal.
    unfold v', written. cbn [buffer super_byteOffset with_buffer].
    unfold len. rewrite Nat2Z.id, slice_store by lia.
    apply (utf8_decode_encode s Hs). exact Hh. }
  split; [|split].
  - pose proof (setString_fills v off s enc Hwf ltac:(lia) Henc) as K.
    cbv zeta in K. rewrite Hall in K. exact K.
  - exact Hget.
  - intros Hc. unfold readString. unfold bind at 1. unfold cursor.
    change (priv_byteOffset v') with (priv_byteOffset v).
    rewrite <- Hc. rewrite (bind_Ok _ _ _ _ _ Hget).
    unfold bind, cursor_add, ret. do 2 f_equal.
    change (priv_byteOffset v') with (priv_byteOffset v). now rewrite Hc.
Qed.

Lemma setString_then_getString_witness :
  setString 3 [104; 233] None view_8
  = (Ok 3, with_buffer view_8 [0; 0; 0; 104; 195; 169; 0; 0]) /\
  getString Encoding.TextDecoder 3 (Some 3) None
    (with_buffer view_8 [0; 0; 0; 104; 195; 169; 0; 0])
  = (Ok [104; 233], with_buffer view_8 [0; 0; 0; 104; 195; 169; 0; 0]).
Proof.
  assert (Hwf : wf view_8) by (apply wfb_wf; reflexivity).
  destruct (setString_then_getString view_8 3 [104; 233] None None Hwf
              ltac:(lia) ltac:(vm_compute; congruence)
              (or_introl eq_refl) (or_introl eq_refl) eq_refl
              ltac:(vm_compute; congruence)) as (Hs & Hg & _).
  exact (conj Hs Hg).
Defined.

(** ** Writing, then reading back from the start *)

Lemma with_cursor_written v off bs c :
  priv_byteOffset v = c -> with_cursor (written v off bs) c = written v off bs.
Proof. intros <-. destruct v; reflexivity. Qed.

Lemma write_reset_read_gen {A B} (w : M A) (rd : M B) v v1 a b v2 :
  w v = (Ok a, v1) ->
  rd (with_cursor v1 (super_byteOffset v1)) = (Ok b, v2) ->
  (w ;;; reset ;;; rd) v = (Ok b, v2).
Proof.
  intros Hw Hr. rewrite (bind_Ok _ _ _ _ _ Hw).
  unfold bind at 1. unfold reset. exact Hr.
Qed.

Lemma read_then_advance_Ok {A} (get : Z -> M A) W v a :
  get (priv_byteOffset v) v = (Ok a, v) ->
  read_then_advance get W v = (Ok a, with_cursor v (priv_byteOffset v + W)).
Proof.
  intros H. unfold read_then_advance. unfold bind at 1. unfold cursor.
  rewrite (bind_Ok _ _ _ _ _ H). reflexivity.
Qed.

Lemma write_then_advance_Ok (set : Z -> M unit) W v v1 :
  set (priv_byteOffset v) v = (Ok tt, v1) ->
  write_then_advance set W v = (Ok tt, with_cursor v1 (priv_byteOffset v1 + W)).
Proof.
  intros H. unfold write_then_advance. unfold bind at 1. unfold cursor.
  rewrite (bind_Ok _ _ _ _ _ H). reflexivity.
Qed.

Section WriteResetRead.

Variable TextDecoder : string -> option (list Z -> jsstring).
Variable decode : list Z -> jsstring.
Hypothesis utf8_known : TextDecoder "utf-8" = Some decode.

(** X22.  On a view whose cursor is where [reset] puts it, as on every view
    just built, a streaming write followed by [reset] and the matching read
    returns what was written: a 32-bit integer wrapped to its type, every
    unsigned 32-bit variable-length integer, and the decoding of the UTF-8
    encoding of a string.  The cursor ends after the bytes written. *)
Theorem write_reset_read (v : ByteBuf) (z n : Z) (le : bool) (s : jsstring) :
  let c := priv_byteOffset v in
  let g := spec_base128_groups 10 n in
  let bs := UTF.encode s in
  let gs := spec_base128_groups 10 (Z.of_nat (length bs)) in
  wf v -> priv_byteOffset v = super_byteOffset v ->
  (c + 4 <= byteLength v ->
   (writeInt32 z le ;;; reset ;;; readInt32 le) v =
     (Ok (signed 32 (z mod 2 ^ 32)),
      with_cursor (written v c (NumericToRawBytes 4 z le)) (c + 4))) /\
  (0 <= n < 2 ^ 32 -> c + Z.of_nat (length g) <= byteLength v ->
   (writeVarUint n None ;;; reset ;;; readVarUint None) v =
     (Ok n, with_cursor (written v c g) (c + Z.of_nat (length g)))) /\
  (Z.of_nat (length bs) < 2 ^ 32 ->
   c + Z.of_nat (length gs) + Z.of_nat (length bs) <= byteLength v ->
   (writeVarString s ;;; reset ;;; readVarString TextDecoder None) v =
     (Ok (decode bs),
      with_cursor (written v c (gs ++ bs))
        (c + (Z.of_nat (length bs) + Z.of_nat (length gs))))).
Proof.
  intros c g bs gs Hwf Hc.
  pose proof Hwf as (Hb & Hl & Hf & _).
  assert (Hc0 : 0 <= c) by (unfold c; lia).
  split; [|split].
  - intros Hfit.
    destruct (DataView_set_then_get 4 c z le v Hwf Hc0 ltac:(lia))
      as [Hset Hget].
    fold (written v c (NumericToRawBytes 4 z le)) in Hset, Hget.
    eapply write_reset_read_gen.
    + unfold writeInt32. apply write_then_advance_Ok. exact Hset.
    + change (with_cursor
                (with_cursor (written v c (NumericToRawBytes 4 z le))
                   (priv_byteOffset (written v c (NumericToRawBytes 4 z le))
                    + 4))
                (super_byteOffset
                   (with_cursor (written v c (NumericToRawBytes 4 z le))
                      (priv_byteOffset
                         (written v c (NumericToRawBytes 4 z le)) + 4))))
        with (with_cursor (written v c (NumericToRawBytes 4 z le))
                (super_byteOffset v)).
      rewrite with_cursor_written by exact Hc.
      unfold readInt32.
      apply (read_then_advance_Ok (fun off => getInt32 off le) 4
               (written v c (NumericToRawBytes 4 z le))).
      unfold getInt32, DataView.getInt.
      change (priv_byteOffset (written v c (NumericToRawBytes 4 z le)))
        with c.
      rewrite (bind_Ok _ _ _ _ _ Hget). reflexivity.
  - intros Hn Hfit.
    destruct (setVarInt_encodes v c n Hwf Hc0) as [_ Hset].
    { rewrite ToUint32_small by lia. exact Hfit. }
    rewrite ToUint32_small in Hset by lia. fold g in Hset.
    pose proof (getVarUint_reads_groups (written v c g) c n Hn Hb Hc0 Hfit
                  (bytes_at_written v c g ltac:(lia) ltac:(lia))) as Hget.
    eapply write_reset_read_gen.
    + unfold writeVarUint. unfold bind at 1. unfold cursor. fold c.
      unfold setVarUint. rewrite shr_0, ToUint32_small by lia.
      rewrite (bind_Ok _ _ _ _ _ Hset). reflexivity.
    + change (with_cursor
                (with_cursor (written v c g)
                   (priv_byteOffset (written v c g) + Z.of_nat (length g)))
                (super_byteOffset
                   (with_cursor (written v c g)
                      (priv_byteOffset (written v c g)
                       + Z.of_nat (length g)))))
        with (with_cursor (written v c g) (super_byteOffset v)).
      rewrite with_cursor_written by exact Hc.
      unfold readVarUint. unfold bind at 1. unfold cursor.
      change (priv_byteOffset (written v c g)) with c.
      rewrite (bind_Ok _ _ _ _ _ Hget). reflexivity.
  - intros Hlen Hfit.
    destruct (setVarString_then_getVarString_gen TextDecoder decode utf8_known
                v c s Hwf Hc0 Hlen Hfit) as (Hset & Hget).
    fold bs in Hset, Hget. fold gs in Hset, Hget.
    eapply write_reset_read_gen.
    + unfold writeVarString. unfold bind at 1. unfold cursor. fold c.
      rewrite (bind_Ok _ _ _ _ _ Hset). reflexivity.
    + change (with_cursor
                (with_cursor (written v c (gs ++ bs))
                   (priv_byteOffset (written v c (gs ++ bs))
                    + (Z.of_nat (length gs) + Z.of_nat (length bs))))
                (super_byteOffset
                   (with_cursor (written v c (gs ++ bs))
                      (priv_byteOffset (written v c (gs ++ bs))
                       + (Z.of_nat (length gs) + Z.of_nat (length bs))))))
        with (with_cursor (written v c (gs ++ bs)) (super_byteOffset v)).
      rewrite with_cursor_written by exact Hc.
      unfold readVarString. unfold bind at 1. unfold cursor.
      change (priv_byteOffset (written v c (gs ++ bs))) with c.
      rewrite (bind_Ok _ _ _ _ _ Hget). reflexivity.
Qed.

End WriteResetRead.

Lemma write_reset_read_witness :
  (writeVarUint 300 None ;;; reset ;;; readVarUint None) view_8
  = (Ok 300,
     with_cursor (with_buffer view_8 [172; 2; 0; 0; 0; 0; 0; 0]) 2) /\
  (writeVarString [104; 105] ;;; reset ;;;
   readVarString Encoding.TextDecoder None) view_8
  = (Ok [104; 105],
     with_cursor (with_buffer view_8 [2; 104; 105; 0; 0; 0; 0; 0]) 3).
Proof.
  assert (Hwf : wf view_8) by (apply wfb_wf; reflexivity).
  destruct (write_reset_read Encoding.TextDecoder Encoding.utf8_decode
              eq_refl view_8 0 300 true [104; 105] Hwf eq_refl)
    as (_ & K2 & K3).
  split.
  - exact (K2 ltac:(lia) ltac:(vm_compute; congruence)).
  - exact (K3 ltac:(vm_compute; reflexivity) ltac:(vm_compute; congruence)).
Defined.

(** ** [toString] *)

Lemma format_byte_table :
  forallb (fun b =>
             String.eqb (String_slice_from_end 2
                           ("00" ++ Number_toString b 16)) (hex_pair b)
             && String.eqb (Number_toString b 10) (decimal b))
    (map Z.of_nat (seq 0 256)) = true.
Proof. vm_compute. reflexivity. Qed.

Lemma format_byte b :
  is_byte b ->
  String_slice_from_end 2 ("00" ++ Number_toString b 16) = hex_pair b /\
  Number_toString b 10 = decimal b.
Proof.
  intros Hb. pose proof format_byte_table as T.
  rewrite forallb_forall in T.
  specialize (T b). rewrite andb_true_iff, !String.eqb_eq in T. apply T.
  apply in_map_iff. exists (Z.to_nat b). unfold is_byte in Hb.
  split; [lia|]. apply in_seq. lia.
Qed.

Lemma map_ext_bytes {B} (f g : Z -> B) bs :
  Forall is_byte bs -> (forall b, is_byte b -> f b = g b) ->
  map f bs = map g bs.
Proof.
  intros Hbs Hfg. induction Hbs as [|b bs Hb _ IH]; [reflexivity|].
  cbn [map]. now rewrite Hfg, IH.
Qed.

(** X23.  [toString] prints the bytes from the start of the view to the end
    of the buffer, the bytes after the end of the view included, separated
    by single spaces.  With the format "hex" each byte is exactly two
    lower-case hexadecimal digits, the high half first; with any other
    format, or none, it is the decimal number without padding.  It never
    throws and changes nothing. *)
Theorem toString_prints_to_the_end_of_the_buffer (v : ByteBuf)
    (format : option string) :
  wf v ->
  let bytes := drop (Z.to_nat (super_byteOffset v)) (buffer v) in
  toString format v =
    (Ok (String.concat " "
           (map (if match format with
                    | Some f => String.eqb f "hex"
                    | None => false
                    end
                 then hex_pair else decimal) bytes)), v).
Proof.
  intros Hwf bytes. pose proof Hwf as (Hb & Hl & Hf & Hbytes).
  unfold toString.
  rewrite (bind_Ok _ _ _ _ _ (getUint8Array_to_buffer_end v 0 ltac:(lia))).
  unfold bind, contents, ret.
  cbn [TypedArray.byteOffset TypedArray.byteLength].
  do 3 f_equal.
  assert (Hs : slice (Z.to_nat (super_byteOffset v + 0))
                 (Z.to_nat (Z.of_nat (length (buffer v))
                            - (super_byteOffset v + 0))) (buffer v) = bytes).
  { unfold slice, bytes. rewrite Z.add_0_r. apply take_ge.
    rewrite length_drop. lia. }
  rewrite Hs.
  assert (Hall : Forall is_byte bytes) by (apply Forall_drop; exact Hbytes).
  apply map_ext_bytes; [exact Hall|]. intros b Hbyte.
  destruct (format_byte b Hbyte) as [Hhex Hdec].
  destruct format as [f|]; [|exact Hdec].
  destruct (String.eqb f "hex"); assumption.
Qed.

Lemma toString_prints_to_the_end_of_the_buffer_witness :
  toString (Some "hex"%string)
    (with_buffer view_2_2 [1; 2; 10; 255; 5; 6])
  = (Ok "0a ff 05 06"%string, with_buffer view_2_2 [1; 2; 10; 255; 5; 6]) /\
  toString None view_2_2 = (Ok "3 4 5 6"%string, view_2_2).
Proof.
  split.
  - exact (toString_prints_to_the_end_of_the_buffer
             (with_buffer view_2_2 [1; 2; 10; 255; 5; 6])
             (Some "hex"%string) ltac:(apply wfb_wf; reflexivity)).
  - exact (toString_prints_to_the_end_of_the_buffer view_2_2 None
             ltac:(apply wfb_wf; reflexivity)).
Defined.

(** ** Construction *)

(** X24.  [from] never copies: the view it builds is on the buffer of the
    source, at the source's own offset plus the offset asked for; it lies
    inside that buffer, and its cursor starts at its offset in the buffer. *)
Theorem from_views_the_source_buffer (source : BufferSource)
    (off len : option Z) (v : ByteBuf) :
  Forall is_byte (source_buffer source) ->
  from source off len = Ok v ->
  wf v /\
  buffer v = source_buffer source /\
  super_byteOffset v =
    match source with
    | ArrayBuffer _ => default 0 off
    | ArrayBufferView _ sourceOffset _ => sourceOffset + JS.number_or off 0
    end /\
  priv_byteOffset v = super_byteOffset v.
Proof.
  intros Hb H. split; [exact (from_wf _ _ _ _ Hb H)|].
  split; [|split; [|exact (from_cursor _ _ _ _ H)]].
  - unfold from, new_ByteBuf in H.
    destruct len as [n|]; destruct (_ || _); try discriminate.
    + destruct ((_ <? 0) || _); [discriminate|].
      inversion H; reflexivity.
    + inversion H; reflexivity.
  - unfold from, new_ByteBuf in H.
    destruct len as [n|]; destruct (_ || _); try discriminate.
    + destruct ((_ <? 0) || _); [discriminate|].
      inversion H; subst; destruct source; reflexivity.
    + inversion H; subst; destruct source; reflexivity.
Qed.

Lemma from_views_the_source_buffer_witness :
  wf view_4_4 /\ buffer view_4_4 = source_buffer source_4_4 /\
  super_byteOffset view_4_4 = 4 + JS.number_or None 0 /\
  priv_byteOffset view_4_4 = super_byteOffset view_4_4.
Proof.
  apply (from_views_the_source_buffer source_4_4 None (Some 4) view_4_4).
  - repeat constructor; unfold is_byte; lia.
  - reflexivity.
Defined.
